(** * A limit order book, its replayer and a market-making strategy

    Shallow embedding of [engine/orderbook.py], [engine/replayer.py] and
    [strategies/market_maker.py].

    Numbers.  Prices, sizes and order identifiers of the book are Python
    integers and are modelled as [Z].  Timestamps are only stored, never
    computed with, and are modelled as [Q].  The strategy's accounting uses
    true division and is modelled over the rationals [Q], i.e. with exact
    arithmetic in place of binary floating point.

    Containers.  [defaultdict(deque)] is an insertion-ordered dictionary and
    is modelled as an association list with unique keys, a missing key
    reading as the empty queue; a [deque] is a list whose head is the front
    of the queue. *)

From Stdlib Require Import String ZArith List Bool Lia QArith Qminmax Qround
  Lqa Permutation Sorted.
Import ListNotations.
Local Open Scope Z_scope.

(** ** Insertion-ordered dictionaries keyed by integers *)

Module Dict.
Section Defs.
Context {V : Type}.

Definition dict := list (Z * V).

Definition keys (d : dict) : list Z := map fst d.

Fixpoint get (d : dict) (k : Z) : option V :=
  match d with
  | [] => None
  | (k', v) :: d' => if k' =? k then Some v else get d' k
  end.

(** [d[k] = v]: an existing key keeps its position, a new key goes last. *)
Fixpoint set (d : dict) (k : Z) (v : V) : dict :=
  match d with
  | [] => [(k, v)]
  | (k', v') :: d' =>
      if k' =? k then (k, v) :: d' else (k', v') :: set d' k v
  end.

(** [del d[k]] (a missing key is left to the caller to exclude). *)
Fixpoint del (d : dict) (k : Z) : dict :=
  match d with
  | [] => []
  | (k', v') :: d' => if k' =? k then d' else (k', v') :: del d' k
  end.
End Defs.
Arguments dict : clear implicits.
End Dict.

(** ** The order book engine *)

Module LOB.

Record Order := mkOrder
  { oid : Z; side : string; price : Z; size : Z; ts : Q }.

Definition set_size (o : Order) (s : Z) : Order :=
  mkOrder (oid o) (side o) (price o) s (ts o).

Definition queue := list Order.
Definition half_book := Dict.dict queue.

Record OrderBook := mkBook
  { bids : half_book;
    asks : half_book;
    bid_prices : list Z;
    ask_prices : list Z;
    next_oid : Z;
    time : Q }.

(** [OrderBook()] *)
Definition empty_book : OrderBook := mkBook [] [] [] [] 1 0%Q.

(** Reading [book_side[price]] of a [defaultdict(deque)]. *)
Definition level (d : half_book) (p : Z) : queue :=
  match Dict.get d p with Some q => q | None => [] end.

(** *** Helpers *)

(** [bisect.insort] on an ascending list: [x] goes before the first element
    that is strictly greater. *)
Fixpoint insort (l : list Z) (x : Z) : list Z :=
  match l with
  | [] => [x]
  | y :: l' => if x <? y then x :: l else y :: insort l' x
  end.

Definition _insert_price (prices : list Z) (p : Z) : list Z :=
  if existsb (Z.eqb p) prices then prices
  else match prices with
       | [] => [p]
       | _ => insort prices p
       end.

(** [list.remove]: drops the first occurrence; the [ValueError] of an absent
    value is caught by the caller, which leaves the list as it is. *)
Fixpoint list_remove (x : Z) (l : list Z) : list Z :=
  match l with
  | [] => []
  | y :: l' => if y =? x then l' else y :: list_remove x l'
  end.

Definition _remove_price_if_empty (prices : list Z) (p : Z) (d : half_book)
  : list Z * half_book :=
  match level d p with
  | [] => (list_remove p prices, Dict.del d p)
  | _ :: _ => (prices, d)
  end.

(** [min(l)] and [max(l)]; [None] stands for the empty list, which every
    caller tests before it takes the extremum. *)
Definition py_min (l : list Z) : option Z :=
  match l with
  | [] => None
  | x :: l' => Some (fold_left Z.min l' x)
  end.

Definition py_max (l : list Z) : option Z :=
  match l with
  | [] => None
  | x :: l' => Some (fold_left Z.max l' x)
  end.

(** *** Snapshots and top of book *)

Definition install (sd : string) (t : Q) (st : half_book * list Z)
  (lv : Z * Z) : half_book * list Z :=
  let '(p, s) := lv in
  if s <=? 0 then st
  else (Dict.set (fst st) p [mkOrder 0 sd p s t], _insert_price (snd st) p).

Definition apply_snapshot (b : OrderBook) (bs as_ : list (Z * Z)) (t : Q)
  : OrderBook :=
  let bside := fold_left (install "bid" t) bs ([], []) in
  let aside := fold_left (install "ask" t) as_ ([], []) in
  mkBook (fst bside) (fst aside) (snd bside) (snd aside) (next_oid b) t.

Definition top_of_book (b : OrderBook) : option Z * option Z :=
  (py_max (bid_prices b), py_min (ask_prices b)).

(** *** Trades *)

Definition Fill := (string * Z * Z)%type.
Definition fill_tag (f : Fill) : string := fst (fst f).
Definition fill_price (f : Fill) : Z := snd (fst f).
Definition fill_qty (f : Fill) : Z := snd f.

Inductive Dir := Asks | Bids.

Definition tag (d : Dir) : string :=
  match d with Asks => "sell" | Bids => "buy" end%string.

Definition best (d : Dir) (prices : list Z) : option Z :=
  match d with Asks => py_min prices | Bids => py_max prices end.

(** The direction condition of a trade at [price] against a level [p]. *)
Definition hit (d : Dir) (price p : Z) : bool :=
  match d with Asks => p <=? price | Bids => price <=? p end.

(** [self.ask_prices and price >= min(self.ask_prices)], and its mirror. *)
Definition crosses (d : Dir) (prices : list Z) (price : Z) : bool :=
  match best d prices with Some m => hit d price m | None => false end.

(** The inner loop [while size > 0 and q] at level [p]. *)
Fixpoint drain (fuel : nat) (tg : string) (p : Z) (q : queue) (sz : Z)
  (fills : list Fill) : queue * Z * list Fill :=
  match fuel with
  | O => (q, sz, fills)
  | S n =>
      match q with
      | o :: rest =>
          if 0 <? sz then
            let take := Z.min (size o) sz in
            let o' := set_size o (size o - take) in
            let q' := if size o' =? 0 then rest else o' :: rest in
            drain n tg p q' (sz - take) (fills ++ [(tg, p, take)])
          else (q, sz, fills)
      | [] => (q, sz, fills)
      end
  end.

(** The outer loop [while size > 0 and prices and <direction condition>]. *)
Fixpoint sweep (fuel : nat) (dir : Dir) (d : half_book) (prices : list Z)
  (price sz : Z) (fills : list Fill)
  : half_book * list Z * Z * list Fill :=
  match fuel with
  | O => (d, prices, sz, fills)
  | S n =>
      if (0 <? sz) && crosses dir prices price then
        match best dir prices with
        | Some p =>
            let q := level d p in
            let '(q', sz', fills') := drain (length q) (tag dir) p q sz fills in
            let '(prices', d') :=
              _remove_price_if_empty prices p (Dict.set d p q') in
            sweep n dir d' prices' price sz' fills'
        | None => (d, prices, sz, fills)
        end
      else (d, prices, sz, fills)
  end.

Definition process_trade (b : OrderBook) (price sz : Z) (t : Q)
  : OrderBook * list Fill :=
  if crosses Asks (ask_prices b) price then
    let '(d', prices', _, fills) :=
      sweep (length (ask_prices b)) Asks (asks b) (ask_prices b) price sz [] in
    (mkBook (bids b) d' (bid_prices b) prices' (next_oid b) t, fills)
  else if crosses Bids (bid_prices b) price then
    let '(d', prices', _, fills) :=
      sweep (length (bid_prices b)) Bids (bids b) (bid_prices b) price sz [] in
    (mkBook d' (asks b) prices' (ask_prices b) (next_oid b) t, fills)
  else
    (mkBook (bids b) (asks b) (bid_prices b) (ask_prices b) (next_oid b) t, []).

(** *** Placement and cancellation *)

Definition place_limit_order (b : OrderBook) (sd : string) (p s : Z) (t : Q)
  : OrderBook * Z :=
  let o := mkOrder (next_oid b) sd p s t in
  if (sd =? "bid")%string then
    (mkBook (Dict.set (bids b) p (level (bids b) p ++ [o])) (asks b)
       (_insert_price (bid_prices b) p) (ask_prices b) (next_oid b + 1) t,
     next_oid b)
  else
    (mkBook (bids b) (Dict.set (asks b) p (level (asks b) p ++ [o]))
       (bid_prices b) (_insert_price (ask_prices b) p) (next_oid b + 1) t,
     next_oid b).

(** [q.remove(o)] for the first order [o] of [q] bearing identifier [id]. *)
Fixpoint remove_oid (id : Z) (q : queue) : queue :=
  match q with
  | [] => []
  | o :: q' => if oid o =? id then q' else o :: remove_oid id q'
  end.

(** The scan [for p, q in list(items): for o in list(q): if o.oid == oid]:
    the first level, in dictionary order, that holds such an order. *)
Fixpoint find_oid (id : Z) (items : list (Z * queue)) : option (Z * queue) :=
  match items with
  | [] => None
  | (p, q) :: items' =>
      if existsb (fun o => oid o =? id) q then Some (p, q)
      else find_oid id items'
  end.

Definition cancel_side (id : Z) (prices : list Z) (d : half_book)
  : option (list Z * half_book) :=
  match find_oid id d with
  | Some (p, q) =>
      Some (_remove_price_if_empty prices p (Dict.set d p (remove_oid id q)))
  | None => None
  end.

Definition cancel_order (b : OrderBook) (id : Z) : OrderBook * bool :=
  match cancel_side id (bid_prices b) (bids b) with
  | Some (prices', d') =>
      (mkBook d' (asks b) prices' (ask_prices b) (next_oid b) (time b), true)
  | None =>
      match cancel_side id (ask_prices b) (asks b) with
      | Some (prices', d') =>
          (mkBook (bids b) d' (bid_prices b) prices' (next_oid b) (time b),
           true)
      | None => (b, false)
      end
  end.

(** *** Sequences of public operations *)

Inductive Op :=
  | OpSnapshot (bs as_ : list (Z * Z)) (t : Q)
  | OpPlace (sd : string) (p s : Z) (t : Q)
  | OpCancel (id : Z)
  | OpTrade (price sz : Z) (t : Q).

Definition apply_op (b : OrderBook) (op : Op) : OrderBook :=
  match op with
  | OpSnapshot bs as_ t => apply_snapshot b bs as_ t
  | OpPlace sd p s t => fst (place_limit_order b sd p s t)
  | OpCancel id => fst (cancel_order b id)
  | OpTrade price sz t => fst (process_trade b price sz t)
  end.

Definition run_ops (ops : list Op) (b : OrderBook) : OrderBook :=
  fold_left apply_op ops b.

(** *** Notions used to state the properties *)

Definition zsum (l : list Z) : Z := fold_right Z.add 0 l.

Definition queue_size (q : queue) : Z := zsum (map size q).

(** Aggregate remaining size of the listed levels, as
    [snapshot_for_display] computes it per level. *)
Definition liquidity (d : half_book) (prices : list Z) : Z :=
  zsum (map (fun p => queue_size (level d p)) prices).

(** The levels whose price satisfies the direction condition. *)
Definition eligible (dir : Dir) (price : Z) (prices : list Z) : list Z :=
  filter (hit dir price) prices.

Definition fills_qty (fs : list Fill) : Z := zsum (map fill_qty fs).

(** The two halves of remove-on-empty. *)
Definition active_nonempty (d : half_book) (prices : list Z) : Prop :=
  forall p, In p prices -> level d p <> [].

Definition queued_active (d : half_book) (prices : list Z) : Prop :=
  forall p, In p (Dict.keys d) -> In p prices.

(** What every reachable half-book satisfies: the dictionary has no
    repeated key, the level list is strictly ascending, and a price is
    listed exactly when its queue is non-empty. *)
Definition side_inv (d : half_book) (prices : list Z) : Prop :=
  NoDup (Dict.keys d)
  /\ StronglySorted Z.lt prices
  /\ (forall p, In p prices <-> level d p <> [])
  /\ (forall p, In p (Dict.keys d) -> level d p <> []).

Definition lob_inv (b : OrderBook) : Prop :=
  side_inv (bids b) (bid_prices b) /\ side_inv (asks b) (ask_prices b).

Definition sizes_nonneg (d : half_book) : Prop :=
  forall p o, In o (level d p) -> 0 <= size o.

(** An operation that places no order of negative size. *)
Definition nonneg_op (op : Op) : bool :=
  match op with
  | OpPlace _ _ s _ => 0 <=? s
  | _ => true
  end.

(** Levels from the best price outwards: the level list is kept ascending,
    so asks are read forwards and bids backwards. *)
Definition by_priority (dir : Dir) (prices : list Z) : list Z :=
  match dir with Asks => prices | Bids => rev prices end.

(** The resting orders of the listed levels in priority order, each with
    the price of its level: best price first, queue order within a level. *)
Definition resting (dir : Dir) (d : half_book) (prices : list Z)
  : list (Z * Order) :=
  flat_map (fun p => map (pair p) (level d p)) (by_priority dir prices).

(** First-in-first-out matching of a trade of size [sz] against a priority
    list: the fills it gives, what is left of the list, and what is left of
    the trade. *)
Fixpoint fifo_fills (tg : string) (os : list (Z * Order)) (sz : Z)
  : list Fill :=
  match os with
  | [] => []
  | (p, o) :: os' =>
      if 0 <? sz then
        (tg, p, Z.min (size o) sz)
          :: fifo_fills tg os' (sz - Z.min (size o) sz)
      else []
  end.

Fixpoint fifo_rest (os : list (Z * Order)) (sz : Z) : list (Z * Order) :=
  match os with
  | [] => []
  | (p, o) :: os' =>
      if 0 <? sz then
        if size o <=? sz then fifo_rest os' (sz - size o)
        else (p, set_size o (size o - sz)) :: os'
      else os
  end.

Fixpoint fifo_left (os : list (Z * Order)) (sz : Z) : Z :=
  match os with
  | [] => sz
  | (p, o) :: os' =>
      if 0 <? sz then
        if size o <=? sz then fifo_left os' (sz - size o) else 0
      else sz
  end.

(** What a queue looks like after a trade has reached it: a number of
    orders at the front are gone, at most the next one is reduced, and all
    the later ones are as they were. *)
Inductive fifo_residual : queue -> queue -> Prop :=
  | residual_untouched q : fifo_residual q q
  | residual_partial o s q :
      0 < s < size o -> fifo_residual (o :: q) (set_size o s :: q)
  | residual_drained o q r : fifo_residual q r -> fifo_residual (o :: q) r.

(** The half-book a direction sweeps, and the side a trade at [price]
    sweeps: asks when some ask level satisfies the direction condition,
    otherwise bids when some bid level does. *)
Definition half (dir : Dir) (b : OrderBook) : half_book :=
  match dir with Asks => asks b | Bids => bids b end.

Definition levels (dir : Dir) (b : OrderBook) : list Z :=
  match dir with Asks => ask_prices b | Bids => bid_prices b end.

Definition other (dir : Dir) : Dir :=
  match dir with Asks => Bids | Bids => Asks end.

Definition swept_side (b : OrderBook) (price : Z) : option Dir :=
  if existsb (hit Asks price) (ask_prices b) then Some Asks
  else if existsb (hit Bids price) (bid_prices b) then Some Bids
  else None.

(** [x] is at least as good a price as [y] for the side that is swept. *)
Definition better_eq (dir : Dir) (x y : Z) : Prop :=
  match dir with Asks => x <= y | Bids => y <= x end.

(** The side of the book a placement with side string [sd] goes to. *)
Definition placed_on (sd : string) : Dir :=
  if (sd =? "bid")%string then Bids else Asks.

Definition has_oid (id : Z) (d : half_book) : bool :=
  existsb (fun o => oid o =? id) (flat_map snd d).

(** The orders a snapshot side asks for. *)
Definition kept (lvs : list (Z * Z)) : list (Z * Z) :=
  filter (fun lv => 0 <? snd lv) lvs.

Definition synthetic (sd : string) (t : Q) (lv : Z * Z) : Order :=
  mkOrder 0 sd (fst lv) (snd lv) t.

(** Every order resting in a half-book, in dictionary order. *)
Definition all_orders (d : half_book) : list Order := flat_map snd d.

(** The size the last kept pair at price [p] carries, if there is one. *)
Fixpoint last_size (lvs : list (Z * Z)) (p : Z) : option Z :=
  match lvs with
  | [] => None
  | (p', s) :: lvs' =>
      match last_size lvs' p with
      | Some s' => Some s'
      | None => if (p' =? p) && (0 <? s) then Some s else None
      end
  end.

(** Total size of a priority list. *)
Definition osize (os : list (Z * Order)) : Z :=
  zsum (map (fun po => size (snd po)) os).

(** What the outer loop achieves, from a half-book [d], [prices] and a
    trade of size [sz] to the state in which it stops. *)
Definition sweep_post (dir : Dir) (price : Z) (d : half_book)
  (prices : list Z) (sz : Z) (fills : list Fill) (d' : half_book)
  (prices' : list Z) (sz' : Z) (fills' : list Fill) : Prop :=
  let os := resting dir d (eligible dir price prices) in
  fills' = fills ++ fifo_fills (tag dir) os sz
  /\ sz' = fifo_left os sz
  /\ resting dir d' (eligible dir price prices') = fifo_rest os sz
  /\ (forall x, hit dir price x = false -> level d' x = level d x)
  /\ filter (fun x => negb (hit dir price x)) prices'
     = filter (fun x => negb (hit dir price x)) prices
  /\ side_inv d' prices'
  /\ (forall x, fifo_residual (level d x) (level d' x))
  /\ (0 <? sz') && crosses dir prices' price = false.

(** *** Books used as examples *)

Definition demo_book : OrderBook :=
  apply_snapshot empty_book [(99, 10); (98, 5)] [(101, 10); (102, 4)] 0.

(** A crossed book: the best bid is above the best ask. *)
Definition crossed_book : OrderBook :=
  apply_snapshot empty_book [(101, 5)] [(100, 5)] 0.

(** Three asks placed at one price, in the order A, B, C. *)
Definition abc_book : OrderBook :=
  run_ops [OpPlace "ask" 100 3 0; OpPlace "ask" 100 4 0;
           OpPlace "ask" 100 5 0] empty_book.

(** A snapshot, then one ask and one bid of the strategy's. *)
Definition quoted_book : OrderBook :=
  run_ops [OpSnapshot [(99, 10); (98, 5)] [(101, 10); (102, 4)] 0;
           OpPlace "ask" 101 3 2; OpPlace "bid" 99 1 2] empty_book.

(** *** Depth view *)

(** [sorted(l)] on integers, as a stable insertion sort. *)
Fixpoint sorted_insert (x : Z) (l : list Z) : list Z :=
  match l with
  | [] => [x]
  | y :: l' => if x <=? y then x :: l else y :: sorted_insert x l'
  end.

Definition py_sorted (l : list Z) : list Z := fold_right sorted_insert [] l.

(** The slice [l[:depth]]; a negative [depth] counts from the end. *)
Definition py_take {A : Type} (depth : Z) (l : list A) : list A :=
  if 0 <=? depth then firstn (Z.to_nat depth) l
  else firstn (length l - Z.to_nat (- depth)) l.

(** The comprehension [[(p, sum(o.size for o in side[p])) for p in ps]].
    Reading [side[p]] of a [defaultdict] stores an empty queue under a
    price that has none, so the half-book is threaded through. *)
Fixpoint display_side (d : half_book) (ps : list Z)
  : list (Z * Z) * half_book :=
  match ps with
  | [] => ([], d)
  | p :: ps' =>
      let d1 := match Dict.get d p with
                | Some _ => d
                | None => Dict.set d p []
                end in
      let '(rows, d2) := display_side d1 ps' in
      ((p, queue_size (level d1 p)) :: rows, d2)
  end.

Definition snapshot_for_display (b : OrderBook) (depth : Z)
  : (list (Z * Z) * list (Z * Z)) * OrderBook :=
  let bs := py_take depth (rev (py_sorted (bid_prices b))) in
  let as_ := py_take depth (py_sorted (ask_prices b)) in
  let '(brows, bd) := display_side (bids b) bs in
  let '(arows, ad) := display_side (asks b) as_ in
  ((brows, arows),
   mkBook bd ad (bid_prices b) (ask_prices b) (next_oid b) (time b)).

(** *** Further notions used to state the properties *)

(** Identifiers handed out so far are below the counter. *)
Definition ids_fresh (b : OrderBook) : Prop :=
  0 < next_oid b
  /\ forall dir p o,
       In o (level (half dir b) p) -> 0 <= oid o < next_oid b.

Definition sizes_pos (d : half_book) : Prop :=
  forall p o, In o (level d p) -> 0 < size o.

(** The book with its time set, and nothing else changed. *)
Definition at_time (b : OrderBook) (t : Q) : OrderBook :=
  mkBook (bids b) (asks b) (bid_prices b) (ask_prices b) (next_oid b) t.

(** An operation that places no order of size zero or less. *)
Definition pos_op (op : Op) : bool :=
  match op with
  | OpPlace _ _ s _ => 0 <? s
  | _ => true
  end.


End LOB.

(** ** The market-making strategy *)

Module MarketMaker.
Import LOB.
Local Open Scope Q_scope.

(** The constructor arguments of [SimpleMarketMaker].  The tick is a whole,
    positive number of price units (the default is [1.0]), which keeps the
    quotes on the integer price grid of the book. *)
Record Config := mkConfig
  { order_size : Z;
    tick : positive;
    position_limit : Z;
    inventory_k : Q;
    spread_ticks_min : Q;
    spread_ticks_max : Q;
    vol_window : nat;
    vol_to_spread_k : Q }.

Definition default_config : Config :=
  mkConfig 1 1 50 (2 # 10) 1 5 200 10.

(** The mutable attributes of [SimpleMarketMaker]. *)
Record State := mkState
  { our_orders : Dict.dict (string * Z * Z);
    inventory : Q;
    cash : Q;
    avg_price : Q;
    realized : Q;
    fills : list (string * Q * Q * Q);
    mids : list Q;
    equity_curve : list (Q * Q);
    inv_curve : list (Q * Q);
    last_mid : option Q }.

Definition init_state : State := mkState [] 0 0 0 0 [] [] [] [] None.

Definition set_our_orders (s : State) (x : Dict.dict (string * Z * Z)) :=
  mkState x (inventory s) (cash s) (avg_price s) (realized s) (fills s)
    (mids s) (equity_curve s) (inv_curve s) (last_mid s).
Definition set_inventory (s : State) (x : Q) :=
  mkState (our_orders s) x (cash s) (avg_price s) (realized s) (fills s)
    (mids s) (equity_curve s) (inv_curve s) (last_mid s).
Definition set_cash (s : State) (x : Q) :=
  mkState (our_orders s) (inventory s) x (avg_price s) (realized s) (fills s)
    (mids s) (equity_curve s) (inv_curve s) (last_mid s).
Definition set_avg_price (s : State) (x : Q) :=
  mkState (our_orders s) (inventory s) (cash s) x (realized s) (fills s)
    (mids s) (equity_curve s) (inv_curve s) (last_mid s).
Definition set_realized (s : State) (x : Q) :=
  mkState (our_orders s) (inventory s) (cash s) (avg_price s) x (fills s)
    (mids s) (equity_curve s) (inv_curve s) (last_mid s).
Definition set_fills (s : State) (x : list (string * Q * Q * Q)) :=
  mkState (our_orders s) (inventory s) (cash s) (avg_price s) (realized s) x
    (mids s) (equity_curve s) (inv_curve s) (last_mid s).
Definition set_mids (s : State) (x : list Q) (m : option Q) :=
  mkState (our_orders s) (inventory s) (cash s) (avg_price s) (realized s)
    (fills s) x (equity_curve s) (inv_curve s) m.
Definition push_curves (s : State) (e i : Q * Q) :=
  mkState (our_orders s) (inventory s) (cash s) (avg_price s) (realized s)
    (fills s) (mids s) (equity_curve s ++ [e]) (inv_curve s ++ [i])
    (last_mid s).

(** The literal [1e-12]. *)
Definition eps : Q := 1 # 1000000000000.

Definition Qltb (x y : Q) : bool := negb (Qle_bool y x).

(** *** PnL accounting *)

Definition on_fill (s : State) (sd : string) (p qty t : Q) : State :=
  let s := set_fills s (fills s ++ [(sd, p, qty, t)]) in
  if (sd =? "buy")%string then
    let s := set_cash s (cash s - p * qty) in
    if Qle_bool 0 (inventory s) then
      let total_cost := avg_price s * inventory s + p * qty in
      let s := set_inventory s (inventory s + qty) in
      set_avg_price s (total_cost / Qmax (inventory s) eps)
    else
      let cover := Qmin qty (- inventory s) in
      let s := set_realized s (realized s + (avg_price s - p) * cover) in
      let s := set_inventory s (inventory s + cover) in
      let remaining := qty - cover in
      if Qeq_bool (inventory s) 0 && Qltb 0 remaining then
        set_avg_price (set_inventory s (inventory s + remaining)) p
      else s
  else if (sd =? "sell")%string then
    let s := set_cash s (cash s + p * qty) in
    if Qle_bool (inventory s) 0 then
      let total_proceeds := avg_price s * (- inventory s) + p * qty in
      let s := set_inventory s (inventory s - qty) in
      set_avg_price s (total_proceeds / Qmax (- inventory s) eps)
    else
      let reduce := Qmin qty (inventory s) in
      let s := set_realized s (realized s + (p - avg_price s) * reduce) in
      let s := set_inventory s (inventory s - reduce) in
      let remaining := qty - reduce in
      if Qeq_bool (inventory s) 0 && Qltb 0 remaining then
        set_avg_price (set_inventory s (inventory s - remaining)) p
      else s
  else s.

(** Long 10 at an average cost of 100, and long 5 at 100. *)
Definition long10 : State := on_fill init_state "buy" 100 10 0.
Definition long5 : State := on_fill init_state "buy" 100 5 0.

(** *** Quoting *)

Section Quoting.
(** [numpy.std], the population standard deviation; it takes a square
    root and is kept abstract. *)
Variable np_std : list Q -> Q.
Variable cfg : Config.

Definition qtick : Q := inject_Z (Zpos (tick cfg)).

(** [numpy.diff] *)
Fixpoint np_diff (l : list Q) : list Q :=
  match l with
  | x :: (y :: _) as l' => (y - x) :: np_diff l'
  | _ => []
  end.

Definition _compute_spread_ticks (s : State) : Q :=
  if (length (mids s) <? 5)%nat then spread_ticks_min cfg
  else
    let rets := np_diff (mids s) in
    let vol := np_std rets / (qtick + eps) in
    let raw := spread_ticks_min cfg + vol_to_spread_k cfg * vol in
    Qmin (spread_ticks_max cfg) (Qmax (spread_ticks_min cfg) raw).

Definition _desired_quotes (s : State) (mid : Q) : Z * Z :=
  let skew_ticks := inventory_k cfg * inventory s in
  let eff_mid := mid - skew_ticks * qtick in
  let half_spread_ticks := (1 # 2) * _compute_spread_ticks s in
  let bid :=
    (Qfloor ((eff_mid - half_spread_ticks * qtick) / qtick)
     * Zpos (tick cfg))%Z in
  let ask :=
    (Qceiling ((eff_mid + half_spread_ticks * qtick) / qtick)
     * Zpos (tick cfg))%Z in
  (bid, ask).

(** [for oid in list(self.our_orders.keys()): cancel; del] *)
Definition cancel_all (s : State) (b : OrderBook) : State * OrderBook :=
  fold_left
    (fun (sb : State * OrderBook) (id : Z) =>
       (set_our_orders (fst sb) (Dict.del (our_orders (fst sb)) id),
        fst (cancel_order (snd sb) id)))
    (Dict.keys (our_orders s)) (s, b).

Definition _place_quotes (s : State) (b : OrderBook) (bid_price ask_price : Z)
  (t : Q) : State * OrderBook :=
  let '(s, b) := cancel_all s b in
  let '(s, b) :=
    if Qltb (inventory s) (inject_Z (position_limit cfg)) then
      let '(b', bid_oid) :=
        place_limit_order b "bid" bid_price (order_size cfg) t in
      (set_our_orders s
         (Dict.set (our_orders s) bid_oid
            ("bid"%string, bid_price, order_size cfg)), b')
    else (s, b) in
  if Qltb (- inject_Z (position_limit cfg)) (inventory s) then
    let '(b', ask_oid) :=
      place_limit_order b "ask" ask_price (order_size cfg) t in
    (set_our_orders s
       (Dict.set (our_orders s) ask_oid
          ("ask"%string, ask_price, order_size cfg)), b')
  else (s, b).

(** [deque(maxlen=n).append] *)
Definition deque_append (n : nat) (l : list Q) (x : Q) : list Q :=
  skipn (length (l ++ [x]) - n) (l ++ [x]).

Definition on_event (s : State) (b : OrderBook) (t : Q) : State * OrderBook :=
  match top_of_book b with
  | (Some best_bid, Some best_ask) =>
      let mid := (inject_Z best_bid + inject_Z best_ask) / 2 in
      let s := set_mids s (deque_append (vol_window cfg) (mids s) mid)
                 (Some mid) in
      let '(desired_bid, desired_ask) := _desired_quotes s mid in
      let bid_px := Z.min desired_bid best_bid in
      let ask_px := Z.max desired_ask best_ask in
      let '(s, b) := _place_quotes s b bid_px ask_px t in
      let equity := cash s + inventory s * mid in
      (push_curves s (t, equity) (t, inventory s), b)
  | _ => (s, b)
  end.
End Quoting.

(** *** Metrics *)

(** [numpy.maximum.accumulate]: the running maximum. *)
Fixpoint accumulate_from (m : Q) (l : list Q) : list Q :=
  match l with
  | [] => []
  | x :: l' => Qmax m x :: accumulate_from (Qmax m x) l'
  end.

Definition maximum_accumulate (l : list Q) : list Q :=
  match l with
  | [] => []
  | x :: l' => x :: accumulate_from x l'
  end.

(** Element-wise [a - b] of two arrays. *)
Fixpoint array_sub (a b : list Q) : list Q :=
  match a, b with
  | x :: a', y :: b' => (x - y) :: array_sub a' b'
  | _, _ => []
  end.

(** [a.min()] of an array, which its one caller takes of two elements or
    more. *)
Definition array_min (l : list Q) : Q :=
  match l with
  | [] => 0
  | x :: l' => fold_left Qmin l' x
  end.

Definition array_sum (l : list Q) : Q := fold_right Qplus 0 l.

(** [a.mean()] *)
Definition array_mean (l : list Q) : Q :=
  array_sum l / inject_Z (Z.of_nat (length l)).

(** The maximum drawdown of an equity array. *)
Definition max_drawdown_of (eq : list Q) : Q :=
  array_min (array_sub eq (maximum_accumulate eq)).

Record Metrics := mkMetrics
  { realized_pnl : Q;
    unrealized_pnl : Q;
    total_pnl : Q;
    m_cash : Q;
    m_inventory : Q;
    m_avg_price : Q;
    m_fills : nat;
    max_drawdown : Q;
    sharpe : option Q }.

Section Reporting.
(** [numpy.std] again, and the constant [252 ** 0.5]; a [sharpe] of [None]
    stands for not-a-number. *)
Variable np_std : list Q -> Q.
Variable sqrt252 : Q.

Definition _drawdown_and_sharpe (s : State) : Q * option Q :=
  if (length (equity_curve s) <? 2)%nat then (0, None)
  else
    let eq := map snd (equity_curve s) in
    let max_dd := max_drawdown_of eq in
    let pnl_inc := np_diff eq in
    if (1 <? length pnl_inc)%nat && Qltb eps (np_std pnl_inc) then
      (max_dd, Some (array_mean pnl_inc / np_std pnl_inc * sqrt252))
    else (max_dd, None).

Definition metrics (s : State) : Metrics :=
  let mid := match last_mid s with Some m => m | None => 0 end in
  let equity := cash s + inventory s * mid in
  let unrealized := equity - cash s - realized s in
  let '(max_dd, sh) := _drawdown_and_sharpe s in
  mkMetrics (realized s) unrealized (realized s + unrealized) (cash s)
    (inventory s) (avg_price s) (length (fills s)) max_dd sh.
End Reporting.

(** *** Notions used to state the properties *)

(** Two states that differ at most in the orders the strategy owns. *)
Definition same_but_orders (s s' : State) : Prop :=
  inventory s' = inventory s /\ cash s' = cash s
  /\ avg_price s' = avg_price s /\ realized s' = realized s
  /\ fills s' = fills s /\ mids s' = mids s
  /\ equity_curve s' = equity_curve s /\ inv_curve s' = inv_curve s
  /\ last_mid s' = last_mid s.


End MarketMaker.

(** ** The event replayer *)

Module Replayer.
Import LOB.

(** The capability the replayer asks of a strategy. *)
Class Strategy (S : Type) :=
  { on_event : S -> OrderBook -> Q -> S * OrderBook;
    on_fill : S -> string -> Z -> Z -> Q -> S }.

(** An event is a Python [dict]; a field that is absent is [None]. *)
Record Event := mkEvent
  { ev_type : option string;
    ev_ts : option Q;
    ev_bids : option (list (Z * Z));
    ev_asks : option (list (Z * Z));
    ev_price : option Z;
    ev_size : option Z }.

(** One row of [stats['fills']]. *)
Record FillRow := mkRow
  { row_ts : Q; row_side : string; row_price : Z; row_qty : Z }.

Inductive result (A : Type) :=
  | Ok (a : A)
  | KeyError (key : string).
Arguments Ok {A} a.
Arguments KeyError {A} key.

Definition lookup {A B : Type} (key : string) (field : option A)
  (k : A -> result B) : result B :=
  match field with Some a => k a | None => KeyError key end.

(** [ev.get('ts', i*0.001)] *)
Definition event_time (i : nat) (ev : Event) : Q :=
  match ev_ts ev with
  | Some t => t
  | None => (inject_Z (Z.of_nat i) * (1 # 1000))%Q
  end.

(** An event that has every field its type makes the loop read. *)
Definition well_formed (ev : Event) : bool :=
  match ev_type ev with
  | None => false
  | Some typ =>
      if (typ =? "snapshot")%string then
        match ev_bids ev, ev_asks ev with
        | Some _, Some _ => true
        | _, _ => false
        end
      else if (typ =? "trade")%string then
        match ev_price ev, ev_size ev with
        | Some _, Some _ => true
        | _, _ => false
        end
      else true
  end.

Section Run.
Context {S : Type} `{Strategy S}.

Record Replayer := mkReplayer
  { ob : OrderBook;
    strategy : S;
    stats_fills : list FillRow }.

(** [for f in fills: stats['fills'].append(...); strategy.on_fill(...)] *)
Definition notify (t : Q) (r : Replayer) (f : Fill) : Replayer :=
  let '(sd, p, qty) := f in
  mkReplayer (ob r) (on_fill (strategy r) sd p qty t)
    (stats_fills r ++ [mkRow t sd p qty]).

(** The branch on the event type, before the strategy acts. *)
Definition dispatch (r : Replayer) (ev : Event) (t : Q) (typ : string)
  : result Replayer :=
  if (typ =? "snapshot")%string then
    lookup "bids" (ev_bids ev) (fun bs =>
    lookup "asks" (ev_asks ev) (fun as_ =>
    Ok (mkReplayer (apply_snapshot (ob r) bs as_ t) (strategy r)
          (stats_fills r))))
  else if (typ =? "trade")%string then
    lookup "price" (ev_price ev) (fun p =>
    lookup "size" (ev_size ev) (fun sz =>
    let '(b', fills) := process_trade (ob r) p sz t in
    Ok (fold_left (notify t)
          fills (mkReplayer b' (strategy r) (stats_fills r)))))
  else Ok r.

(** The body of the loop for the [i]-th event. *)
Definition step (i : nat) (r : Replayer) (ev : Event) : result Replayer :=
  let t := event_time i ev in
  lookup "type" (ev_type ev) (fun typ =>
  match dispatch r ev t typ with
  | Ok r' =>
      let '(s', b') := on_event (strategy r') (ob r') t in
      Ok (mkReplayer b' s' (stats_fills r'))
  | KeyError k => KeyError k
  end).

(** [for i, ev in enumerate(events): if i >= max_events: break; ...].
    What [run] does after the loop, writing the fills log to a file on a
    best-effort basis and returning [strategy.metrics()], reads the final
    state and changes none of it; the model returns that final state. *)
Fixpoint run_from (i : nat) (max_events : Z) (events : list Event)
  (r : Replayer) : result Replayer :=
  match events with
  | [] => Ok r
  | ev :: events' =>
      if (max_events <=? Z.of_nat i)%Z then Ok r
      else match step i r ev with
           | Ok r' => run_from (Datatypes.S i) max_events events' r'
           | KeyError k => KeyError k
           end
  end.

Definition run (max_events : Z) (events : list Event) (r : Replayer)
  : result Replayer :=
  run_from 0 max_events events r.
End Run.
Arguments Replayer S : clear implicits.

(** *** Observing the calls a strategy receives *)

Inductive Call :=
  | CallFill (sd : string) (p qty : Z) (t : Q)
  | CallEvent (b : OrderBook) (t : Q).

(** A strategy wrapped so that every call it receives is recorded, in
    order, before it is forwarded. *)
#[export] Instance Spy {S : Type} `{Strategy S} : Strategy (S * list Call) :=
  { on_event := fun sl b t =>
      let '(s', b') := on_event (fst sl) b t in
      ((s', snd sl ++ [CallEvent b t]), b');
    on_fill := fun sl sd p qty t =>
      (on_fill (fst sl) sd p qty t, snd sl ++ [CallFill sd p qty t]) }.

Definition is_event_call (c : Call) : bool :=
  match c with CallEvent _ _ => true | CallFill _ _ _ _ => false end.

(** *** The market maker as a strategy *)

Section WithMarketMaker.
Variable np_std : list Q -> Q.
Variable cfg : MarketMaker.Config.

#[export] Instance MM : Strategy MarketMaker.State :=
  { on_event := MarketMaker.on_event np_std cfg;
    on_fill := fun s sd p qty t =>
      MarketMaker.on_fill s sd (inject_Z p) (inject_Z qty) t }.
End WithMarketMaker.

(** *** Notions used to state the properties *)

(** How many events the loop gets to, starting at index [i]. *)
Fixpoint processed_from (i : nat) (max_events : Z) (events : list Event)
  : nat :=
  match events with
  | [] => O
  | _ :: events' =>
      if (max_events <=? Z.of_nat i)%Z then O
      else Datatypes.S (processed_from (Datatypes.S i) max_events events')
  end.

(** A log made of [n] blocks, each a run of [on_fill] calls closed by
    exactly one [on_event] call. *)
Inductive event_blocks : nat -> list Call -> Prop :=
  | blocks_nil : event_blocks O []
  | blocks_cons n fs b t rest :
      Forall (fun c => is_event_call c = false) fs ->
      event_blocks n rest ->
      event_blocks (Datatypes.S n) (fs ++ CallEvent b t :: rest).

(** Both a best bid and a best ask exist. *)
Definition both_sides (b : OrderBook) : bool :=
  match top_of_book b with
  | (Some _, Some _) => true
  | _ => false
  end.

(** The [on_event] calls of a log that were handed a two-sided book. *)
Definition quoted (log : list Call) : nat :=
  length
    (filter (fun c =>
               match c with
               | CallEvent b _ => both_sides b
               | CallFill _ _ _ _ => false
               end) log).

(** *** Runs used as examples *)

Definition snapshot_event (bs as_ : list (Z * Z)) (t : Q) : Event :=
  mkEvent (Some "snapshot"%string) (Some t) (Some bs) (Some as_) None None.

Definition trade_event (p sz : Z) (t : Q) : Event :=
  mkEvent (Some "trade"%string) (Some t) None None (Some p) (Some sz).

Definition demo_events : list Event :=
  [snapshot_event [(99, 10)] [(101, 10)] 0; trade_event 101 5 1;
   trade_event 99 5 2].

(** A strategy that never gets a volatility estimate above zero. *)
Definition flat_std (rets : list Q) : Q := 0.

Definition fresh : Replayer (MarketMaker.State * list Call) :=
  mkReplayer empty_book (MarketMaker.init_state, []) [].

Definition spied_run (max_events : Z) (events : list Event)
  : result (Replayer (MarketMaker.State * list Call)) :=
  @run _ (@Spy _ (MM flat_std MarketMaker.default_config))
    max_events events fresh.

(** *** Reading the fills log *)

(** The rows of the fills log that the [on_fill] calls of a log stand
    for. *)
Fixpoint rows_of_calls (log : list Call) : list FillRow :=
  match log with
  | [] => []
  | CallFill sd p qty t :: log' => mkRow t sd p qty :: rows_of_calls log'
  | CallEvent _ _ :: log' => rows_of_calls log'
  end.

(** What a row of the fills log adds to the inventory, and to the cash, of
    a strategy that books it. *)
Definition row_inventory (row : FillRow) : Q :=
  if (row_side row =? "buy")%string then inject_Z (row_qty row)
  else if (row_side row =? "sell")%string then (- inject_Z (row_qty row))%Q
  else 0%Q.

Definition row_cash (row : FillRow) : Q :=
  if (row_side row =? "buy")%string
  then (- (inject_Z (row_price row) * inject_Z (row_qty row)))%Q
  else if (row_side row =? "sell")%string
  then (inject_Z (row_price row) * inject_Z (row_qty row))%Q
  else 0%Q.

Definition qsum (l : list Q) : Q := fold_right Qplus 0%Q l.

(** The entry of the market maker's [fills] list that a row stands for. *)
Definition fill_entry (row : FillRow) : string * Q * Q * Q :=
  (row_side row, inject_Z (row_price row), inject_Z (row_qty row),
   row_ts row).

(** The replayer of the demo before its first event. *)
Definition fresh_mm : Replayer MarketMaker.State :=
  mkReplayer empty_book MarketMaker.init_state [].


End Replayer.

(** * Properties *)

(** ** Dictionaries *)

Module DictFacts.
Import Dict.
Section Facts.
Context {V : Type}.
Implicit Types (d : dict V) (k : Z) (v : V).

Lemma get_set_same d k v : get (set d k v) k = Some v.
Proof.
  induction d as [|[k0 v0] d IH]; simpl.
  - now rewrite Z.eqb_refl.
  - destruct (k0 =? k) eqn:E; simpl.
    + now rewrite Z.eqb_refl.
    + now rewrite E.
Qed.

Lemma get_set_other d k k' v : k <> k' -> get (set d k v) k' = get d k'.
Proof.
  intros N. induction d as [|[k0 v0] d IH]; simpl.
  - destruct (k =? k') eqn:E; auto. apply Z.eqb_eq in E. contradiction.
  - destruct (k0 =? k) eqn:E; simpl.
    + apply Z.eqb_eq in E; subst k0.
      destruct (k =? k') eqn:E'; auto.
      apply Z.eqb_eq in E'; contradiction.
    + destruct (k0 =? k'); auto.
Qed.

Lemma get_del_other d k k' : k <> k' -> get (del d k) k' = get d k'.
Proof.
  intros N. induction d as [|[k0 v0] d IH]; simpl; auto.
  destruct (k0 =? k) eqn:E; simpl.
  - apply Z.eqb_eq in E; subst k0.
    destruct (k =? k') eqn:E'; auto.
    apply Z.eqb_eq in E'; contradiction.
  - destruct (k0 =? k'); auto.
Qed.

Lemma get_none d k : get d k = None <-> ~ In k (keys d).
Proof.
  induction d as [|[k0 v0] d IH]; simpl.
  - tauto.
  - destruct (k0 =? k) eqn:E.
    + apply Z.eqb_eq in E. split; [discriminate | intros H; exfalso; auto].
    + apply Z.eqb_neq in E. rewrite IH. tauto.
Qed.

Lemma get_some_in d k v : get d k = Some v -> In k (keys d).
Proof.
  intros H. destruct (in_dec Z.eq_dec k (keys d)) as [I|I]; auto.
  apply get_none in I. congruence.
Qed.

Lemma get_del_same d k : NoDup (keys d) -> get (del d k) k = None.
Proof.
  induction d as [|[k0 v0] d IH]; simpl; auto.
  intros ND. inversion ND as [|? ? NI ND']; subst.
  destruct (k0 =? k) eqn:E; simpl.
  - apply Z.eqb_eq in E; subst k0. now apply get_none.
  - rewrite E. auto.
Qed.

Lemma keys_set_in d k v : In k (keys d) -> keys (set d k v) = keys d.
Proof.
  induction d as [|[k0 v0] d IH]; simpl; [tauto|].
  intros I. destruct (k0 =? k) eqn:E; simpl.
  - apply Z.eqb_eq in E. now subst.
  - apply Z.eqb_neq in E. f_equal. apply IH. tauto.
Qed.

Lemma keys_set_notin d k v :
  ~ In k (keys d) -> keys (set d k v) = keys d ++ [k].
Proof.
  induction d as [|[k0 v0] d IH]; simpl; auto.
  intros NI. destruct (k0 =? k) eqn:E; simpl.
  - apply Z.eqb_eq in E. tauto.
  - f_equal. apply IH. tauto.
Qed.

Lemma keys_set d k v k' :
  In k' (keys (set d k v)) <-> k' = k \/ In k' (keys d).
Proof.
  destruct (in_dec Z.eq_dec k (keys d)) as [I|I].
  - rewrite keys_set_in by auto. split; [tauto|]. intros [->|]; auto.
  - rewrite keys_set_notin by auto. rewrite in_app_iff. simpl.
    split; intros H; intuition auto.
Qed.

Lemma NoDup_set d k v : NoDup (keys d) -> NoDup (keys (set d k v)).
Proof.
  intros ND. destruct (in_dec Z.eq_dec k (keys d)) as [I|I].
  - now rewrite keys_set_in.
  - rewrite keys_set_notin by auto.
    apply NoDup_app; auto.
    + constructor; [simpl; tauto | constructor].
    + intros x Hx [<-|[]]. contradiction.
Qed.

Lemma keys_del d k k' :
  NoDup (keys d) -> In k' (keys (del d k)) <-> k' <> k /\ In k' (keys d).
Proof.
  induction d as [|[k0 v0] d IH]; simpl; [tauto|].
  intros ND. inversion ND as [|? ? NI ND']; subst.
  destruct (k0 =? k) eqn:E; simpl.
  - apply Z.eqb_eq in E; subst k0. split.
    + intros I. split; auto. intros ->. contradiction.
    + intros [N [E|I]]; auto. congruence.
  - apply Z.eqb_neq in E. rewrite IH by auto. split.
    + intros [<-|[N I]]; auto.
    + intros [N [<-|I]]; auto.
Qed.

Lemma NoDup_del d k : NoDup (keys d) -> NoDup (keys (del d k)).
Proof.
  induction d as [|[k0 v0] d IH]; simpl; auto.
  intros ND. inversion ND as [|? ? NI ND']; subst.
  destruct (k0 =? k) eqn:E; simpl; auto.
  constructor; auto.
  intros I. apply keys_del in I; tauto.
Qed.

Lemma del_notin d k : ~ In k (keys d) -> del d k = d.
Proof.
  induction d as [|[k0 v0] d IH]; simpl; auto.
  intros NI. destruct (k0 =? k) eqn:E.
  - apply Z.eqb_eq in E. tauto.
  - f_equal. apply IH. tauto.
Qed.

Lemma get_in d k v : NoDup (keys d) -> In (k, v) d -> get d k = Some v.
Proof.
  induction d as [|[k0 v0] d IH]; simpl; [tauto|].
  intros ND [E|I]; inversion ND as [|? ? NI ND']; subst.
  - inversion E; subst. now rewrite Z.eqb_refl.
  - destruct (k0 =? k) eqn:E; auto.
    apply Z.eqb_eq in E; subst k0.
    exfalso. apply NI. now apply (in_map fst) in I.
Qed.

Lemma in_get d k v : get d k = Some v -> In (k, v) d.
Proof.
  induction d as [|[k0 v0] d IH]; simpl; [discriminate|].
  destruct (k0 =? k) eqn:E; auto.
  apply Z.eqb_eq in E. intros H; inversion H; subst. auto.
Qed.

End Facts.
End DictFacts.

(** ** The order book *)

Module LOBFacts.
Import LOB.

(** *** Level lists *)

Lemma list_remove_in x p l : In x (list_remove p l) -> In x l.
Proof.
  induction l as [|y l IH]; simpl; auto.
  destruct (y =? p); simpl; intuition auto.
Qed.

Lemma sorted_NoDup l : StronglySorted Z.lt l -> NoDup l.
Proof.
  induction 1 as [|y l SS IH F]; constructor; auto.
  intros I. rewrite Forall_forall in F. specialize (F _ I). lia.
Qed.

Lemma list_remove_iff x p l :
  NoDup l -> In x (list_remove p l) <-> x <> p /\ In x l.
Proof.
  induction l as [|y l IH]; simpl; [tauto|].
  intros ND. inversion ND as [|? ? NI ND']; subst.
  destruct (y =? p) eqn:E.
  - apply Z.eqb_eq in E; subst y. split.
    + intros I. split; auto. intros ->. contradiction.
    + intros [N [E|I]]; auto. congruence.
  - apply Z.eqb_neq in E. simpl. rewrite IH by auto. split.
    + intros [<-|[N I]]; auto.
    + intros [N [<-|I]]; auto.
Qed.

Lemma list_remove_sorted p l :
  StronglySorted Z.lt l -> StronglySorted Z.lt (list_remove p l).
Proof.
  induction 1 as [|y l SS IH F]; simpl; [constructor|].
  destruct (y =? p); auto.
  constructor; auto.
  rewrite Forall_forall in *. intros x I. apply F.
  eapply list_remove_in; eauto.
Qed.

Lemma list_remove_length p l :
  In p l -> S (length (list_remove p l)) = length l.
Proof.
  induction l as [|y l IH]; simpl; [tauto|].
  intros I. destruct (y =? p) eqn:E; auto.
  apply Z.eqb_neq in E. simpl. f_equal. apply IH.
  destruct I; [contradiction | auto].
Qed.

Lemma list_remove_notin p l : ~ In p l -> list_remove p l = l.
Proof.
  induction l as [|y l IH]; simpl; auto.
  intros NI. destruct (y =? p) eqn:E.
  - apply Z.eqb_eq in E. tauto.
  - f_equal. apply IH. tauto.
Qed.

Lemma existsb_eqb p l : existsb (Z.eqb p) l = true <-> In p l.
Proof.
  rewrite existsb_exists. split.
  - intros [x [I E]]. apply Z.eqb_eq in E. now subst.
  - intros I. exists p. split; auto. apply Z.eqb_refl.
Qed.

Lemma insort_in x p l : In x (insort l p) <-> x = p \/ In x l.
Proof.
  induction l as [|y l IH]; simpl.
  - intuition auto.
  - destruct (p <? y); simpl; [|rewrite IH]; intuition auto.
Qed.

Lemma insort_sorted p l :
  StronglySorted Z.lt l -> ~ In p l -> StronglySorted Z.lt (insort l p).
Proof.
  induction 1 as [|y l SS IH F]; simpl; intros NI.
  - repeat constructor.
  - destruct (p <? y) eqn:E.
    + apply Z.ltb_lt in E. constructor; [constructor; auto|].
      constructor; auto.
      rewrite Forall_forall in *. intros x I. specialize (F _ I). lia.
    + apply Z.ltb_ge in E. constructor.
      * apply IH. tauto.
      * rewrite Forall_forall in *. intros x I.
        apply insort_in in I. destruct I as [->|I]; auto.
        assert (y <> p) by tauto. lia.
Qed.

Lemma insert_price_in x p l : In x (_insert_price l p) <-> x = p \/ In x l.
Proof.
  unfold _insert_price. destruct (existsb (Z.eqb p) l) eqn:E.
  - apply existsb_eqb in E. split; auto. intros [->|]; auto.
  - destruct l as [|y l]; [simpl; intuition auto|]. apply insort_in.
Qed.

Lemma insert_price_sorted p l :
  StronglySorted Z.lt l -> StronglySorted Z.lt (_insert_price l p).
Proof.
  intros SS. unfold _insert_price. destruct (existsb (Z.eqb p) l) eqn:E; auto.
  assert (NI : ~ In p l).
  { intros I. apply existsb_eqb in I. congruence. }
  destruct l as [|y l]; [repeat constructor|]. now apply insort_sorted.
Qed.

(** *** Best prices *)

Lemma fold_min_sorted l x : Forall (Z.lt x) l -> fold_left Z.min l x = x.
Proof.
  revert x. induction l as [|y l IH]; simpl; auto.
  intros x F. inversion F as [|? ? L F']; subst.
  replace (Z.min x y) with x by lia. auto.
Qed.

Lemma last_cons (y : Z) l x : last (y :: l) x = last l y.
Proof.
  revert x y. induction l as [|z l IH]; intros x y; auto.
  change (last (y :: z :: l) x) with (last (z :: l) x).
  now rewrite (IH x z), (IH y z).
Qed.

Lemma fold_max_sorted l x :
  StronglySorted Z.lt (x :: l) -> fold_left Z.max l x = last l x.
Proof.
  revert x. induction l as [|y l IH]; intros x SS; auto.
  inversion SS as [|? ? SS' F]; subst.
  inversion F as [|? ? L F']; subst.
  cbn [fold_left]. replace (Z.max x y) with y by lia.
  rewrite IH by auto. symmetry. apply last_cons.
Qed.

Lemma sorted_app_inv l1 l2 :
  StronglySorted Z.lt (l1 ++ l2) ->
  StronglySorted Z.lt l1 /\ StronglySorted Z.lt l2
  /\ forall x y, In x l1 -> In y l2 -> x < y.
Proof.
  induction l1 as [|a l1 IH]; simpl; intros SS.
  - repeat split; auto; [constructor | tauto].
  - inversion SS as [|? ? SS' F]; subst.
    destruct (IH SS') as [S1 [S2 L]].
    rewrite Forall_forall in F. repeat split; auto.
    + constructor; auto. rewrite Forall_forall. intros x I.
      apply F. apply in_or_app; auto.
    + intros x y [<-|I] J; auto. apply F. apply in_or_app; auto.
Qed.

(** The best level of an ascending list is its first element for asks and
    its last element for bids. *)
Lemma best_split dir l p :
  StronglySorted Z.lt l -> best dir l = Some p ->
  match dir with
  | Asks => l = p :: list_remove p l
  | Bids => l = list_remove p l ++ [p]
  end.
Proof.
  intros SS B. destruct l as [|x l]; [destruct dir; discriminate|].
  destruct dir; simpl in B.
  - inversion SS as [|? ? SS' F]; subst.
    rewrite fold_min_sorted in B by auto. inversion B; subst.
    simpl. now rewrite Z.eqb_refl.
  - rewrite fold_max_sorted in B by auto. inversion B; subst. clear B.
    destruct (exists_last (l := x :: l)) as [l' [a E]]; [discriminate|].
    assert (La : last l x = a).
    { rewrite <- (last_cons x l x), E. apply last_last. }
    rewrite La. rewrite E in SS |- *.
    apply sorted_app_inv in SS. destruct SS as [S1 [S2 L]].
    assert (NI : ~ In a l').
    { intros I. specialize (L a a I (or_introl eq_refl)). lia. }
    clear - NI. induction l' as [|y l' IH]; simpl.
    + now rewrite Z.eqb_refl.
    + destruct (y =? a) eqn:E.
      * apply Z.eqb_eq in E. simpl in NI. tauto.
      * simpl. f_equal. apply IH. simpl in NI. tauto.
Qed.

Lemma best_in dir l p :
  StronglySorted Z.lt l -> best dir l = Some p -> In p l.
Proof.
  intros SS B. pose proof (best_split dir l p SS B) as E.
  destruct dir; rewrite E.
  - now left.
  - apply in_or_app. right. now left.
Qed.

(** A level that satisfies the direction condition makes the best level
    satisfy it too. *)
Lemma best_hit dir l p price x :
  StronglySorted Z.lt l -> best dir l = Some p ->
  In x l -> hit dir price x = true -> hit dir price p = true.
Proof.
  intros SS B I H. pose proof (best_split dir l p SS B) as E.
  destruct dir; rewrite E in SS, I; simpl in H |- *.
  - inversion SS as [|? ? SS' F]; subst. rewrite Forall_forall in F.
    apply Z.leb_le in H. apply Z.leb_le.
    destruct I as [<-|I]; [lia|]. specialize (F _ I). lia.
  - apply sorted_app_inv in SS. destruct SS as [_ [_ L]].
    apply Z.leb_le in H. apply Z.leb_le.
    apply in_app_or in I. destruct I as [I|[<-|[]]]; [|lia].
    specialize (L x p I (or_introl eq_refl)). lia.
Qed.

Lemma best_none dir l : best dir l = None -> l = [].
Proof. destruct dir, l; simpl; auto; discriminate. Qed.

(** *** Levels of a half-book *)

Lemma level_set_same d p q : level (Dict.set d p q) p = q.
Proof. unfold level. now rewrite DictFacts.get_set_same. Qed.

Lemma level_set_other d p p' q :
  p <> p' -> level (Dict.set d p q) p' = level d p'.
Proof. intros N. unfold level. now rewrite DictFacts.get_set_other. Qed.

Lemma level_del_same d p : NoDup (Dict.keys d) -> level (Dict.del d p) p = [].
Proof. intros ND. unfold level. now rewrite DictFacts.get_del_same. Qed.

Lemma level_del_other d p p' : p <> p' -> level (Dict.del d p) p' = level d p'.
Proof. intros N. unfold level. now rewrite DictFacts.get_del_other. Qed.

Lemma level_nonempty_key d p : level d p <> [] -> In p (Dict.keys d).
Proof.
  unfold level. destruct (Dict.get d p) eqn:G; [|congruence].
  intros _. eapply DictFacts.get_some_in; eauto.
Qed.

Lemma side_inv_empty : side_inv [] [].
Proof.
  split; [constructor|]. split; [constructor|]. split.
  - intros p. simpl. split; [tauto | intros H; now apply H].
  - intros p [].
Qed.

(** Storing a queue at a listed level and then applying remove-on-empty. *)
Lemma remove_if_empty_spec d prices p q prices' d' :
  side_inv d prices -> In p prices ->
  _remove_price_if_empty prices p (Dict.set d p q) = (prices', d') ->
  side_inv d' prices'
  /\ level d' p = q
  /\ (forall x, x <> p -> level d' x = level d x)
  /\ prices' = match q with [] => list_remove p prices | _ => prices end.
Proof.
  intros [ND [SS [PL KL]]] I R. unfold _remove_price_if_empty in R.
  rewrite level_set_same in R.
  assert (NDs : NoDup (Dict.keys (Dict.set d p q)))
    by now apply DictFacts.NoDup_set.
  destruct q as [|o q]; inversion R; subst; clear R.
  - assert (Lp : level (Dict.del (Dict.set d p []) p) p = [])
      by now apply level_del_same.
    assert (Lx : forall x, x <> p ->
              level (Dict.del (Dict.set d p []) p) x = level d x).
    { intros x N. rewrite level_del_other, level_set_other; auto. }
    repeat split; auto.
    + now apply DictFacts.NoDup_del.
    + now apply list_remove_sorted.
    + intros H. apply list_remove_iff in H; [|now apply sorted_NoDup].
      destruct H as [N H]. rewrite Lx by auto. now apply PL.
    + intros H. destruct (Z.eq_dec p0 p) as [->|N]; [congruence|].
      apply list_remove_iff; [now apply sorted_NoDup|].
      split; auto. apply PL. now rewrite <- Lx.
    + intros x H. apply DictFacts.keys_del in H; auto.
      destruct H as [N H]. rewrite Lx by auto.
      apply DictFacts.keys_set in H. destruct H as [->|H]; [congruence|].
      now apply KL.
  - assert (Lx : forall x, x <> p ->
              level (Dict.set d p (o :: q)) x = level d x).
    { intros x N. rewrite level_set_other; auto. }
    repeat split; auto.
    + intros H. destruct (Z.eq_dec p0 p) as [->|N].
      * rewrite level_set_same. discriminate.
      * rewrite Lx by auto. now apply PL.
    + intros H. destruct (Z.eq_dec p0 p) as [->|N]; auto.
      apply PL. now rewrite <- Lx.
    + intros x H. destruct (Z.eq_dec x p) as [->|N].
      * rewrite level_set_same. discriminate.
      * rewrite Lx by auto. apply DictFacts.keys_set in H.
        destruct H as [->|H]; [congruence|]. now apply KL.
    + apply level_set_same.
Qed.

(** *** First-in-first-out matching *)

Lemma fifo_fills_nonpos tg os sz : sz <= 0 -> fifo_fills tg os sz = [].
Proof.
  intros L. destruct os as [|[p o] os]; simpl; auto.
  destruct (0 <? sz) eqn:E; auto. apply Z.ltb_lt in E. lia.
Qed.

Lemma fifo_rest_nonpos os sz : sz <= 0 -> fifo_rest os sz = os.
Proof.
  intros L. destruct os as [|[p o] os]; simpl; auto.
  destruct (0 <? sz) eqn:E; auto. apply Z.ltb_lt in E. lia.
Qed.

Lemma fifo_left_nonpos os sz : sz <= 0 -> fifo_left os sz = sz.
Proof.
  intros L. destruct os as [|[p o] os]; simpl; auto.
  destruct (0 <? sz) eqn:E; auto. apply Z.ltb_lt in E. lia.
Qed.

Lemma fifo_fills_app tg os1 os2 sz :
  fifo_fills tg (os1 ++ os2) sz
  = fifo_fills tg os1 sz ++ fifo_fills tg os2 (fifo_left os1 sz).
Proof.
  revert sz. induction os1 as [|[p o] os1 IH]; intros sz; simpl; auto.
  destruct (0 <? sz) eqn:E.
  - destruct (size o <=? sz) eqn:L.
    + apply Z.leb_le in L. replace (Z.min (size o) sz) with (size o) by lia.
      simpl. now rewrite IH.
    + apply Z.leb_gt in L. replace (Z.min (size o) sz) with sz by lia.
      rewrite Z.sub_diag. simpl. f_equal.
      rewrite !fifo_fills_nonpos by lia. reflexivity.
  - apply Z.ltb_ge in E. simpl. now rewrite fifo_fills_nonpos.
Qed.

Lemma fifo_rest_app os1 os2 sz :
  fifo_rest (os1 ++ os2) sz
  = fifo_rest os1 sz ++ fifo_rest os2 (fifo_left os1 sz).
Proof.
  revert sz. induction os1 as [|[p o] os1 IH]; intros sz; simpl; auto.
  destruct (0 <? sz) eqn:E.
  - destruct (size o <=? sz) eqn:L; auto.
    simpl. now rewrite fifo_rest_nonpos by lia.
  - apply Z.ltb_ge in E. simpl. now rewrite fifo_rest_nonpos.
Qed.

Lemma fifo_left_app os1 os2 sz :
  fifo_left (os1 ++ os2) sz = fifo_left os2 (fifo_left os1 sz).
Proof.
  revert sz. induction os1 as [|[p o] os1 IH]; intros sz; simpl; auto.
  destruct (0 <? sz) eqn:E.
  - destruct (size o <=? sz) eqn:L; auto.
    now rewrite fifo_left_nonpos by lia.
  - apply Z.ltb_ge in E. now rewrite fifo_left_nonpos.
Qed.

(** Trade size is left over only once the whole list is consumed. *)
Lemma fifo_left_pos os sz : 0 < fifo_left os sz -> fifo_rest os sz = [].
Proof.
  revert sz. induction os as [|[p o] os IH]; intros sz; simpl; auto.
  destruct (0 <? sz) eqn:E.
  - destruct (size o <=? sz) eqn:L; auto. lia.
  - apply Z.ltb_ge in E. lia.
Qed.

Lemma map_snd_pair (p : Z) (q : queue) : map snd (map (pair p) q) = q.
Proof. rewrite map_map. simpl. apply map_id. Qed.

Lemma fifo_rest_level p q sz :
  map (pair p) (map snd (fifo_rest (map (pair p) q) sz))
  = fifo_rest (map (pair p) q) sz.
Proof.
  revert sz. induction q as [|o q IH]; intros sz; simpl; auto.
  destruct (0 <? sz).
  - destruct (size o <=? sz); auto.
    simpl. now rewrite map_snd_pair.
  - simpl. now rewrite map_snd_pair.
Qed.

(** *** The inner loop *)

Lemma drain_stop fuel tg p q sz fills :
  sz <= 0 -> drain fuel tg p q sz fills = (q, sz, fills).
Proof.
  intros L. destruct fuel; simpl; auto. destruct q; auto.
  destruct (0 <? sz) eqn:E; auto. apply Z.ltb_lt in E. lia.
Qed.

(** With the length of the queue as fuel the inner loop runs until its
    guard fails, and it is first-in-first-out matching at one level. *)
Lemma drain_spec fuel tg p q sz fills :
  (length q <= fuel)%nat ->
  drain fuel tg p q sz fills
  = (map snd (fifo_rest (map (pair p) q) sz),
     fifo_left (map (pair p) q) sz,
     fills ++ fifo_fills tg (map (pair p) q) sz).
Proof.
  revert q sz fills. induction fuel as [|n IH]; intros q sz fills L.
  - destruct q; [|simpl in L; lia]. simpl. now rewrite app_nil_r.
  - destruct q as [|o q]; simpl; [now rewrite app_nil_r|].
    destruct (0 <? sz) eqn:E.
    + destruct (size o <=? sz) eqn:Le.
      * apply Z.leb_le in Le.
        replace (Z.min (size o) sz) with (size o) by lia.
        rewrite Z.sub_diag. simpl.
        rewrite IH by (simpl in L; lia).
        now rewrite <- app_assoc.
      * apply Z.leb_gt in Le. apply Z.ltb_lt in E.
        replace (Z.min (size o) sz) with sz by lia.
        destruct (size o - sz =? 0) eqn:Z0; [apply Z.eqb_eq in Z0; lia|].
        rewrite Z.sub_diag, drain_stop by lia.
        rewrite fifo_fills_nonpos by lia. simpl.
        now rewrite map_snd_pair.
    + simpl. now rewrite map_snd_pair, app_nil_r.
Qed.

Lemma residual_nil q : fifo_residual q [].
Proof. induction q; constructor; auto. Qed.

Lemma fifo_rest_residual p q sz :
  fifo_residual q (map snd (fifo_rest (map (pair p) q) sz)).
Proof.
  revert sz. induction q as [|o q IH]; intros sz; simpl.
  - constructor.
  - destruct (0 <? sz) eqn:E.
    + destruct (size o <=? sz) eqn:L.
      * constructor. apply IH.
      * simpl. rewrite map_snd_pair. constructor.
        apply Z.ltb_lt in E. apply Z.leb_gt in L. lia.
    + simpl. rewrite map_snd_pair. constructor.
Qed.

(** *** The outer loop *)

Lemma sweep_stop fuel dir d prices price sz fills :
  sz <= 0 -> sweep fuel dir d prices price sz fills = (d, prices, sz, fills).
Proof.
  intros L. destruct fuel; simpl; auto.
  destruct (0 <? sz) eqn:E; auto. apply Z.ltb_lt in E. lia.
Qed.

Lemma priority_head dir l p (f : Z -> bool) :
  StronglySorted Z.lt l -> best dir l = Some p -> f p = true ->
  by_priority dir (filter f l)
  = p :: by_priority dir (filter f (list_remove p l)).
Proof.
  intros SS B F. pose proof (best_split dir l p SS B) as E.
  revert E. generalize (list_remove p l). intros t E.
  destruct dir; subst l; simpl.
  - now rewrite F.
  - rewrite filter_app. simpl. rewrite F. now rewrite rev_app_distr.
Qed.

Lemma by_priority_in dir l x : In x (by_priority dir l) <-> In x l.
Proof. destruct dir; simpl; [tauto|]. symmetry. apply in_rev. Qed.

Lemma resting_ext dir d1 d2 ps :
  (forall x, In x ps -> level d1 x = level d2 x) ->
  resting dir d1 ps = resting dir d2 ps.
Proof.
  intros H. unfold resting.
  assert (H' : forall x, In x (by_priority dir ps) -> level d1 x = level d2 x).
  { intros x I. apply H. apply by_priority_in in I. exact I. }
  clear H. induction (by_priority dir ps) as [|y l IH]; simpl; auto.
  rewrite H' by now left. f_equal. apply IH. intros x I. apply H'. now right.
Qed.

Lemma resting_nil dir d : resting dir d [] = [].
Proof. now destruct dir. Qed.

Lemma eligible_nil dir prices price :
  StronglySorted Z.lt prices -> crosses dir prices price = false ->
  eligible dir price prices = [].
Proof.
  intros SS C. unfold eligible.
  destruct (filter (hit dir price) prices) as [|x t] eqn:E; auto.
  assert (I : In x (filter (hit dir price) prices)) by (rewrite E; now left).
  apply filter_In in I. destruct I as [I H].
  unfold crosses in C. destruct (best dir prices) as [p|] eqn:B.
  - rewrite (best_hit dir prices p price x SS B I H) in C. discriminate.
  - apply best_none in B. subst. destruct I.
Qed.

Lemma filter_list_remove (g : Z -> bool) p l :
  g p = false -> filter g (list_remove p l) = filter g l.
Proof.
  intros G. induction l as [|y l IH]; simpl; auto.
  destruct (y =? p) eqn:E.
  - apply Z.eqb_eq in E; subst y. now rewrite G.
  - simpl. now rewrite IH.
Qed.

Lemma sweep_post_idle dir price d prices sz fills :
  side_inv d prices ->
  (0 <? sz) && crosses dir prices price = false ->
  sweep_post dir price d prices sz fills d prices sz fills.
Proof.
  intros INV G. unfold sweep_post.
  assert (T : fifo_fills (tag dir)
                (resting dir d (eligible dir price prices)) sz = []
              /\ fifo_left (resting dir d (eligible dir price prices)) sz = sz
              /\ fifo_rest (resting dir d (eligible dir price prices)) sz
                 = resting dir d (eligible dir price prices)).
  { apply andb_false_iff in G. destruct G as [G|G].
    - apply Z.ltb_ge in G.
      now rewrite fifo_fills_nonpos, fifo_left_nonpos, fifo_rest_nonpos.
    - rewrite eligible_nil, resting_nil; auto. apply INV. }
  destruct T as [T1 [T2 T3]]. rewrite T1, T2, T3, app_nil_r.
  repeat split; auto; try apply INV. constructor.
Qed.

Lemma sweep_spec fuel :
  forall dir d prices price sz fills d' prices' sz' fills',
    side_inv d prices -> (length prices <= fuel)%nat ->
    sweep fuel dir d prices price sz fills = (d', prices', sz', fills') ->
    sweep_post dir price d prices sz fills d' prices' sz' fills'.
Proof.
  induction fuel as [|n IH];
    intros dir d prices price sz fills d' prices' sz' fills' INV L SW.
  - simpl in SW. destruct prices; [|simpl in L; lia].
    inversion SW; subst. apply sweep_post_idle; auto.
    apply andb_false_iff. right. now destruct dir.
  - simpl in SW.
    destruct ((0 <? sz) && crosses dir prices price) eqn:G;
      [|inversion SW; subst; now apply sweep_post_idle].
    apply andb_true_iff in G. destruct G as [Gs Gc].
    unfold crosses in Gc.
    destruct (best dir prices) as [p|] eqn:B; [|discriminate].
    pose proof INV as [ND [SS [PL KL]]].
    assert (Ip : In p prices) by (eapply best_in; eauto).
    rewrite drain_spec in SW by lia.
    set (os_p := map (pair p) (level d p)) in *.
    set (q' := map snd (fifo_rest os_p sz)) in *.
    destruct (_remove_price_if_empty prices p (Dict.set d p q'))
      as [prices1 d1] eqn:R.
    destruct (remove_if_empty_spec _ _ _ _ _ _ INV Ip R)
      as [INV1 [Lp [Lx P1]]].
    set (os_r := resting dir d (eligible dir price (list_remove p prices))).
    assert (Eos : resting dir d (eligible dir price prices) = os_p ++ os_r).
    { unfold resting, eligible. now rewrite (priority_head dir prices p). }
    assert (NIp : ~ In p (list_remove p prices)).
    { intros I. apply list_remove_iff in I; [tauto | now apply sorted_NoDup]. }
    assert (Er : resting dir d1 (eligible dir price (list_remove p prices))
                 = os_r).
    { apply resting_ext. intros x I. apply Lx. intros ->.
      apply filter_In in I. tauto. }
    assert (Eos1 : resting dir d1 (eligible dir price prices1)
                   = fifo_rest os_p sz ++ os_r).
    { unfold os_p. rewrite <- fifo_rest_level. fold os_p. fold q'.
      rewrite P1. destruct q' as [|o q0] eqn:Q; [exact Er|].
      rewrite <- Er. unfold resting, eligible.
      rewrite (priority_head dir prices p) by auto. simpl. now rewrite Lp. }
    assert (Ef : filter (fun x => negb (hit dir price x)) prices1
                 = filter (fun x => negb (hit dir price x)) prices).
    { rewrite P1. destruct q'; auto. apply filter_list_remove.
      now rewrite Gc. }
    assert (Hx : forall x, hit dir price x = false -> level d1 x = level d x).
    { intros x Hf. apply Lx. intros ->. congruence. }
    unfold sweep_post. rewrite Eos.
    rewrite fifo_fills_app, fifo_left_app, fifo_rest_app.
    destruct (Z_lt_le_dec 0 (fifo_left os_p sz)) as [Pos|NPos].
    + pose proof (fifo_left_pos _ _ Pos) as Enil.
      assert (Q : q' = []) by (unfold q'; now rewrite Enil).
      rewrite Q in P1. simpl in P1.
      assert (L1 : (length prices1 <= n)%nat).
      { rewrite P1. pose proof (list_remove_length p prices Ip). lia. }
      destruct (IH _ _ _ _ _ _ _ _ _ _ INV1 L1 SW)
        as [F1 [F2 [F3 [F4 [F5 [F6 [F7 F8]]]]]]].
      rewrite Eos1, Enil in F1, F2, F3. simpl in F1, F2, F3.
      rewrite Enil. simpl.
      repeat split; auto; try apply F6.
      * now rewrite F1, <- app_assoc.
      * intros x Hf. rewrite F4 by auto. auto.
      * now rewrite F5.
      * intros x. destruct (Z.eq_dec x p) as [->|N].
        -- specialize (F7 p). rewrite Lp, Q in F7.
           inversion F7; subst. apply residual_nil.
        -- rewrite <- (Lx x N). apply F7.
    + rewrite sweep_stop in SW by auto. inversion SW; subst.
      rewrite (fifo_fills_nonpos _ os_r) by auto.
      rewrite (fifo_rest_nonpos os_r) by auto.
      rewrite (fifo_left_nonpos os_r) by auto.
      rewrite app_nil_r.
      repeat split; auto; try apply INV1.
      * intros x. destruct (Z.eq_dec x p) as [->|N].
        -- rewrite Lp. apply fifo_rest_residual.
        -- rewrite (Lx x N). constructor.
      * destruct (0 <? fifo_left os_p sz) eqn:E; auto.
        apply Z.ltb_lt in E. lia.
Qed.

(** *** The invariant is kept by every operation *)

(** Storing a non-empty queue at a price and listing the price. *)
Lemma store_side_inv d prices p q :
  side_inv d prices -> q <> [] ->
  side_inv (Dict.set d p q) (_insert_price prices p).
Proof.
  intros [ND [SS [PL KL]]] NE.
  assert (Lx : forall x, x <> p -> level (Dict.set d p q) x = level d x).
  { intros x N. rewrite level_set_other; auto. }
  split; [now apply DictFacts.NoDup_set|].
  split; [now apply insert_price_sorted|]. split.
  - intros x. rewrite insert_price_in. destruct (Z.eq_dec x p) as [->|N].
    + rewrite level_set_same. tauto.
    + rewrite Lx by auto. rewrite <- PL. tauto.
  - intros x I. destruct (Z.eq_dec x p) as [->|N].
    + now rewrite level_set_same.
    + rewrite Lx by auto. apply KL.
      apply DictFacts.keys_set in I. tauto.
Qed.

Lemma install_side_inv sd t lvs st :
  side_inv (fst st) (snd st) ->
  side_inv (fst (fold_left (install sd t) lvs st))
           (snd (fold_left (install sd t) lvs st)).
Proof.
  revert st. induction lvs as [|[p s] lvs IH]; intros st INV; simpl; auto.
  apply IH. destruct (s <=? 0); auto.
  simpl. apply store_side_inv; auto. discriminate.
Qed.

Lemma apply_snapshot_inv b bs as_ t : lob_inv (apply_snapshot b bs as_ t).
Proof.
  split; simpl; apply install_side_inv; apply side_inv_empty.
Qed.

Lemma place_limit_order_inv b sd p s t :
  lob_inv b -> lob_inv (fst (place_limit_order b sd p s t)).
Proof.
  intros [IB IA]. unfold place_limit_order.
  destruct (sd =? "bid")%string; split; simpl; auto;
    apply store_side_inv; auto; intros E; apply app_eq_nil in E;
    destruct E; discriminate.
Qed.

Lemma find_oid_some id d p q :
  find_oid id d = Some (p, q) ->
  In (p, q) d /\ existsb (fun o => oid o =? id) q = true.
Proof.
  induction d as [|[p0 q0] d IH]; simpl; [discriminate|].
  destruct (existsb (fun o => oid o =? id) q0) eqn:E.
  - intros H; inversion H; subst. auto.
  - intros H. destruct (IH H). auto.
Qed.

Lemma find_oid_none id d : find_oid id d = None -> has_oid id d = false.
Proof.
  unfold has_oid. induction d as [|[p0 q0] d IH]; simpl; auto.
  destruct (existsb (fun o => oid o =? id) q0) eqn:E; [discriminate|].
  intros H. rewrite existsb_app, E. simpl. auto.
Qed.

Lemma level_in d p q : NoDup (Dict.keys d) -> In (p, q) d -> level d p = q.
Proof. intros ND I. unfold level. now rewrite (DictFacts.get_in d p q). Qed.

Lemma cancel_side_inv id prices d prices' d' :
  side_inv d prices -> cancel_side id prices d = Some (prices', d') ->
  side_inv d' prices'.
Proof.
  intros INV C. unfold cancel_side in C.
  destruct (find_oid id d) as [[p q]|] eqn:F; [|discriminate].
  inversion C as [R]; clear C.
  apply find_oid_some in F. destruct F as [I E].
  pose proof INV as [ND [SS [PL KL]]].
  assert (Ip : In p prices).
  { apply PL. rewrite (level_in d p q) by auto.
    intros ->. discriminate. }
  now destruct (remove_if_empty_spec _ _ _ _ _ _ INV Ip R).
Qed.

Lemma cancel_order_inv b id : lob_inv b -> lob_inv (fst (cancel_order b id)).
Proof.
  intros [IB IA]. unfold cancel_order.
  destruct (cancel_side id (bid_prices b) (bids b)) as [[ps d]|] eqn:C1.
  - split; simpl; auto. exact (cancel_side_inv _ _ _ _ _ IB C1).
  - destruct (cancel_side id (ask_prices b) (asks b)) as [[ps d]|] eqn:C2.
    + split; simpl; auto. exact (cancel_side_inv _ _ _ _ _ IA C2).
    + split; auto.
Qed.

(** The trade, seen through the loop it runs. *)
Lemma process_trade_unfold b price sz t :
  process_trade b price sz t =
  if crosses Asks (ask_prices b) price then
    let r := sweep (length (ask_prices b)) Asks (asks b) (ask_prices b)
               price sz [] in
    (mkBook (bids b) (fst (fst (fst r))) (bid_prices b) (snd (fst (fst r)))
       (next_oid b) t, snd r)
  else if crosses Bids (bid_prices b) price then
    let r := sweep (length (bid_prices b)) Bids (bids b) (bid_prices b)
               price sz [] in
    (mkBook (fst (fst (fst r))) (asks b) (snd (fst (fst r))) (ask_prices b)
       (next_oid b) t, snd r)
  else
    (mkBook (bids b) (asks b) (bid_prices b) (ask_prices b) (next_oid b) t, []).
Proof.
  unfold process_trade.
  destruct (crosses Asks (ask_prices b) price).
  - now destruct (sweep _ Asks _ _ _ _ _) as [[[d' ps'] sz'] fs].
  - destruct (crosses Bids (bid_prices b) price); auto.
    now destruct (sweep _ Bids _ _ _ _ _) as [[[d' ps'] sz'] fs].
Qed.

Lemma sweep_post_run dir d prices price sz :
  side_inv d prices ->
  let r := sweep (length prices) dir d prices price sz [] in
  sweep_post dir price d prices sz []
    (fst (fst (fst r))) (snd (fst (fst r))) (snd (fst r)) (snd r).
Proof.
  intros INV r.
  destruct r as [[[d' ps'] sz'] fs] eqn:E. simpl.
  eapply sweep_spec; eauto.
Qed.

Lemma process_trade_inv b price sz t :
  lob_inv b -> lob_inv (fst (process_trade b price sz t)).
Proof.
  intros [IB IA]. rewrite process_trade_unfold.
  destruct (crosses Asks (ask_prices b) price).
  - split; simpl; auto. apply (sweep_post_run Asks _ _ price sz IA).
  - destruct (crosses Bids (bid_prices b) price).
    + split; simpl; auto. apply (sweep_post_run Bids _ _ price sz IB).
    + split; auto.
Qed.

Lemma apply_op_inv b op : lob_inv b -> lob_inv (apply_op b op).
Proof.
  intros INV. destruct op; simpl.
  - apply apply_snapshot_inv.
  - now apply place_limit_order_inv.
  - now apply cancel_order_inv.
  - now apply process_trade_inv.
Qed.

Lemma run_ops_inv ops b : lob_inv b -> lob_inv (run_ops ops b).
Proof.
  revert b. induction ops as [|op ops IH]; intros b INV; simpl; auto.
  apply IH. now apply apply_op_inv.
Qed.

Lemma empty_book_inv : lob_inv empty_book.
Proof. split; apply side_inv_empty. Qed.

Lemma side_inv_remove_on_empty d prices :
  side_inv d prices -> active_nonempty d prices /\ queued_active d prices.
Proof.
  intros [ND [SS [PL KL]]]. split.
  - intros p I. now apply PL.
  - intros p I. apply PL. now apply KL.
Qed.

(** C5.  Remove-on-empty: after each operation of any sequence of
    snapshots, placements, cancellations and trades run from the empty
    book, every listed bid or ask price has a non-empty queue and every
    price that has a queue in a half-book is listed on its side. *)
Theorem remove_on_empty_always (ops : list Op) (n : nat) :
  let b := run_ops (firstn n ops) empty_book in
  active_nonempty (bids b) (bid_prices b)
  /\ queued_active (bids b) (bid_prices b)
  /\ active_nonempty (asks b) (ask_prices b)
  /\ queued_active (asks b) (ask_prices b).
Proof.
  intros b.
  destruct (run_ops_inv (firstn n ops) empty_book empty_book_inv) as [IB IA].
  apply side_inv_remove_on_empty in IB, IA. fold b in IB, IA. tauto.
Qed.

(** *** Sizes *)

Lemma zsum_app l1 l2 : zsum (l1 ++ l2) = zsum l1 + zsum l2.
Proof. induction l1; simpl; lia. Qed.

Lemma zsum_rev l : zsum (rev l) = zsum l.
Proof. induction l; simpl; auto. rewrite zsum_app. simpl. lia. Qed.

Lemma osize_app os1 os2 : osize (os1 ++ os2) = osize os1 + osize os2.
Proof. unfold osize. now rewrite map_app, zsum_app. Qed.

Lemma osize_level p q : osize (map (pair p) q) = queue_size q.
Proof. unfold osize, queue_size. now rewrite map_map. Qed.

Lemma osize_nonneg os :
  (forall po, In po os -> 0 <= size (snd po)) -> 0 <= osize os.
Proof.
  induction os as [|po os IH]; intros H; unfold osize; simpl; [lia|].
  assert (0 <= size (snd po)) by (apply H; now left).
  assert (0 <= osize os) by (apply IH; intros; apply H; now right).
  unfold osize in *. lia.
Qed.

Lemma resting_size dir d ps : osize (resting dir d ps) = liquidity d ps.
Proof.
  unfold resting, liquidity.
  assert (E : forall l, osize (flat_map (fun p => map (pair p) (level d p)) l)
                        = zsum (map (fun p => queue_size (level d p)) l)).
  { induction l as [|p l IH]; simpl; auto.
    now rewrite osize_app, osize_level, IH. }
  rewrite E. destruct dir; simpl; auto.
  now rewrite map_rev, zsum_rev.
Qed.

Lemma resting_in dir d ps po :
  In po (resting dir d ps) ->
  In (fst po) ps /\ In (snd po) (level d (fst po)).
Proof.
  unfold resting. rewrite in_flat_map. intros [p [I J]].
  apply by_priority_in in I. apply in_map_iff in J.
  destruct J as [o [<- J]]. auto.
Qed.

Lemma liquidity_split (f : Z -> bool) d ps :
  liquidity d ps
  = liquidity d (filter f ps) + liquidity d (filter (fun x => negb (f x)) ps).
Proof.
  unfold liquidity. induction ps as [|p ps IH]; simpl; auto.
  destruct (f p); simpl; lia.
Qed.

Lemma liquidity_ext d1 d2 ps :
  (forall x, In x ps -> level d1 x = level d2 x) ->
  liquidity d1 ps = liquidity d2 ps.
Proof.
  intros H. unfold liquidity. induction ps as [|p ps IH]; simpl; auto.
  rewrite (H p) by now left. f_equal. apply IH. intros x I. apply H. now right.
Qed.

Lemma fifo_totals tg os sz :
  (forall po, In po os -> 0 <= size (snd po)) -> 0 <= sz ->
  fills_qty (fifo_fills tg os sz) = Z.min sz (osize os)
  /\ osize (fifo_rest os sz) = osize os - Z.min sz (osize os).
Proof.
  revert sz. induction os as [|[p o] os IH]; intros sz NN L.
  - unfold fills_qty, osize. simpl. lia.
  - assert (No : 0 <= size o) by (apply (NN (p, o)); now left).
    assert (NN' : forall po, In po os -> 0 <= size (snd po))
      by (intros; apply NN; now right).
    pose proof (osize_nonneg os NN') as Nos.
    change (osize ((p, o) :: os)) with (size o + osize os).
    simpl. destruct (0 <? sz) eqn:E.
    + destruct (size o <=? sz) eqn:Le.
      * apply Z.leb_le in Le.
        destruct (IH (sz - size o) NN') as [I1 I2]; [lia|].
        replace (Z.min (size o) sz) with (size o) by lia.
        change (fills_qty ((tg, p, size o) :: fifo_fills tg os (sz - size o)))
          with (size o + fills_qty (fifo_fills tg os (sz - size o))).
        rewrite I1, I2. lia.
      * apply Z.leb_gt in Le.
        replace (Z.min (size o) sz) with sz by lia.
        rewrite Z.sub_diag, fifo_fills_nonpos by lia.
        change (osize ((p, set_size o (size o - sz)) :: os))
          with (size o - sz + osize os).
        unfold fills_qty. simpl. lia.
    + apply Z.ltb_ge in E.
      change (osize ((p, o) :: os)) with (size o + osize os).
      unfold fills_qty. simpl. lia.
Qed.

Lemma crosses_existsb dir prices price :
  StronglySorted Z.lt prices ->
  crosses dir prices price = existsb (hit dir price) prices.
Proof.
  intros SS. destruct (crosses dir prices price) eqn:C; symmetry.
  - unfold crosses in C. destruct (best dir prices) as [p|] eqn:B;
      [|discriminate].
    apply existsb_exists. exists p. split; auto. eapply best_in; eauto.
  - apply eligible_nil in C; auto.
    destruct (existsb (hit dir price) prices) eqn:E; auto.
    apply existsb_exists in E. destruct E as [x [I H]].
    assert (J : In x (eligible dir price prices)) by (apply filter_In; auto).
    rewrite C in J. destruct J.
Qed.

Lemma zsum_perm l1 l2 : Permutation l1 l2 -> zsum l1 = zsum l2.
Proof. induction 1; simpl; lia. Qed.

Lemma side_inv_keys d prices :
  side_inv d prices -> Permutation prices (Dict.keys d).
Proof.
  intros [ND [SS [PL KL]]]. apply NoDup_Permutation; auto.
  - now apply sorted_NoDup.
  - intros x. split.
    + intros I. apply level_nonempty_key. now apply PL.
    + intros I. apply PL. now apply KL.
Qed.

(** Under the invariant the liquidity of the listed levels is the total
    size of all the orders that rest in the half-book. *)
Lemma liquidity_all_orders d prices :
  side_inv d prices -> liquidity d prices = queue_size (all_orders d).
Proof.
  intros INV. pose proof (side_inv_keys d prices INV) as P.
  destruct INV as [ND _]. unfold liquidity.
  rewrite (zsum_perm _ _
             (Permutation_map (fun p => queue_size (level d p)) P)).
  unfold Dict.keys. rewrite map_map.
  rewrite (map_ext_in _ (fun kv => queue_size (snd kv))).
  - unfold all_orders, queue_size. clear.
    induction d as [|[k q] d IH]; simpl; auto.
    now rewrite map_app, zsum_app, IH.
  - intros [k q] I. simpl. now rewrite (level_in d k q).
Qed.

Lemma sweep_post_totals dir price d prices sz d' prices' sz' fills' :
  sizes_nonneg d -> 0 <= sz ->
  sweep_post dir price d prices sz [] d' prices' sz' fills' ->
  let A := liquidity d (eligible dir price prices) in
  fills_qty fills' = Z.min sz A
  /\ liquidity d' prices' = liquidity d prices - Z.min sz A
  /\ liquidity d' (eligible dir price prices') = A - Z.min sz A.
Proof.
  intros NN L [F1 [F2 [F3 [F4 [F5 [F6 [F7 F8]]]]]]] A.
  set (os := resting dir d (eligible dir price prices)) in *.
  assert (NNos : forall po, In po os -> 0 <= size (snd po)).
  { intros po I. apply resting_in in I. destruct I as [_ I].
    eapply NN; eauto. }
  destruct (fifo_totals (tag dir) os sz NNos L) as [T1 T2].
  assert (EA : osize os = A) by apply resting_size.
  rewrite EA in T1, T2.
  assert (E' : liquidity d' (eligible dir price prices') = A - Z.min sz A).
  { rewrite <- resting_size with (dir := dir). now rewrite F3. }
  simpl in F1. subst fills'. split; auto. split; auto.
  rewrite (liquidity_split (hit dir price) d' prices').
  rewrite (liquidity_split (hit dir price) d prices).
  fold (eligible dir price prices') (eligible dir price prices).
  rewrite E', F5. fold A.
  rewrite (liquidity_ext d' d
             (filter (fun x => negb (hit dir price x)) prices)); [lia|].
  intros x I. apply filter_In in I. destruct I as [_ I].
  apply F4. now destruct (hit dir price x).
Qed.

(** C1, as the code has it.  On a book that satisfies the invariant and
    whose resting sizes are not negative, a trade of size [sz >= 0] at
    [price] takes, from the side it sweeps, exactly [min sz A] where [A] is
    the aggregate remaining size of that side's levels that satisfy the
    direction condition: the fills sum to it, the side's liquidity (over
    its listed levels, and over all its resting orders) and its eligible
    liquidity go down by it, the other side is untouched, and whatever
    exceeds [A] is dropped.  When no side is swept there are no
    fills and both sides stay as they are. *)
Theorem sweep_consumes_min b price sz t :
  lob_inv b -> sizes_nonneg (bids b) -> sizes_nonneg (asks b) -> 0 <= sz ->
  let b' := fst (process_trade b price sz t) in
  let fills := snd (process_trade b price sz t) in
  match swept_side b price with
  | Some dir =>
      let A := liquidity (half dir b) (eligible dir price (levels dir b)) in
      fills_qty fills = Z.min sz A
      /\ liquidity (half dir b') (levels dir b')
         = liquidity (half dir b) (levels dir b) - Z.min sz A
      /\ liquidity (half dir b') (eligible dir price (levels dir b'))
         = A - Z.min sz A
      /\ queue_size (all_orders (half dir b'))
         = queue_size (all_orders (half dir b)) - Z.min sz A
      /\ half (other dir) b' = half (other dir) b
      /\ levels (other dir) b' = levels (other dir) b
  | None =>
      fills = []
      /\ bids b' = bids b /\ bid_prices b' = bid_prices b
      /\ asks b' = asks b /\ ask_prices b' = ask_prices b
  end.
Proof.
  intros [IB IA] NB NA L. cbv zeta.
  rewrite process_trade_unfold. unfold swept_side.
  rewrite <- !crosses_existsb by (apply IA || apply IB).
  destruct (crosses Asks (ask_prices b) price).
  - pose proof (sweep_post_run Asks _ _ price sz IA) as SP.
    destruct (sweep_post_totals Asks price _ _ sz _ _ _ _ NA L SP)
      as [T1 [T2 T3]].
    assert (IA' : side_inv _ _) by apply SP.
    simpl. rewrite <- !liquidity_all_orders with (1 := IA').
    rewrite <- !liquidity_all_orders with (1 := IA). auto 6.
  - destruct (crosses Bids (bid_prices b) price).
    + pose proof (sweep_post_run Bids _ _ price sz IB) as SP.
      destruct (sweep_post_totals Bids price _ _ sz _ _ _ _ NB L SP)
        as [T1 [T2 T3]].
      assert (IB' : side_inv _ _) by apply SP.
      simpl. rewrite <- !liquidity_all_orders with (1 := IB').
      rewrite <- !liquidity_all_orders with (1 := IB). auto 6.
    + simpl. auto.
Qed.

(** *** Direction of a trade *)

Lemma fold_min_spec l x :
  In (fold_left Z.min l x) (x :: l)
  /\ forall y, In y (x :: l) -> fold_left Z.min l x <= y.
Proof.
  revert x. induction l as [|z l IH]; intros x; simpl.
  - split; auto. intros y [<-|[]]. lia.
  - destruct (IH (Z.min x z)) as [I M]. split.
    + destruct I as [E|I]; auto. rewrite <- E.
      destruct (Z.min_spec x z) as [[_ E']|[_ E']]; rewrite E'; auto.
    + intros y [<-|[<-|J]].
      * specialize (M (Z.min x z) (or_introl eq_refl)). lia.
      * specialize (M (Z.min x z) (or_introl eq_refl)). lia.
      * apply M. now right.
Qed.

Lemma fold_max_spec l x :
  In (fold_left Z.max l x) (x :: l)
  /\ forall y, In y (x :: l) -> y <= fold_left Z.max l x.
Proof.
  revert x. induction l as [|z l IH]; intros x; simpl.
  - split; auto. intros y [<-|[]]. lia.
  - destruct (IH (Z.max x z)) as [I M]. split.
    + destruct I as [E|I]; auto. rewrite <- E.
      destruct (Z.max_spec x z) as [[_ E']|[_ E']]; rewrite E'; auto.
    + intros y [<-|[<-|J]].
      * specialize (M (Z.max x z) (or_introl eq_refl)). lia.
      * specialize (M (Z.max x z) (or_introl eq_refl)). lia.
      * apply M. now right.
Qed.

Lemma py_min_spec l m :
  py_min l = Some m <-> In m l /\ forall y, In y l -> m <= y.
Proof.
  destruct l as [|x l]; simpl.
  - split; [discriminate | tauto].
  - destruct (fold_min_spec l x) as [I M]. split.
    + intros E; inversion E; subst. auto.
    + intros [I' M']. f_equal.
      specialize (M m I'). specialize (M' _ I). lia.
Qed.

Lemma py_max_spec l m :
  py_max l = Some m <-> In m l /\ forall y, In y l -> y <= m.
Proof.
  destruct l as [|x l]; simpl.
  - split; [discriminate | tauto].
  - destruct (fold_max_spec l x) as [I M]. split.
    + intros E; inversion E; subst. auto.
    + intros [I' M']. f_equal.
      specialize (M m I'). specialize (M' _ I). lia.
Qed.

Lemma best_member dir l p : best dir l = Some p -> In p l.
Proof.
  destruct dir; simpl; intros B.
  - now apply py_min_spec in B.
  - now apply py_max_spec in B.
Qed.

Lemma fifo_fills_level tg p q sz :
  Forall (fun f => fill_tag f = tg /\ fill_price f = p)
    (fifo_fills tg (map (pair p) q) sz).
Proof.
  revert sz. induction q as [|o q IH]; intros sz; simpl; [constructor|].
  destruct (0 <? sz); constructor; auto.
Qed.

(** Every fill a sweep adds carries the tag of the swept side and the price
    of a listed level that satisfies the direction condition. *)
Lemma sweep_fills fuel :
  forall dir d prices price sz fills d' prices' sz' fills',
    sweep fuel dir d prices price sz fills = (d', prices', sz', fills') ->
    exists new,
      fills' = fills ++ new
      /\ Forall (fun f => fill_tag f = tag dir
                          /\ In (fill_price f) prices
                          /\ hit dir price (fill_price f) = true) new.
Proof.
  induction fuel as [|n IH];
    intros dir d prices price sz fills d' prices' sz' fills' SW; simpl in SW.
  - inversion SW; subst. exists []. now rewrite app_nil_r.
  - destruct ((0 <? sz) && crosses dir prices price) eqn:G.
    2:{ inversion SW; subst. exists []. now rewrite app_nil_r. }
    apply andb_true_iff in G. destruct G as [_ Gc]. unfold crosses in Gc.
    destruct (best dir prices) as [p|] eqn:B; [|discriminate].
    rewrite drain_spec in SW by lia.
    destruct (_remove_price_if_empty prices p _) as [prices1 d1] eqn:R.
    apply IH in SW. destruct SW as [new [E F]].
    exists (fifo_fills (tag dir) (map (pair p) (level d p)) sz ++ new).
    split; [now rewrite E, app_assoc|].
    apply Forall_app. split.
    + eapply Forall_impl; [|apply fifo_fills_level].
      intros f [T P]. rewrite P. repeat split; auto.
      eapply best_member; eauto.
    + eapply Forall_impl; [|exact F].
      intros f [T [I H]]. repeat split; auto.
      unfold _remove_price_if_empty in R.
      destruct (level _ p); inversion R; subst; auto.
      eapply list_remove_in; eauto.
Qed.

Lemma sweep_fills_run dir d prices price sz :
  Forall (fun f => fill_tag f = tag dir
                   /\ In (fill_price f) prices
                   /\ hit dir price (fill_price f) = true)
    (snd (sweep (length prices) dir d prices price sz [])).
Proof.
  destruct (sweep _ dir d prices price sz []) as [[[d' ps'] sz'] fs] eqn:E.
  apply sweep_fills in E. destruct E as [new [-> F]]. exact F.
Qed.

(** The tags and prices of the fills by the branch taken, on any book. *)
Lemma trade_direction_tags b price sz t :
  let b' := fst (process_trade b price sz t) in
  let fills := snd (process_trade b price sz t) in
  (forall a, snd (top_of_book b) = Some a -> a <= price ->
     Forall (fun f => fill_tag f = "sell"%string
                      /\ In (fill_price f) (ask_prices b)
                      /\ fill_price f <= price) fills
     /\ bids b' = bids b /\ bid_prices b' = bid_prices b)
  /\ (forall m, fst (top_of_book b) = Some m -> price <= m ->
      (forall a, snd (top_of_book b) = Some a -> price < a) ->
      Forall (fun f => fill_tag f = "buy"%string
                       /\ In (fill_price f) (bid_prices b)
                       /\ price <= fill_price f) fills
      /\ asks b' = asks b /\ ask_prices b' = ask_prices b)
  /\ (forall m a, top_of_book b = (Some m, Some a) -> m < price < a ->
      fills = []
      /\ b' = mkBook (bids b) (asks b) (bid_prices b) (ask_prices b)
                (next_oid b) t).
Proof.
  cbv zeta. rewrite process_trade_unfold.
  unfold top_of_book, crosses. simpl fst. simpl snd. simpl best.
  split; [|split].
  - intros a A L. rewrite A. apply Z.leb_le in L. simpl. rewrite L.
    simpl. split; auto.
    eapply Forall_impl; [|apply (sweep_fills_run Asks)].
    intros f [T [I Hh]]. simpl in Hh. apply Z.leb_le in Hh. auto.
  - intros m M L NA.
    assert (CA : match py_min (ask_prices b) with
                 | Some a => a <=? price
                 | None => false
                 end = false).
    { destruct (py_min (ask_prices b)) as [a|]; auto.
      apply Z.leb_gt. now apply NA. }
    rewrite CA, M. apply Z.leb_le in L. simpl. rewrite L.
    simpl. split; auto.
    eapply Forall_impl; [|apply (sweep_fills_run Bids)].
    intros f [T [I Hh]]. simpl in Hh. apply Z.leb_le in Hh. auto.
  - intros m a T [L1 L2]. inversion T as [[M A]]. rewrite M, A. simpl.
    apply Z.leb_gt in L1, L2. now rewrite L1, L2.
Qed.

(** *** Price-time priority *)

Lemma sorted_weaken (R R' : Z -> Z -> Prop) l :
  (forall x y, R x y -> R' x y) -> StronglySorted R l -> StronglySorted R' l.
Proof.
  intros W. induction 1 as [|a l SS IH F]; constructor; auto.
  eapply Forall_impl; [|exact F]. intros y. apply W.
Qed.

Lemma sorted_app (R : Z -> Z -> Prop) l1 l2 :
  StronglySorted R l1 -> StronglySorted R l2 ->
  (forall x y, In x l1 -> In y l2 -> R x y) ->
  StronglySorted R (l1 ++ l2).
Proof.
  induction 1 as [|a l1 SS IH F]; intros S2 C; simpl; auto.
  constructor.
  - apply IH; auto. intros x y I J. apply C; auto. now right.
  - apply Forall_app. split; auto.
    apply Forall_forall. intros y J. apply C; auto. now left.
Qed.

Lemma sorted_filter (R : Z -> Z -> Prop) (f : Z -> bool) l :
  StronglySorted R l -> StronglySorted R (filter f l).
Proof.
  induction 1 as [|a l SS IH F]; simpl; [constructor|].
  destruct (f a); auto. constructor; auto.
  rewrite Forall_forall in *. intros x I. apply F.
  apply filter_In in I. tauto.
Qed.

Lemma by_priority_sorted dir l :
  StronglySorted Z.lt l -> StronglySorted (better_eq dir) (by_priority dir l).
Proof.
  intros SS. destruct dir; simpl.
  - eapply sorted_weaken; [|exact SS]. intros x y. simpl. lia.
  - induction SS as [|a l SS IH F]; simpl; [constructor|].
    apply sorted_app; auto.
    + repeat constructor.
    + intros x y I [<-|[]]. apply in_rev in I.
      rewrite Forall_forall in F. specialize (F _ I). simpl. lia.
Qed.

Lemma resting_prices_sorted dir d l :
  StronglySorted Z.lt l ->
  StronglySorted (better_eq dir) (map fst (resting dir d l)).
Proof.
  intros SS. apply (by_priority_sorted dir) in SS. unfold resting.
  induction SS as [|p ps SS IH F]; simpl; [constructor|].
  rewrite map_app. apply sorted_app; auto.
  - rewrite map_map. simpl.
    induction (level d p) as [|o q IHq]; simpl; constructor; auto.
    apply Forall_forall. intros x I. apply in_map_iff in I.
    destruct I as [o' [<- _]]. destruct dir; simpl; lia.
  - intros x y I J. rewrite map_map in I. simpl in I.
    apply in_map_iff in I. destruct I as [o' [<- _]].
    apply in_map_iff in J. destruct J as [[p' o''] [<- J]].
    apply in_flat_map in J. destruct J as [p'' [J1 J2]].
    apply in_map_iff in J2. destruct J2 as [o3 [E _]].
    inversion E; subst. rewrite Forall_forall in F. now apply F.
Qed.

Lemma fifo_fills_price_in tg os sz x :
  In x (map fill_price (fifo_fills tg os sz)) -> In x (map fst os).
Proof.
  revert sz. induction os as [|[p o] os IH]; intros sz; simpl; auto.
  destruct (0 <? sz); simpl; [|tauto].
  intros [E|I]; eauto.
Qed.

Lemma fifo_fills_sorted (R : Z -> Z -> Prop) tg os sz :
  StronglySorted R (map fst os) ->
  StronglySorted R (map fill_price (fifo_fills tg os sz)).
Proof.
  revert sz. induction os as [|[p o] os IH]; intros sz SS; simpl;
    [constructor|].
  simpl in SS. inversion SS as [|? ? SS' F]; subst.
  destruct (0 <? sz); simpl; constructor; auto.
  rewrite Forall_forall in *. intros x I. apply F.
  eapply fifo_fills_price_in; eauto.
Qed.

Lemma process_trade_residual b price sz t dir p :
  lob_inv b ->
  fifo_residual (level (half dir b) p)
    (level (half dir (fst (process_trade b price sz t))) p).
Proof.
  intros [IB IA]. rewrite process_trade_unfold.
  destruct (crosses Asks (ask_prices b) price).
  - destruct dir; simpl; [|constructor].
    apply (sweep_post_run Asks _ _ price sz IA).
  - destruct (crosses Bids (bid_prices b) price).
    + destruct dir; simpl; [constructor|].
      apply (sweep_post_run Bids _ _ price sz IB).
    + destruct dir; simpl; constructor.
Qed.

Lemma process_trade_fills b price sz t dir :
  lob_inv b -> swept_side b price = Some dir ->
  snd (process_trade b price sz t)
  = fifo_fills (tag dir)
      (resting dir (half dir b) (eligible dir price (levels dir b))) sz.
Proof.
  intros [IB IA] SW. rewrite process_trade_unfold. unfold swept_side in SW.
  rewrite <- !crosses_existsb in SW by (apply IA || apply IB).
  destruct (crosses Asks (ask_prices b) price).
  - inversion SW; subst. simpl.
    apply (sweep_post_run Asks _ _ price sz IA).
  - destruct (crosses Bids (bid_prices b) price); [|discriminate].
    inversion SW; subst. simpl.
    apply (sweep_post_run Bids _ _ price sz IB).
Qed.

Lemma place_limit_order_tail b sd p s t :
  level (half (placed_on sd) (fst (place_limit_order b sd p s t))) p
  = level (half (placed_on sd) b) p ++ [mkOrder (next_oid b) sd p s t].
Proof.
  unfold place_limit_order, placed_on.
  destruct (sd =? "bid")%string; simpl; apply level_set_same.
Qed.

Lemma resting_member dir d ps p o :
  In p ps -> In o (level d p) -> In (p, o) (resting dir d ps).
Proof.
  intros I J. unfold resting. apply in_flat_map. exists p. split.
  - now apply by_priority_in.
  - now apply in_map.
Qed.

Lemma top_ask_swept b price a :
  snd (top_of_book b) = Some a -> a <= price ->
  swept_side b price = Some Asks.
Proof.
  unfold top_of_book, swept_side. simpl. intros A L.
  apply py_min_spec in A. destruct A as [I _].
  assert (E : existsb (hit Asks price) (ask_prices b) = true).
  { apply existsb_exists. exists a. split; auto. simpl. now apply Z.leb_le. }
  now rewrite E.
Qed.

Lemma top_bid_swept b price m :
  fst (top_of_book b) = Some m -> price <= m ->
  (forall a, snd (top_of_book b) = Some a -> price < a) ->
  swept_side b price = Some Bids.
Proof.
  unfold top_of_book, swept_side. simpl. intros M L NA.
  assert (EA : existsb (hit Asks price) (ask_prices b) = false).
  { destruct (existsb (hit Asks price) (ask_prices b)) eqn:E; auto.
    apply existsb_exists in E. destruct E as [x [I H]].
    simpl in H. apply Z.leb_le in H.
    destruct (py_min (ask_prices b)) as [a|] eqn:PA.
    - pose proof (NA a eq_refl) as Lt. apply py_min_spec in PA.
      destruct PA as [_ Mn]. specialize (Mn x I). lia.
    - destruct (ask_prices b); [destruct I | discriminate]. }
  rewrite EA. apply py_max_spec in M. destruct M as [I _].
  assert (EB : existsb (hit Bids price) (bid_prices b) = true).
  { apply existsb_exists. exists m. split; auto. simpl. now apply Z.leb_le. }
  now rewrite EB.
Qed.

(** What sweeping a side comes to on a book that satisfies the invariant:
    first-in-first-out matching against the eligible resting orders, at
    least one fill for a positive size, and queues consumed from the
    front. *)
Lemma swept_fills b price sz t dir :
  lob_inv b -> swept_side b price = Some dir ->
  snd (process_trade b price sz t)
  = fifo_fills (tag dir)
      (resting dir (half dir b) (eligible dir price (levels dir b))) sz
  /\ (0 < sz -> snd (process_trade b price sz t) <> [])
  /\ forall p,
       fifo_residual (level (half dir b) p)
         (level (half dir (fst (process_trade b price sz t))) p).
Proof.
  intros INV SW.
  split; [now apply process_trade_fills|].
  split; [|intros p; now apply process_trade_residual].
  intros L. rewrite (process_trade_fills b price sz t dir INV SW).
  assert (SI : side_inv (half dir b) (levels dir b))
    by (destruct INV, dir; assumption).
  assert (E : exists p, In p (eligible dir price (levels dir b))).
  { unfold swept_side in SW.
    destruct (existsb (hit Asks price) (ask_prices b)) eqn:EA.
    - inversion SW; subst dir. apply existsb_exists in EA.
      destruct EA as [p [I H]]. exists p. now apply filter_In.
    - destruct (existsb (hit Bids price) (bid_prices b)) eqn:EB;
        [|discriminate].
      inversion SW; subst dir. apply existsb_exists in EB.
      destruct EB as [p [I H]]. exists p. now apply filter_In. }
  destruct E as [p I].
  assert (Lp : level (half dir b) p <> []).
  { destruct SI as [_ [_ [PL _]]]. apply PL.
    apply filter_In in I. apply I. }
  destruct (level (half dir b) p) as [|o q] eqn:Eq; [congruence|].
  assert (M : In (p, o) (resting dir (half dir b)
                           (eligible dir price (levels dir b)))).
  { apply resting_member; auto. rewrite Eq. now left. }
  destruct (resting dir (half dir b) (eligible dir price (levels dir b)))
    as [|[p0 o0] os]; [destruct M|].
  simpl. apply Z.ltb_lt in L. rewrite L. discriminate.
Qed.

(** C2, as the code has it.  A trade at or above the best ask sweeps asks:
    every fill is tagged ['sell'] at a listed ask price not above the trade
    price, and the bid side is untouched; on a book that satisfies the
    invariant the fills are first-in-first-out matching of the trade size
    against the resting asks priced at or below the trade price, lowest
    price first, there is at least one fill when the size is positive, and
    every ask queue is consumed from its front.  A trade at or below the
    best bid sweeps bids in the mirrored way, every fill tagged ['buy'],
    provided the ask condition does not hold as well (the ask side is empty
    or the price is below the best ask).  A trade strictly between best bid
    and best ask returns no fill and changes nothing but the book time. *)
Theorem trade_direction b price sz t :
  let b' := fst (process_trade b price sz t) in
  let fills := snd (process_trade b price sz t) in
  (forall a, snd (top_of_book b) = Some a -> a <= price ->
     Forall (fun f => fill_tag f = "sell"%string
                      /\ In (fill_price f) (ask_prices b)
                      /\ fill_price f <= price) fills
     /\ bids b' = bids b /\ bid_prices b' = bid_prices b
     /\ (lob_inv b ->
         fills = fifo_fills "sell"
                   (resting Asks (asks b)
                      (eligible Asks price (ask_prices b))) sz
         /\ (0 < sz -> fills <> [])
         /\ forall p, fifo_residual (level (asks b) p) (level (asks b') p)))
  /\ (forall m, fst (top_of_book b) = Some m -> price <= m ->
      (forall a, snd (top_of_book b) = Some a -> price < a) ->
      Forall (fun f => fill_tag f = "buy"%string
                       /\ In (fill_price f) (bid_prices b)
                       /\ price <= fill_price f) fills
      /\ asks b' = asks b /\ ask_prices b' = ask_prices b
      /\ (lob_inv b ->
          fills = fifo_fills "buy"
                    (resting Bids (bids b)
                       (eligible Bids price (bid_prices b))) sz
          /\ (0 < sz -> fills <> [])
          /\ forall p, fifo_residual (level (bids b) p) (level (bids b') p)))
  /\ (forall m a, top_of_book b = (Some m, Some a) -> m < price < a ->
      fills = []
      /\ b' = mkBook (bids b) (asks b) (bid_prices b) (ask_prices b)
                (next_oid b) t).
Proof.
  intros b' fills.
  destruct (trade_direction_tags b price sz t) as [TA [TB TN]].
  split; [|split].
  - intros a A L. destruct (TA a A L) as [F [E1 E2]].
    split; [exact F|]. split; [exact E1|]. split; [exact E2|].
    intros INV.
    exact (swept_fills b price sz t Asks INV (top_ask_swept b price a A L)).
  - intros m M L NA. destruct (TB m M L NA) as [F [E1 E2]].
    split; [exact F|]. split; [exact E1|]. split; [exact E2|].
    intros INV.
    exact (swept_fills b price sz t Bids INV
             (top_bid_swept b price m M L NA)).
  - exact TN.
Qed.

(** C3.  Price-time priority.  A placement joins the tail of the queue at
    its price.  A trade on a book that satisfies the invariant leaves, at
    every level, the queue it found with some orders at the front removed,
    at most the next one reduced and all later ones untouched; its fills
    are exactly first-in-first-out matching of the trade size against the
    eligible resting orders taken best price first and in queue order
    within a level, so the fill prices never get better along the list. *)
Theorem fifo_priority b price sz t :
  lob_inv b ->
  let b' := fst (process_trade b price sz t) in
  let fills := snd (process_trade b price sz t) in
  (forall sd p s t',
     level (half (placed_on sd) (fst (place_limit_order b sd p s t'))) p
     = level (half (placed_on sd) b) p ++ [mkOrder (next_oid b) sd p s t'])
  /\ (forall dir p,
        fifo_residual (level (half dir b) p) (level (half dir b') p))
  /\ (forall dir, swept_side b price = Some dir ->
        fills = fifo_fills (tag dir)
                  (resting dir (half dir b)
                     (eligible dir price (levels dir b))) sz
        /\ StronglySorted (better_eq dir) (map fill_price fills)).
Proof.
  intros INV b' fills. split; [|split].
  - intros. apply place_limit_order_tail.
  - intros dir p. now apply process_trade_residual.
  - intros dir SW. unfold fills.
    rewrite (process_trade_fills b price sz t dir INV SW). split; auto.
    apply fifo_fills_sorted. apply resting_prices_sorted.
    apply sorted_filter. destruct INV as [IB IA].
    destruct dir; [apply IA | apply IB].
Qed.

(** *** Snapshots *)

Lemma install_level sd t lvs st p :
  level (fst (fold_left (install sd t) lvs st)) p
  = match last_size lvs p with
    | Some s => [mkOrder 0 sd p s t]
    | None => level (fst st) p
    end.
Proof.
  revert st. induction lvs as [|[p' s] lvs IH]; intros st; simpl; auto.
  rewrite IH. destruct (last_size lvs p); auto.
  destruct (s <=? 0) eqn:Ls.
  - apply Z.leb_le in Ls.
    replace (0 <? s) with false by (symmetry; apply Z.ltb_ge; lia).
    now rewrite andb_false_r.
  - apply Z.leb_gt in Ls.
    replace (0 <? s) with true by (symmetry; apply Z.ltb_lt; lia).
    rewrite andb_true_r. simpl. destruct (p' =? p) eqn:E.
    + apply Z.eqb_eq in E; subst. now rewrite level_set_same.
    + apply Z.eqb_neq in E. now rewrite level_set_other.
Qed.

Lemma last_size_kept lvs p s :
  last_size lvs p = Some s -> In (p, s) (kept lvs).
Proof.
  unfold kept. induction lvs as [|[p' s'] lvs IH]; simpl; [discriminate|].
  destruct (last_size lvs p) as [s0|].
  - intros E. destruct (0 <? s'); [right|]; auto.
  - destruct (p' =? p) eqn:E; simpl; [|discriminate].
    destruct (0 <? s'); [|discriminate].
    intros H; inversion H; subst. apply Z.eqb_eq in E; subst. now left.
Qed.

Lemma install_prices_in sd t lvs st p :
  In p (snd (fold_left (install sd t) lvs st))
  <-> In p (snd st) \/ In p (map fst (kept lvs)).
Proof.
  unfold kept. revert st. induction lvs as [|[p' s] lvs IH]; intros st; simpl.
  - tauto.
  - rewrite IH. destruct (s <=? 0) eqn:Ls.
    + apply Z.leb_le in Ls.
      replace (0 <? s) with false by (symmetry; apply Z.ltb_ge; lia).
      tauto.
    + apply Z.leb_gt in Ls.
      replace (0 <? s) with true by (symmetry; apply Z.ltb_lt; lia).
      simpl. rewrite insert_price_in. intuition auto.
Qed.

Lemma set_fresh (d : half_book) k v :
  ~ In k (Dict.keys d) -> Dict.set d k v = d ++ [(k, v)].
Proof.
  induction d as [|[k0 v0] d IH]; simpl; auto.
  intros NI. destruct (k0 =? k) eqn:E.
  - apply Z.eqb_eq in E. tauto.
  - f_equal. apply IH. tauto.
Qed.

Lemma install_distinct sd t lvs st :
  NoDup (map fst (kept lvs)) ->
  (forall p, In p (map fst (kept lvs)) -> ~ In p (Dict.keys (fst st))) ->
  fst (fold_left (install sd t) lvs st)
  = fst st ++ map (fun lv => (fst lv, [synthetic sd t lv])) (kept lvs).
Proof.
  unfold kept. revert st.
  induction lvs as [|[p s] lvs IH]; intros st ND FR; simpl.
  - now rewrite app_nil_r.
  - simpl in ND, FR. destruct (s <=? 0) eqn:Ls.
    + apply Z.leb_le in Ls.
      replace (0 <? s) with false in * by (symmetry; apply Z.ltb_ge; lia).
      now apply IH.
    + apply Z.leb_gt in Ls.
      replace (0 <? s) with true in * by (symmetry; apply Z.ltb_lt; lia).
      simpl in ND, FR. inversion ND as [|? ? NI ND']; subst.
      rewrite IH; auto.
      * simpl. rewrite set_fresh by (apply FR; now left).
        now rewrite <- app_assoc.
      * intros x I. simpl. rewrite DictFacts.keys_set.
        intros [->|J]; [contradiction|]. apply (FR x); auto.
Qed.

Lemma all_orders_synthetic sd t lvs :
  all_orders (map (fun lv => (fst lv, [synthetic sd t lv])) lvs)
  = map (synthetic sd t) lvs.
Proof.
  unfold all_orders. induction lvs as [|lv lvs IH]; simpl; auto.
  now rewrite IH.
Qed.

Lemma all_orders_in d o :
  NoDup (Dict.keys d) ->
  In o (all_orders d) <-> exists p, In o (level d p).
Proof.
  intros ND. unfold all_orders. rewrite in_flat_map. split.
  - intros [[p q] [I J]]. exists p. now rewrite (level_in d p q).
  - intros [p I]. unfold level in I.
    destruct (Dict.get d p) as [q|] eqn:G; [|destruct I].
    exists (p, q). split; auto. now apply DictFacts.in_get.
Qed.

Lemma py_max_ext l1 l2 :
  (forall x, In x l1 <-> In x l2) -> py_max l1 = py_max l2.
Proof.
  intros H. destruct (py_max l1) as [m|] eqn:E; symmetry.
  - apply py_max_spec in E. destruct E as [I M]. apply py_max_spec.
    split; [now apply H|]. intros y J. apply M. now apply H.
  - destruct l1; [|discriminate]. destruct l2 as [|y l2]; auto.
    exfalso. apply (H y). now left.
Qed.

Lemma py_min_ext l1 l2 :
  (forall x, In x l1 <-> In x l2) -> py_min l1 = py_min l2.
Proof.
  intros H. destruct (py_min l1) as [m|] eqn:E; symmetry.
  - apply py_min_spec in E. destruct E as [I M]. apply py_min_spec.
    split; [now apply H|]. intros y J. apply M. now apply H.
  - destruct l1; [|discriminate]. destruct l2 as [|y l2]; auto.
    exfalso. apply (H y). now left.
Qed.

Lemma snapshot_orders_supplied sd t lvs o :
  In o (all_orders (fst (fold_left (install sd t) lvs ([], [])))) ->
  In o (map (synthetic sd t) (kept lvs)).
Proof.
  intros I. apply all_orders_in in I.
  2:{ apply (install_side_inv sd t lvs ([], [])). apply side_inv_empty. }
  destruct I as [p I]. rewrite install_level in I.
  destruct (last_size lvs p) as [s|] eqn:E; [|destruct I].
  destruct I as [<-|[]]. apply last_size_kept in E.
  apply in_map_iff. exists (p, s). auto.
Qed.

Lemma snapshot_sizes_nonneg b bs as_ t :
  sizes_nonneg (bids (apply_snapshot b bs as_ t))
  /\ sizes_nonneg (asks (apply_snapshot b bs as_ t)).
Proof.
  split; intros p o I; simpl in I; rewrite install_level in I;
    destruct (last_size _ p) as [s|] eqn:E; try destruct I as [<-|[]];
    try destruct I; simpl; apply last_size_kept in E;
    apply filter_In in E; destruct E as [_ E]; apply Z.ltb_lt in E;
    simpl in E; lia.
Qed.

(** C4, as the code has it.  A snapshot leaves, at every price, the single
    synthetic order (identifier 0) of the last supplied pair at that price
    whose size is positive, and no level where there is none; pairs whose
    size is not positive are dropped.  When the kept prices of a side are
    pairwise distinct this is exactly one synthetic order per kept pair, in
    the order supplied.  Every resting order is one of these synthetic
    orders, the result does not depend on what rested before, and the top
    of book is the highest kept bid price and the lowest kept ask price. *)
Theorem snapshot_replaces_book b bs as_ t :
  let b' := apply_snapshot b bs as_ t in
  (forall p,
     level (bids b') p
     = match last_size bs p with
       | Some s => [mkOrder 0 "bid" p s t]
       | None => []
       end)
  /\ (forall p,
        level (asks b') p
        = match last_size as_ p with
          | Some s => [mkOrder 0 "ask" p s t]
          | None => []
          end)
  /\ (NoDup (map fst (kept bs)) ->
      all_orders (bids b') = map (synthetic "bid" t) (kept bs))
  /\ (NoDup (map fst (kept as_)) ->
      all_orders (asks b') = map (synthetic "ask" t) (kept as_))
  /\ (forall o, In o (all_orders (bids b')) ->
        In o (map (synthetic "bid" t) (kept bs)))
  /\ (forall o, In o (all_orders (asks b')) ->
        In o (map (synthetic "ask" t) (kept as_)))
  /\ (let e := apply_snapshot empty_book bs as_ t in
      b' = mkBook (bids e) (asks e) (bid_prices e) (ask_prices e)
             (next_oid b) t)
  /\ top_of_book b'
     = (py_max (map fst (kept bs)), py_min (map fst (kept as_))).
Proof.
  intros b'. repeat split.
  - intros p. unfold b'. simpl. now rewrite install_level.
  - intros p. unfold b'. simpl. now rewrite install_level.
  - intros ND. unfold b'. simpl. rewrite install_distinct; auto.
    apply all_orders_synthetic.
  - intros ND. unfold b'. simpl. rewrite install_distinct; auto.
    apply all_orders_synthetic.
  - apply snapshot_orders_supplied.
  - apply snapshot_orders_supplied.
  - unfold top_of_book, b'. simpl. f_equal.
    + apply py_max_ext. intros x. rewrite install_prices_in. simpl. tauto.
    + apply py_min_ext. intros x. rewrite install_prices_in. simpl. tauto.
Qed.

(** *** Cancellation *)

Lemma remove_oid_split id q :
  existsb (fun o => oid o =? id) q = true ->
  exists l1 o l2,
    q = l1 ++ o :: l2 /\ oid o = id
    /\ (forall x, In x l1 -> oid x <> id)
    /\ remove_oid id q = l1 ++ l2.
Proof.
  induction q as [|o q IH]; simpl; [discriminate|].
  destruct (oid o =? id) eqn:E.
  - intros _. apply Z.eqb_eq in E. exists [], o, q. simpl. tauto.
  - simpl. intros H. destruct (IH H) as [l1 [o' [l2 [Q [O [N R]]]]]].
    apply Z.eqb_neq in E. exists (o :: l1), o', l2. simpl.
    rewrite R, Q. repeat split; auto.
    intros x [<-|I]; auto.
Qed.

Lemma has_oid_find id d :
  has_oid id d = true -> exists pq, find_oid id d = Some pq.
Proof.
  intros H. destruct (find_oid id d) as [pq|] eqn:F; eauto.
  apply find_oid_none in F. congruence.
Qed.

Lemma find_has_oid id d pq : find_oid id d = Some pq -> has_oid id d = true.
Proof.
  destruct pq as [p q]. intros F. apply find_oid_some in F.
  destruct F as [I E]. unfold has_oid. apply existsb_exists.
  apply existsb_exists in E. destruct E as [o [J O]].
  exists o. split; auto. apply in_flat_map. exists (p, q). auto.
Qed.

Lemma cancel_side_none id prices d :
  has_oid id d = false -> cancel_side id prices d = None.
Proof.
  intros H. unfold cancel_side.
  destruct (find_oid id d) as [[p q]|] eqn:F; auto.
  apply find_has_oid in F. congruence.
Qed.

Lemma cancel_side_spec id prices d :
  side_inv d prices -> has_oid id d = true ->
  exists prices' d' p l1 o l2,
    cancel_side id prices d = Some (prices', d')
    /\ side_inv d' prices'
    /\ level d p = l1 ++ o :: l2 /\ oid o = id
    /\ (forall x, In x l1 -> oid x <> id)
    /\ level d' p = l1 ++ l2
    /\ (forall x, x <> p -> level d' x = level d x)
    /\ prices' = match l1 ++ l2 with
                 | [] => list_remove p prices
                 | _ => prices
                 end.
Proof.
  intros INV H. apply has_oid_find in H. destruct H as [[p q] F].
  unfold cancel_side. rewrite F.
  apply find_oid_some in F. destruct F as [I E].
  pose proof INV as [ND [SS [PL KL]]].
  assert (Lq : level d p = q) by now apply level_in.
  assert (Ip : In p prices).
  { apply PL. rewrite Lq. intros ->. discriminate. }
  destruct (remove_oid_split id q E) as [l1 [o [l2 [Q [O [N R]]]]]].
  destruct (_remove_price_if_empty prices p (Dict.set d p (remove_oid id q)))
    as [prices' d'] eqn:RM.
  destruct (remove_if_empty_spec _ _ _ _ _ _ INV Ip RM) as [I' [Lp [Lx P]]].
  exists prices', d', p, l1, o, l2. rewrite R in Lp, P.
  repeat split; auto; try apply I'. congruence.
Qed.

(** C9.  Cancelling on a book that satisfies the invariant.  When an order
    bearing the identifier rests in the book, [cancel_order] answers [True];
    in one queue of one side the first order bearing it is taken out and
    the orders around it stay in place, every other queue of that side and
    the whole other side stay as they are, the level leaves the level list
    exactly when its queue became empty, and the invariant still holds.
    When no order bears the identifier it answers [False] and the book is
    the very same.  The function is total: there is no failing case. *)
Theorem cancel_order_removes_one b id :
  lob_inv b ->
  let b' := fst (cancel_order b id) in
  if has_oid id (bids b) || has_oid id (asks b) then
    snd (cancel_order b id) = true
    /\ lob_inv b'
    /\ next_oid b' = next_oid b /\ time b' = time b
    /\ exists dir p l1 o l2,
         level (half dir b) p = l1 ++ o :: l2 /\ oid o = id
         /\ level (half dir b') p = l1 ++ l2
         /\ (forall x, x <> p -> level (half dir b') x = level (half dir b) x)
         /\ levels dir b' = match l1 ++ l2 with
                            | [] => list_remove p (levels dir b)
                            | _ => levels dir b
                            end
         /\ half (other dir) b' = half (other dir) b
         /\ levels (other dir) b' = levels (other dir) b
  else cancel_order b id = (b, false).
Proof.
  intros [IB IA] b'. unfold b', cancel_order.
  destruct (has_oid id (bids b)) eqn:HB; simpl.
  - destruct (cancel_side_spec id _ _ IB HB)
      as [ps [d [p [l1 [o [l2 [C [I [L [O [N [L' [Lx P]]]]]]]]]]]]].
    rewrite C. simpl. repeat split; auto; try apply I; try apply IA.
    exists Bids, p, l1, o, l2. simpl. tauto.
  - rewrite (cancel_side_none id _ _ HB).
    destruct (has_oid id (asks b)) eqn:HA.
    + destruct (cancel_side_spec id _ _ IA HA)
        as [ps [d [p [l1 [o [l2 [C [I [L [O [N [L' [Lx P]]]]]]]]]]]]].
      rewrite C. simpl. repeat split; auto; try apply I; try apply IB.
      exists Asks, p, l1, o, l2. simpl. tauto.
    + now rewrite (cancel_side_none id _ _ HA).
Qed.

(** *** Resting sizes stay non-negative *)

Lemma residual_sizes q r :
  fifo_residual q r ->
  (forall o, In o q -> 0 <= size o) -> forall o, In o r -> 0 <= size o.
Proof.
  induction 1 as [q|o s q B|o q r R IH]; intros NN x I; auto.
  - destruct I as [<-|I]; [simpl; lia|]. apply NN. now right.
  - apply IH; auto. intros y J. apply NN. now right.
Qed.

Lemma process_trade_sizes b price sz t dir :
  lob_inv b -> sizes_nonneg (half dir b) ->
  sizes_nonneg (half dir (fst (process_trade b price sz t))).
Proof.
  intros INV NN p o I.
  eapply residual_sizes;
    [apply (process_trade_residual b price sz t dir p INV) | | exact I].
  intros x J. eapply NN; eauto.
Qed.

Lemma place_sizes b sd p s t dir :
  0 <= s -> sizes_nonneg (half dir b) ->
  sizes_nonneg (half dir (fst (place_limit_order b sd p s t))).
Proof.
  intros L NN x o I. unfold place_limit_order in I.
  destruct (sd =? "bid")%string, dir; simpl in I;
    try (eapply NN; eauto; fail);
    (destruct (Z.eq_dec p x) as [->|N];
     [rewrite level_set_same in I; apply in_app_or in I;
      destruct I as [I|[<-|[]]]; [eapply NN; eauto | simpl; lia]
     |rewrite level_set_other in I by auto; eapply NN; eauto]).
Qed.

Lemma cancel_side_sizes id prices d prices' d' :
  side_inv d prices -> cancel_side id prices d = Some (prices', d') ->
  sizes_nonneg d -> sizes_nonneg d'.
Proof.
  intros INV C NN x o I.
  assert (H : has_oid id d = true).
  { destruct (has_oid id d) eqn:E; auto.
    rewrite (cancel_side_none id prices d E) in C. discriminate. }
  destruct (cancel_side_spec id prices d INV H)
    as [ps [d0 [p [l1 [o' [l2 [C' [_ [L [_ [_ [L' [Lx _]]]]]]]]]]]]].
  rewrite C in C'. inversion C'; subst ps d0.
  destruct (Z.eq_dec x p) as [->|N].
  - rewrite L' in I. apply (NN p). rewrite L.
    apply in_app_or in I. apply in_or_app. simpl. tauto.
  - rewrite Lx in I by auto. eapply NN; eauto.
Qed.

Lemma cancel_order_sizes b id dir :
  lob_inv b -> sizes_nonneg (half dir b) ->
  sizes_nonneg (half dir (fst (cancel_order b id))).
Proof.
  intros [IB IA] NN. unfold cancel_order.
  destruct (cancel_side id (bid_prices b) (bids b)) as [[ps d]|] eqn:C1.
  - destruct dir; simpl; auto. exact (cancel_side_sizes _ _ _ _ _ IB C1 NN).
  - destruct (cancel_side id (ask_prices b) (asks b)) as [[ps d]|] eqn:C2.
    + destruct dir; simpl; auto.
      exact (cancel_side_sizes _ _ _ _ _ IA C2 NN).
    + exact NN.
Qed.

(** Every book reached from the empty one by operations that place no
    order of negative size satisfies the invariant and holds no order of
    negative size. *)
Lemma reachable_books_admissible ops :
  forallb nonneg_op ops = true ->
  lob_inv (run_ops ops empty_book)
  /\ forall dir, sizes_nonneg (half dir (run_ops ops empty_book)).
Proof.
  intros F. split; [apply run_ops_inv, empty_book_inv|].
  assert (G : forall b, lob_inv b -> (forall dir, sizes_nonneg (half dir b)) ->
                        forall dir, sizes_nonneg (half dir (run_ops ops b))).
  { induction ops as [|op ops IH]; intros b INV NN; simpl; auto.
    simpl in F. apply andb_true_iff in F. destruct F as [F1 F2].
    apply IH; auto; [now apply apply_op_inv|].
    intros dir. destruct op; simpl.
    - destruct (snapshot_sizes_nonneg b bs as_ t). now destruct dir.
    - simpl in F1. apply Z.leb_le in F1. now apply place_sizes.
    - now apply cancel_order_sizes.
    - now apply process_trade_sizes. }
  apply G; [apply empty_book_inv|].
  intros dir p o I. destruct dir; destruct I.
Qed.


(** *** The properties at work on concrete books *)

Lemma demo_book_inv : lob_inv demo_book.
Proof. apply apply_snapshot_inv. Qed.

Lemma sweep_consumes_min_witness :
  lob_inv demo_book
  /\ sizes_nonneg (bids demo_book) /\ sizes_nonneg (asks demo_book)
  /\ 0 <= 12
  /\ fills_qty (snd (process_trade demo_book 102 12 1)) = 12
  /\ liquidity (asks (fst (process_trade demo_book 102 12 1)))
       (ask_prices (fst (process_trade demo_book 102 12 1))) = 14 - 12
  /\ liquidity (asks (fst (process_trade demo_book 102 12 1)))
       (eligible Asks 102
          (ask_prices (fst (process_trade demo_book 102 12 1)))) = 14 - 12
  /\ queue_size (all_orders (asks (fst (process_trade demo_book 102 12 1))))
     = 14 - 12
  /\ bids (fst (process_trade demo_book 102 12 1)) = bids demo_book
  /\ bid_prices (fst (process_trade demo_book 102 12 1))
     = bid_prices demo_book.
Proof.
  pose proof demo_book_inv as I.
  destruct (snapshot_sizes_nonneg empty_book
              [(99, 10); (98, 5)] [(101, 10); (102, 4)] 0) as [NB NA].
  assert (L : 0 <= 12) by lia.
  split; [exact I|]. split; [exact NB|]. split; [exact NA|].
  split; [exact L|].
  exact (sweep_consumes_min demo_book 102 12 1 I NB NA L).
Defined.

(** Outside these conditions the equation fails.  A trade of negative size
    takes nothing, where [min sz A] is negative.  With an order of negative
    size resting on the swept side, placed as the book accepts it, [A] is
    below what the first queue holds and the fills exceed [min sz A]. *)
Lemma sweep_outside_sizes :
  (swept_side demo_book 101 = Some Asks
   /\ liquidity (asks demo_book) (eligible Asks 101 (ask_prices demo_book))
      = 10
   /\ fills_qty (snd (process_trade demo_book 101 (-4) 1)) = 0
   /\ fills_qty (snd (process_trade demo_book 101 (-4) 1))
      <> Z.min (-4)
           (liquidity (asks demo_book)
              (eligible Asks 101 (ask_prices demo_book))))
  /\ (let b := run_ops [OpPlace "ask" 100 4 0; OpPlace "ask" 101 (-2) 0]
                 empty_book in
      swept_side b 101 = Some Asks
      /\ liquidity (asks b) (eligible Asks 101 (ask_prices b)) = 2
      /\ fills_qty (snd (process_trade b 101 4 1)) = 4
      /\ fills_qty (snd (process_trade b 101 4 1))
         <> Z.min 4 (liquidity (asks b) (eligible Asks 101 (ask_prices b)))).
Proof.
  split; cbv zeta.
  - split; [reflexivity|]. split; [reflexivity|]. split; [reflexivity|].
    vm_compute. discriminate.
  - split; [reflexivity|]. split; [reflexivity|]. split; [reflexivity|].
    vm_compute. discriminate.
Qed.

Lemma trade_direction_witness :
  (snd (top_of_book demo_book) = Some 101 /\ 101 <= 101
   /\ lob_inv demo_book /\ 0 < 12
   /\ Forall (fun f => fill_tag f = "sell"%string
                       /\ In (fill_price f) (ask_prices demo_book)
                       /\ fill_price f <= 101)
        (snd (process_trade demo_book 101 12 1))
   /\ snd (process_trade demo_book 101 12 1)
      = fifo_fills "sell"
          (resting Asks (asks demo_book)
             (eligible Asks 101 (ask_prices demo_book))) 12
   /\ snd (process_trade demo_book 101 12 1) <> [])
  /\ (fst (top_of_book demo_book) = Some 99 /\ 99 <= 99
      /\ Forall (fun f => fill_tag f = "buy"%string
                          /\ In (fill_price f) (bid_prices demo_book)
                          /\ 99 <= fill_price f)
           (snd (process_trade demo_book 99 12 1))
      /\ snd (process_trade demo_book 99 12 1) <> [])
  /\ (top_of_book demo_book = (Some 99, Some 101) /\ 99 < 100 < 101
      /\ snd (process_trade demo_book 100 12 1) = []).
Proof.
  pose proof demo_book_inv as INV.
  assert (P : 0 < 12) by lia.
  split; [|split].
  - assert (L : 101 <= 101) by lia.
    destruct (proj1 (trade_direction demo_book 101 12 1) 101 eq_refl L)
      as [F [_ [_ K]]].
    destruct (K INV) as [E [N _]].
    split; [reflexivity|]. split; [exact L|]. split; [exact INV|].
    split; [exact P|]. split; [exact F|]. split; [exact E | exact (N P)].
  - assert (L : 99 <= 99) by lia.
    assert (NA : forall a, snd (top_of_book demo_book) = Some a -> 99 < a).
    { intros a E. inversion E. lia. }
    destruct (proj1 (proj2 (trade_direction demo_book 99 12 1)) 99 eq_refl
                L NA) as [F [_ [_ K]]].
    destruct (K INV) as [_ [N _]].
    split; [reflexivity|]. split; [exact L|]. split; [exact F | exact (N P)].
  - split; [reflexivity|]. split; [lia|].
    apply (proj2 (proj2 (trade_direction demo_book 100 12 1)) 99 101 eq_refl).
    lia.
Defined.

(** On a crossed book a trade at or below the best bid that is also at or
    above the best ask hits the asks: its fill is tagged ['sell'] and the
    bids are left alone. *)
Lemma trade_direction_crossed :
  fst (top_of_book crossed_book) = Some 101 /\ 100 <= 101
  /\ bid_prices crossed_book <> []
  /\ snd (process_trade crossed_book 100 3 1) = [("sell"%string, 100, 3)]
  /\ bids (fst (process_trade crossed_book 100 3 1)) = bids crossed_book
  /\ ~ Forall (fun f => fill_tag f = "buy"%string)
         (snd (process_trade crossed_book 100 3 1)).
Proof.
  split; [reflexivity|]. split; [lia|]. split; [discriminate|].
  split; [reflexivity|]. split; [reflexivity|].
  intros F. inversion F as [|f fs T F']. discriminate T.
Qed.

Lemma abc_book_inv : lob_inv abc_book.
Proof. apply run_ops_inv, empty_book_inv. Qed.

Lemma fifo_priority_witness :
  lob_inv abc_book
  /\ level (asks abc_book) 100
     = [mkOrder 1 "ask" 100 3 0; mkOrder 2 "ask" 100 4 0;
        mkOrder 3 "ask" 100 5 0]
  /\ swept_side abc_book 100 = Some Asks
  /\ snd (process_trade abc_book 100 5 1)
     = [("sell"%string, 100, 3); ("sell"%string, 100, 2)]
  /\ level (asks (fst (process_trade abc_book 100 5 1))) 100
     = [mkOrder 2 "ask" 100 2 0; mkOrder 3 "ask" 100 5 0].
Proof.
  pose proof abc_book_inv as I.
  destruct (fifo_priority abc_book 100 5 1 I) as [P [R F]].
  destruct (F Asks eq_refl) as [E S].
  split; [exact I|]. split; [reflexivity|]. split; [reflexivity|].
  split; [exact E | reflexivity].
Defined.

Lemma snapshot_replaces_book_witness :
  NoDup (map fst (kept [(99, 10); (98, 0); (97, 5)]))
  /\ all_orders
       (bids (apply_snapshot abc_book [(99, 10); (98, 0); (97, 5)]
                [(101, 10)] 7))
     = [mkOrder 0 "bid" 99 10 7; mkOrder 0 "bid" 97 5 7]
  /\ top_of_book
       (apply_snapshot abc_book [(99, 10); (98, 0); (97, 5)] [(101, 10)] 7)
     = (Some 99, Some 101).
Proof.
  assert (ND : NoDup (map fst (kept [(99, 10); (98, 0); (97, 5)]))).
  { simpl. constructor.
    - intros [H|[]]. discriminate H.
    - constructor; [intros [] | constructor]. }
  split; [exact ND|]. split.
  - exact (proj1 (proj2 (proj2
             (snapshot_replaces_book abc_book [(99, 10); (98, 0); (97, 5)]
                [(101, 10)] 7))) ND).
  - reflexivity.
Defined.

(** A snapshot that names one price twice keeps one order for it, the one
    of the later pair, so the resting orders are not one per kept pair. *)
Lemma snapshot_duplicate_price :
  kept [(100, 5); (100, 7)] = [(100, 5); (100, 7)]
  /\ all_orders (bids (apply_snapshot empty_book [(100, 5); (100, 7)] [] 0))
     = [mkOrder 0 "bid" 100 7 0]
  /\ ~ Permutation
         (all_orders
            (bids (apply_snapshot empty_book [(100, 5); (100, 7)] [] 0)))
         (map (synthetic "bid" 0) (kept [(100, 5); (100, 7)])).
Proof.
  split; [reflexivity|]. split; [reflexivity|].
  intros P. apply Permutation_length in P. discriminate P.
Qed.

Lemma quoted_book_inv : lob_inv quoted_book.
Proof. apply run_ops_inv, empty_book_inv. Qed.

Lemma cancel_order_removes_one_witness :
  lob_inv quoted_book
  /\ (has_oid 1 (bids quoted_book) || has_oid 1 (asks quoted_book) = true
      /\ snd (cancel_order quoted_book 1) = true)
  /\ cancel_order quoted_book 7 = (quoted_book, false).
Proof.
  pose proof quoted_book_inv as I.
  split; [exact I|]. split.
  - split; [reflexivity|].
    exact (proj1 (cancel_order_removes_one quoted_book 1 I)).
  - exact (cancel_order_removes_one quoted_book 7 I).
Defined.

End LOBFacts.

(** ** The strategy's accounting *)

Module MarketMakerFacts.
Import MarketMaker.
Local Open Scope Q_scope.

Ltac fill_step :=
  unfold on_fill;
  repeat (change ("buy" =? "buy")%string with true
          || change ("sell" =? "buy")%string with false
          || change ("sell" =? "sell")%string with true);
  cbn [set_fills set_cash set_inventory set_avg_price set_realized
       our_orders inventory cash avg_price realized fills mids
       equity_curve inv_curve last_mid].

Lemma Qle_bool_false x y : y < x -> Qle_bool x y = false.
Proof.
  intros L. destruct (Qle_bool x y) eqn:E; auto.
  apply Qle_bool_iff in E. exfalso. eapply Qlt_not_le; eauto.
Qed.

Lemma Qle_bool_true x y : x <= y -> Qle_bool x y = true.
Proof. intros L. now apply Qle_bool_iff. Qed.

Lemma Qltb_true x y : x < y -> Qltb x y = true.
Proof. intros L. unfold Qltb. now rewrite Qle_bool_false. Qed.

Lemma Qltb_false x y : y <= x -> Qltb x y = false.
Proof. intros L. unfold Qltb. now rewrite Qle_bool_true. Qed.

Lemma Qmin_right x y : y < x -> Qmin x y = y.
Proof.
  intros L. unfold Qmin, GenericMinMax.gmin. apply Qgt_alt in L.
  now rewrite L.
Qed.

Lemma Qmin_left x y : x <= y -> Qmin x y = x.
Proof.
  intros L. unfold Qmin, GenericMinMax.gmin. destruct (x ?= y) eqn:C; auto.
  apply Qgt_alt in C. exfalso. eapply Qlt_not_le; eauto.
Qed.

Lemma Qeq_bool_true x y : x == y -> Qeq_bool x y = true.
Proof. intros E. now apply Qeq_bool_iff. Qed.

(** Selling more than a long position holds. *)
Lemma on_fill_sell_flip s p qty t :
  0 < inventory s -> inventory s < qty ->
  on_fill s "sell" p qty t
  = mkState (our_orders s)
      (inventory s - inventory s - (qty - inventory s))
      (cash s + p * qty) p
      (realized s + (p - avg_price s) * inventory s)
      (fills s ++ [("sell"%string, p, qty, t)])
      (mids s) (equity_curve s) (inv_curve s) (last_mid s).
Proof.
  intros Pos Lt. fill_step.
  rewrite (Qle_bool_false _ _ Pos), (Qmin_right _ _ Lt).
  rewrite Qeq_bool_true by ring.
  rewrite Qltb_true; [reflexivity|].
  apply (Qplus_lt_l _ _ (inventory s)). ring_simplify. exact Lt.
Qed.

(** Selling a long position down, at most to zero. *)
Lemma on_fill_sell_reduce s p qty t :
  0 < inventory s -> qty <= inventory s ->
  on_fill s "sell" p qty t
  = mkState (our_orders s) (inventory s - qty) (cash s + p * qty)
      (avg_price s) (realized s + (p - avg_price s) * qty)
      (fills s ++ [("sell"%string, p, qty, t)])
      (mids s) (equity_curve s) (inv_curve s) (last_mid s).
Proof.
  intros Pos Le. fill_step.
  rewrite (Qle_bool_false _ _ Pos), (Qmin_left _ _ Le).
  rewrite (Qltb_false 0 (qty - qty)), andb_false_r; [reflexivity|].
  ring_simplify. apply Qle_refl.
Qed.

(** Selling from a flat or short position. *)
Lemma on_fill_sell_add s p qty t :
  inventory s <= 0 ->
  on_fill s "sell" p qty t
  = mkState (our_orders s) (inventory s - qty) (cash s + p * qty)
      ((avg_price s * - inventory s + p * qty)
       / Qmax (- (inventory s - qty)) eps)
      (realized s)
      (fills s ++ [("sell"%string, p, qty, t)])
      (mids s) (equity_curve s) (inv_curve s) (last_mid s).
Proof.
  intros Le. fill_step. now rewrite (Qle_bool_true _ _ Le).
Qed.

(** Buying more than a short position owes. *)
Lemma on_fill_buy_flip s p qty t :
  inventory s < 0 -> - inventory s < qty ->
  on_fill s "buy" p qty t
  = mkState (our_orders s)
      (inventory s + - inventory s + (qty - - inventory s))
      (cash s - p * qty) p
      (realized s + (avg_price s - p) * - inventory s)
      (fills s ++ [("buy"%string, p, qty, t)])
      (mids s) (equity_curve s) (inv_curve s) (last_mid s).
Proof.
  intros Neg Lt. fill_step.
  rewrite (Qle_bool_false _ _ Neg), (Qmin_right _ _ Lt).
  rewrite Qeq_bool_true by ring.
  rewrite Qltb_true; [reflexivity|].
  apply (Qplus_lt_l _ _ (- inventory s)). ring_simplify. exact Lt.
Qed.

(** Buying a short position back, at most to zero. *)
Lemma on_fill_buy_cover s p qty t :
  inventory s < 0 -> qty <= - inventory s ->
  on_fill s "buy" p qty t
  = mkState (our_orders s) (inventory s + qty) (cash s - p * qty)
      (avg_price s) (realized s + (avg_price s - p) * qty)
      (fills s ++ [("buy"%string, p, qty, t)])
      (mids s) (equity_curve s) (inv_curve s) (last_mid s).
Proof.
  intros Neg Le. fill_step.
  rewrite (Qle_bool_false _ _ Neg), (Qmin_left _ _ Le).
  rewrite (Qltb_false 0 (qty - qty)), andb_false_r; [reflexivity|].
  ring_simplify. apply Qle_refl.
Qed.

(** Buying from a flat or long position. *)
Lemma on_fill_buy_add s p qty t :
  0 <= inventory s ->
  on_fill s "buy" p qty t
  = mkState (our_orders s) (inventory s + qty) (cash s - p * qty)
      ((avg_price s * inventory s + p * qty) / Qmax (inventory s + qty) eps)
      (realized s)
      (fills s ++ [("buy"%string, p, qty, t)])
      (mids s) (equity_curve s) (inv_curve s) (last_mid s).
Proof.
  intros Le. fill_step. now rewrite (Qle_bool_true _ _ Le).
Qed.

(** C7.  Position flip.  From a long position [q > 0] at average cost [a],
    a sell fill of [qty > q] at [p] adds [p * qty] to cash and
    [(p - a) * q] to realized PnL and leaves the position short [qty - q]
    at average cost [p].  In particular long 5 at 100, then sell 8 at 110,
    gives realized PnL 50 and a position short 3 at average cost 110. *)
Theorem sell_through_long_flips_short s p qty t :
  0 < inventory s -> inventory s < qty ->
  let s' := on_fill s "sell" p qty t in
  (cash s' == cash s + p * qty
   /\ realized s' == realized s + (p - avg_price s) * inventory s
   /\ inventory s' == - (qty - inventory s)
   /\ avg_price s' == p)
  /\ (inventory long5 == 5 /\ avg_price long5 == 100
      /\ realized (on_fill long5 "sell" 110 8 1) == 50
      /\ inventory (on_fill long5 "sell" 110 8 1) == - (3)
      /\ avg_price (on_fill long5 "sell" 110 8 1) == 110).
Proof.
  intros Pos Lt s'. split.
  - unfold s'. rewrite on_fill_sell_flip by assumption.
    cbn [cash realized inventory avg_price].
    repeat split; try reflexivity. ring.
  - vm_compute. repeat split; reflexivity.
Qed.

Lemma sell_through_long_flips_short_witness :
  0 < inventory long5 /\ inventory long5 < 8
  /\ cash (on_fill long5 "sell" 110 8 1) == cash long5 + 110 * 8
  /\ realized (on_fill long5 "sell" 110 8 1)
     == realized long5 + (110 - avg_price long5) * inventory long5
  /\ inventory (on_fill long5 "sell" 110 8 1) == - (8 - inventory long5)
  /\ avg_price (on_fill long5 "sell" 110 8 1) == 110.
Proof.
  assert (Pos : 0 < inventory long5) by reflexivity.
  assert (Lt : inventory long5 < 8) by reflexivity.
  split; [exact Pos|]. split; [exact Lt|].
  exact (proj1 (sell_through_long_flips_short long5 110 8 1 Pos Lt)).
Defined.

Lemma eps_pos : 0 < eps.
Proof. reflexivity. Qed.

(** C6, as the code has it.  A fill of positive quantity that brings a
    non-zero inventory back to exactly zero leaves the stored average cost
    as it was: nothing resets it.  The next fill, taken while flat, sets
    the average cost to [p * qty / max qty 1e-12], a value computed from
    that fill's price and quantity alone, so that two strategies that are
    both flat store the same average after the same fill whatever average
    each of them stored before. *)
Theorem average_cost_kept_when_flat s sd p qty t :
  0 < qty -> sd = "buy"%string \/ sd = "sell"%string ->
  let s' := on_fill s sd p qty t in
  (~ inventory s == 0 -> inventory s' == 0 -> avg_price s' = avg_price s)
  /\ (inventory s == 0 ->
      avg_price s' == p * qty / Qmax qty eps
      /\ forall s0, inventory s0 == 0 ->
           avg_price (on_fill s0 sd p qty t) == avg_price s').
Proof.
  intros Pos Sd s'. unfold s'. clear s'.
  assert (Mx : forall x, x == qty -> Qmax x eps == Qmax qty eps).
  { intros x E. now rewrite E. }
  split.
  - intros NZ Z. destruct Sd as [-> | ->].
    + destruct (Qlt_le_dec (inventory s) 0) as [Neg|NNeg].
      * destruct (Qlt_le_dec (- inventory s) qty) as [Fl|Cv].
        -- rewrite on_fill_buy_flip in Z by assumption.
           cbn [inventory] in Z. lra.
        -- now rewrite on_fill_buy_cover by assumption.
      * rewrite on_fill_buy_add in Z by assumption.
        cbn [inventory] in Z. lra.
    + destruct (Qlt_le_dec 0 (inventory s)) as [Lg|NLg].
      * destruct (Qlt_le_dec (inventory s) qty) as [Fl|Rd].
        -- rewrite on_fill_sell_flip in Z by assumption.
           cbn [inventory] in Z. lra.
        -- now rewrite on_fill_sell_reduce by assumption.
      * rewrite on_fill_sell_add in Z by assumption.
        cbn [inventory] in Z. lra.
  - assert (E : forall s1, inventory s1 == 0 ->
                avg_price (on_fill s1 sd p qty t)
                == p * qty / Qmax qty eps).
    { intros s1 Z. destruct Sd as [-> | ->].
      - rewrite on_fill_buy_add by lra. cbn [avg_price].
        rewrite (Mx (inventory s1 + qty)) by lra. rewrite Z.
        apply Qmult_comp; [ring | reflexivity].
      - rewrite on_fill_sell_add by lra. cbn [avg_price].
        rewrite (Mx (- (inventory s1 - qty))) by lra. rewrite Z.
        apply Qmult_comp; [ring | reflexivity]. }
    intros Z. split; [now apply E|].
    intros s0 Z0. now rewrite (E s0 Z0), (E s Z).
Qed.

Lemma average_cost_kept_when_flat_witness :
  0 < 10 /\ ~ inventory long10 == 0
  /\ inventory (on_fill long10 "sell" 105 10 1) == 0
  /\ avg_price (on_fill long10 "sell" 105 10 1) = avg_price long10
  /\ avg_price (on_fill (on_fill long10 "sell" 105 10 1) "buy" 90 10 2)
     == avg_price (on_fill init_state "buy" 90 10 2).
Proof.
  assert (Pos : 0 < 10) by reflexivity.
  assert (NZ : ~ inventory long10 == 0) by (intros E; discriminate E).
  assert (Z : inventory (on_fill long10 "sell" 105 10 1) == 0)
    by reflexivity.
  assert (Z0 : inventory init_state == 0) by reflexivity.
  split; [exact Pos|]. split; [exact NZ|]. split; [exact Z|]. split.
  - exact (proj1 (average_cost_kept_when_flat long10 "sell" 105 10 1 Pos
                    (or_intror eq_refl)) NZ Z).
  - exact (proj2 (proj2 (average_cost_kept_when_flat init_state "buy" 90 10
                           2 Pos (or_introl eq_refl)) Z0)
             (on_fill long10 "sell" 105 10 1) Z).
Defined.

(** Flat, buy 10 at 100, sell 10 at 105: the inventory is back at exactly
    zero with a realized PnL of 50, and the stored average cost is still
    100, not the 0 it started from. *)
Lemma average_cost_not_reset :
  inventory (on_fill long10 "sell" 105 10 1) == 0
  /\ realized (on_fill long10 "sell" 105 10 1) == 50
  /\ avg_price init_state == 0
  /\ avg_price (on_fill long10 "sell" 105 10 1) == 100
  /\ ~ avg_price (on_fill long10 "sell" 105 10 1) == 0.
Proof.
  split; [reflexivity|]. split; [reflexivity|]. split; [reflexivity|].
  split; [reflexivity|]. intros E. discriminate E.
Qed.

End MarketMakerFacts.

(** ** The replayer *)

Module ReplayerFacts.
Import LOB Replayer.

Lemma dispatch_unknown {S : Type} `{Strategy S} (r : Replayer S) ev t typ :
  typ <> "snapshot"%string -> typ <> "trade"%string ->
  dispatch r ev t typ = Ok r.
Proof.
  intros N1 N2. unfold dispatch.
  apply String.eqb_neq in N1, N2. now rewrite N1, N2.
Qed.

(** C10.  An event whose type is neither ['snapshot'] nor ['trade'] is
    ignored without an error: the branch on the type leaves the book, the
    strategy and the fills log as they were, and the loop body then calls
    [on_event] once, on that unchanged book; the recorded calls grow by
    this single [on_event] call and by no [on_fill] call. *)
Theorem unknown_kind_ignored {S : Type} `{Strategy S} (i : nat)
  (r : Replayer S) (rs : Replayer (S * list Call)) (ev : Event)
  (typ : string) :
  ev_type ev = Some typ ->
  typ <> "snapshot"%string -> typ <> "trade"%string ->
  let t := event_time i ev in
  dispatch r ev t typ = Ok r
  /\ step i r ev
     = Ok (mkReplayer (snd (on_event (strategy r) (ob r) t))
             (fst (on_event (strategy r) (ob r) t)) (stats_fills r))
  /\ @step _ Spy i rs ev
     = Ok (mkReplayer (snd (on_event (fst (strategy rs)) (ob rs) t))
             (fst (on_event (fst (strategy rs)) (ob rs) t),
              snd (strategy rs) ++ [CallEvent (ob rs) t])
             (stats_fills rs)).
Proof.
  intros T N1 N2 t. split; [now apply dispatch_unknown|]. split.
  - unfold step. rewrite T. simpl. fold t.
    rewrite dispatch_unknown by assumption.
    now destruct (on_event (strategy r) (ob r) t).
  - unfold step. rewrite T. simpl lookup. fold t.
    rewrite dispatch_unknown by assumption.
    simpl. now destruct (on_event (fst (strategy rs)) (ob rs) t).
Qed.

Lemma unknown_kind_ignored_witness :
  ev_type (mkEvent (Some "heartbeat"%string) None None None None None)
  = Some "heartbeat"%string
  /\ "heartbeat"%string <> "snapshot"%string
  /\ "heartbeat"%string <> "trade"%string
  /\ @step _ (@Spy _ (MM flat_std MarketMaker.default_config)) 3 fresh
       (mkEvent (Some "heartbeat"%string) None None None None None)
     = Ok (mkReplayer empty_book
             (MarketMaker.init_state, [CallEvent empty_book (3 # 1000)])
             []).
Proof.
  assert (N1 : "heartbeat"%string <> "snapshot"%string) by discriminate.
  assert (N2 : "heartbeat"%string <> "trade"%string) by discriminate.
  split; [reflexivity|]. split; [exact N1|]. split; [exact N2|].
  exact (proj2 (proj2
           (@unknown_kind_ignored _ (MM flat_std MarketMaker.default_config)
              3 (mkReplayer empty_book MarketMaker.init_state []) fresh
              (mkEvent (Some "heartbeat"%string) None None None None None)
              "heartbeat" eq_refl N1 N2))).
Defined.

(** *** The market maker's two curves *)

Lemma on_fill_curves s sd p qty t :
  MarketMaker.equity_curve (MarketMaker.on_fill s sd p qty t)
  = MarketMaker.equity_curve s
  /\ MarketMaker.inv_curve (MarketMaker.on_fill s sd p qty t)
     = MarketMaker.inv_curve s.
Proof.
  unfold MarketMaker.on_fill.
  repeat match goal with
         | |- context [if ?c then _ else _] => destruct c
         end; split; reflexivity.
Qed.

Lemma cancel_all_curves s b :
  MarketMaker.equity_curve (fst (MarketMaker.cancel_all s b))
  = MarketMaker.equity_curve s
  /\ MarketMaker.inv_curve (fst (MarketMaker.cancel_all s b))
     = MarketMaker.inv_curve s
  /\ MarketMaker.inventory (fst (MarketMaker.cancel_all s b))
     = MarketMaker.inventory s.
Proof.
  unfold MarketMaker.cancel_all.
  generalize (Dict.keys (MarketMaker.our_orders s)). intros ks.
  assert (G : forall sb,
             MarketMaker.equity_curve (fst (fold_left
               (fun (sb : MarketMaker.State * OrderBook) (id : Z) =>
                  (MarketMaker.set_our_orders (fst sb)
                     (Dict.del (MarketMaker.our_orders (fst sb)) id),
                   fst (cancel_order (snd sb) id))) ks sb))
             = MarketMaker.equity_curve (fst sb)
             /\ MarketMaker.inv_curve (fst (fold_left
               (fun (sb : MarketMaker.State * OrderBook) (id : Z) =>
                  (MarketMaker.set_our_orders (fst sb)
                     (Dict.del (MarketMaker.our_orders (fst sb)) id),
                   fst (cancel_order (snd sb) id))) ks sb))
             = MarketMaker.inv_curve (fst sb)
             /\ MarketMaker.inventory (fst (fold_left
               (fun (sb : MarketMaker.State * OrderBook) (id : Z) =>
                  (MarketMaker.set_our_orders (fst sb)
                     (Dict.del (MarketMaker.our_orders (fst sb)) id),
                   fst (cancel_order (snd sb) id))) ks sb))
             = MarketMaker.inventory (fst sb)).
  { induction ks as [|k ks IH]; intros sb; simpl; auto.
    destruct (IH (MarketMaker.set_our_orders (fst sb)
                    (Dict.del (MarketMaker.our_orders (fst sb)) k),
                  fst (cancel_order (snd sb) k))) as [E1 [E2 E3]].
    rewrite E1, E2, E3. auto. }
  apply (G (s, b)).
Qed.

Lemma place_quotes_curves cfg s b bid_px ask_px t :
  MarketMaker.equity_curve
    (fst (MarketMaker._place_quotes cfg s b bid_px ask_px t))
  = MarketMaker.equity_curve s
  /\ MarketMaker.inv_curve
       (fst (MarketMaker._place_quotes cfg s b bid_px ask_px t))
     = MarketMaker.inv_curve s.
Proof.
  unfold MarketMaker._place_quotes.
  destruct (cancel_all_curves s b) as [E1 [E2 E3]].
  destruct (MarketMaker.cancel_all s b) as [s1 b1]. simpl in E1, E2, E3.
  repeat match goal with
         | |- context [if ?c then _ else _] => destruct c
         | |- context [place_limit_order ?b ?sd ?p ?s ?t] =>
             destruct (place_limit_order b sd p s t)
         end; simpl; auto.
Qed.

Lemma on_event_curves np cfg s b t :
  length (MarketMaker.equity_curve (fst (MarketMaker.on_event np cfg s b t)))
  = (length (MarketMaker.equity_curve s)
     + if both_sides b then 1 else 0)%nat
  /\ length (MarketMaker.inv_curve (fst (MarketMaker.on_event np cfg s b t)))
     = (length (MarketMaker.inv_curve s)
        + if both_sides b then 1 else 0)%nat.
Proof.
  unfold MarketMaker.on_event, both_sides.
  destruct (top_of_book b) as [[bb|] [ba|]]; try (simpl; lia).
  cbv zeta.
  match goal with
  | |- context [MarketMaker._desired_quotes np cfg ?s0 ?m] =>
      destruct (MarketMaker._desired_quotes np cfg s0 m) as [db da]
  end.
  match goal with
  | |- context [MarketMaker._place_quotes cfg ?s0 b ?x ?y t] =>
      destruct (place_quotes_curves cfg s0 b x y t) as [E1 E2];
      destruct (MarketMaker._place_quotes cfg s0 b x y t) as [s1 b1]
  end.
  simpl in *. rewrite !length_app, E1, E2. simpl. lia.
Qed.

(** *** The calls any strategy receives *)

Section AnyStrategy.
Context {S : Type} `{Strategy S}.

Lemma notify_log t fills (r : Replayer (S * list Call)) :
  exists fs,
    Forall (fun c => is_event_call c = false) fs
    /\ snd (strategy (fold_left (@notify _ Spy t) fills r))
       = snd (strategy r) ++ fs.
Proof.
  revert r. induction fills as [|[[sd p] qty] fills IH]; intros r;
    cbn [fold_left].
  - exists []. now rewrite app_nil_r.
  - destruct (IH (@notify _ Spy t r (sd, p, qty))) as [fs [F G]].
    exists (CallFill sd p qty t :: fs). split; [constructor; auto|].
    rewrite G. simpl. now rewrite <- app_assoc.
Qed.

Lemma dispatch_log (r : Replayer (S * list Call)) ev t typ :
  ev_type ev = Some typ -> well_formed ev = true ->
  exists r1 fs,
    @dispatch _ Spy r ev t typ = Ok r1
    /\ Forall (fun c => is_event_call c = false) fs
    /\ snd (strategy r1) = snd (strategy r) ++ fs.
Proof.
  intros T W. unfold well_formed in W. rewrite T in W. unfold dispatch.
  destruct (typ =? "snapshot")%string.
  - destruct (ev_bids ev) as [bs|]; [|discriminate].
    destruct (ev_asks ev) as [as_|]; [|discriminate].
    simpl. eexists; exists []. split; [reflexivity|]. split; [constructor|].
    simpl. now rewrite app_nil_r.
  - destruct (typ =? "trade")%string.
    + destruct (ev_price ev) as [p|]; [|discriminate].
      destruct (ev_size ev) as [sz|]; [|discriminate].
      simpl. destruct (process_trade (ob r) p sz t) as [b' fills].
      destruct (notify_log t fills
                  (mkReplayer b' (strategy r) (stats_fills r)))
        as [fs [F G]].
      eexists; exists fs. split; [reflexivity|]. split; auto.
    + exists r, []. split; [reflexivity|]. split; [constructor|].
      now rewrite app_nil_r.
Qed.

Lemma step_log i (r : Replayer (S * list Call)) ev :
  well_formed ev = true ->
  exists r' fs b t,
    @step _ Spy i r ev = Ok r'
    /\ Forall (fun c => is_event_call c = false) fs
    /\ snd (strategy r') = snd (strategy r) ++ fs ++ [CallEvent b t].
Proof.
  intros W. unfold step.
  destruct (ev_type ev) as [typ|] eqn:T;
    [|unfold well_formed in W; rewrite T in W; discriminate].
  simpl lookup.
  destruct (dispatch_log r ev (event_time i ev) typ T W)
    as [r1 [fs [D [F G]]]].
  rewrite D. simpl.
  destruct (on_event (fst (strategy r1)) (ob r1) (event_time i ev))
    as [s' b'].
  eexists; exists fs, (ob r1), (event_time i ev).
  split; [reflexivity|]. split; auto.
  simpl. now rewrite G, <- app_assoc.
Qed.

Lemma run_from_log events :
  forall i max_events (r : Replayer (S * list Call)),
    forallb well_formed events = true ->
    exists r' new,
      @run_from _ Spy i max_events events r = Ok r'
      /\ snd (strategy r') = snd (strategy r) ++ new
      /\ event_blocks (processed_from i max_events events) new.
Proof.
  induction events as [|ev events IH]; intros i max_events r W; simpl.
  - exists r, []. rewrite app_nil_r. repeat split. constructor.
  - destruct (max_events <=? Z.of_nat i)%Z.
    + exists r, []. rewrite app_nil_r. repeat split. constructor.
    + simpl in W. apply andb_true_iff in W. destruct W as [W1 W2].
      destruct (step_log i r ev W1) as [r1 [fs [b [t [St [F G]]]]]].
      rewrite St.
      destruct (IH (Datatypes.S i) max_events r1 W2) as [r' [new [R [L B]]]].
      exists r', (fs ++ CallEvent b t :: new).
      split; [exact R|]. split; [|now constructor].
      rewrite L, G, <- !app_assoc. reflexivity.
Qed.

End AnyStrategy.

(** *** Runs with the market maker, every call recorded *)

Section SpiedRuns.
Variable np : list Q -> Q.
Variable cfg : MarketMaker.Config.

Let spied : Strategy (MarketMaker.State * list Call) := @Spy _ (MM np cfg).

(** The log grew by [new], and the curves by [k] points each. *)
Let grew (r r' : Replayer (MarketMaker.State * list Call))
  (new : list Call) (k : nat) : Prop :=
  snd (strategy r') = snd (strategy r) ++ new
  /\ length (MarketMaker.equity_curve (fst (strategy r')))
     = (length (MarketMaker.equity_curve (fst (strategy r))) + k)%nat
  /\ length (MarketMaker.inv_curve (fst (strategy r')))
     = (length (MarketMaker.inv_curve (fst (strategy r))) + k)%nat.

Lemma notify_fold t fills (r : Replayer (MarketMaker.State * list Call)) :
  exists fs,
    Forall (fun c => is_event_call c = false) fs
    /\ grew r (fold_left (@notify _ spied t) fills r) fs 0.
Proof.
  revert r. induction fills as [|[[sd p] qty] fills IH]; intros r;
    cbn [fold_left].
  - exists []. unfold grew. rewrite app_nil_r. auto.
  - destruct (IH (@notify _ spied t r (sd, p, qty))) as [fs [F [G1 [G2 G3]]]].
    exists (CallFill sd p qty t :: fs). split; [constructor; auto|].
    unfold grew. rewrite G1, G2, G3. simpl.
    destruct (on_fill_curves (fst (strategy r)) sd (inject_Z p)
                (inject_Z qty) t) as [E1 E2].
    rewrite E1, E2, <- app_assoc. auto.
Qed.

Lemma dispatch_spied (r : Replayer (MarketMaker.State * list Call)) ev t typ :
  ev_type ev = Some typ -> well_formed ev = true ->
  exists r1 fs,
    @dispatch _ spied r ev t typ = Ok r1
    /\ Forall (fun c => is_event_call c = false) fs
    /\ grew r r1 fs 0.
Proof.
  intros T W. unfold well_formed in W. rewrite T in W. unfold dispatch.
  destruct (typ =? "snapshot")%string.
  - destruct (ev_bids ev) as [bs|]; [|discriminate].
    destruct (ev_asks ev) as [as_|]; [|discriminate].
    simpl. eexists; exists []. split; [reflexivity|]. split; [constructor|].
    unfold grew. simpl. rewrite app_nil_r. auto.
  - destruct (typ =? "trade")%string.
    + destruct (ev_price ev) as [p|]; [|discriminate].
      destruct (ev_size ev) as [sz|]; [|discriminate].
      simpl. destruct (process_trade (ob r) p sz t) as [b' fills].
      destruct (notify_fold t fills
                  (mkReplayer b' (strategy r) (stats_fills r)))
        as [fs [F G]].
      eexists; exists fs. split; [reflexivity|]. split; auto.
    + exists r, []. split; [reflexivity|]. split; [constructor|].
      unfold grew. rewrite app_nil_r. auto.
Qed.

Lemma step_spied i (r : Replayer (MarketMaker.State * list Call)) ev :
  well_formed ev = true ->
  exists r' fs b t,
    @step _ spied i r ev = Ok r'
    /\ Forall (fun c => is_event_call c = false) fs
    /\ grew r r' (fs ++ [CallEvent b t]) (if both_sides b then 1 else 0).
Proof.
  intros W. unfold step.
  destruct (ev_type ev) as [typ|] eqn:T;
    [|unfold well_formed in W; rewrite T in W; discriminate].
  simpl lookup.
  destruct (dispatch_spied r ev (event_time i ev) typ T W)
    as [r1 [fs [D [F [G1 [G2 G3]]]]]].
  rewrite D. simpl.
  destruct (on_event_curves np cfg (fst (strategy r1)) (ob r1)
              (event_time i ev)) as [E1 E2].
  destruct (MarketMaker.on_event np cfg (fst (strategy r1)) (ob r1)
              (event_time i ev)) as [s' b'].
  eexists; exists fs, (ob r1), (event_time i ev).
  split; [reflexivity|]. split; auto.
  unfold grew. simpl in *. rewrite G1, E1, E2, G2, G3, <- app_assoc.
  repeat split; lia.
Qed.

Lemma quoted_app l1 l2 : quoted (l1 ++ l2) = (quoted l1 + quoted l2)%nat.
Proof. unfold quoted. now rewrite filter_app, length_app. Qed.

Lemma quoted_fills fs :
  Forall (fun c => is_event_call c = false) fs -> quoted fs = O.
Proof.
  induction 1 as [|c fs C F IH]; auto.
  unfold quoted in *. simpl. destruct c; [exact IH | discriminate C].
Qed.

Lemma quoted_block fs b t :
  Forall (fun c => is_event_call c = false) fs ->
  quoted (fs ++ [CallEvent b t]) = if both_sides b then 1%nat else O.
Proof.
  intros F. rewrite quoted_app, quoted_fills by assumption.
  unfold quoted. simpl. now destruct (both_sides b).
Qed.

Lemma quoted_bound n log : event_blocks n log -> (quoted log <= n)%nat.
Proof.
  induction 1 as [|n fs b t rest F B IH]; [unfold quoted; simpl; lia|].
  change (fs ++ CallEvent b t :: rest)
    with (fs ++ [CallEvent b t] ++ rest).
  rewrite app_assoc, quoted_app, quoted_block by assumption.
  destruct (both_sides b); lia.
Qed.

Lemma processed_from_min i max_events events :
  processed_from i max_events events
  = Nat.min (length events) (Z.to_nat (max_events - Z.of_nat i)).
Proof.
  revert i. induction events as [|ev events IH]; intros i; simpl; auto.
  destruct (max_events <=? Z.of_nat i)%Z eqn:E.
  - apply Z.leb_le in E.
    replace (Z.to_nat (max_events - Z.of_nat i)) with O by lia. reflexivity.
  - apply Z.leb_gt in E. rewrite IH.
    replace (Z.to_nat (max_events - Z.of_nat i))
      with (Datatypes.S (Z.to_nat (max_events - Z.of_nat (Datatypes.S i))))
      by lia.
    reflexivity.
Qed.

Lemma run_from_spied events :
  forall i max_events (r : Replayer (MarketMaker.State * list Call)),
    forallb well_formed events = true ->
    exists r' new,
      @run_from _ spied i max_events events r = Ok r'
      /\ event_blocks (processed_from i max_events events) new
      /\ grew r r' new (quoted new).
Proof.
  induction events as [|ev events IH]; intros i max_events r W; simpl.
  - exists r, []. split; [reflexivity|]. split; [constructor|].
    unfold grew, quoted. simpl. rewrite app_nil_r. repeat split; lia.
  - destruct (max_events <=? Z.of_nat i)%Z.
    + exists r, []. split; [reflexivity|]. split; [constructor|].
      unfold grew, quoted. simpl. rewrite app_nil_r. repeat split; lia.
    + simpl in W. apply andb_true_iff in W. destruct W as [W1 W2].
      destruct (step_spied i r ev W1) as [r1 [fs [b [t [St [F [G1 [G2 G3]]]]]]]].
      rewrite St.
      destruct (IH (Datatypes.S i) max_events r1 W2)
        as [r' [new [R [B [H1 [H2 H3]]]]]].
      exists r', (fs ++ CallEvent b t :: new).
      split; [exact R|]. split; [now constructor|].
      change (fs ++ CallEvent b t :: new)
        with (fs ++ [CallEvent b t] ++ new).
      rewrite (app_assoc fs), quoted_app, quoted_block by assumption.
      unfold grew. rewrite H1, H2, H3, G1, G2, G3, <- !app_assoc. simpl.
      repeat split; lia.
Qed.

(** C8, as the code has it.  Over well-formed events the run ends without
    an error, whatever the strategy, and the calls it makes to the strategy
    are one block per processed event, each block being the [on_fill] calls
    of the event followed by exactly one [on_event] call; it processes the
    first [max_events] events.  With the market maker as the strategy, the
    equity and the inventory series each gain one point for every processed
    event whose [on_event] call found both a best bid and a best ask, and
    none for the others, so the two series grow by the same number of
    points, which is at most the number of processed events. *)
Theorem on_event_once_curves_when_quoted (max_events : Z)
  (events : list Event) (r : Replayer (MarketMaker.State * list Call)) :
  forallb well_formed events = true ->
  processed_from 0 max_events events
  = Nat.min (length events) (Z.to_nat max_events)
  /\ (forall (S : Type) (strat : Strategy S) (rs : Replayer (S * list Call)),
      exists r' new,
        @run _ (@Spy S strat) max_events events rs = Ok r'
        /\ snd (strategy r') = snd (strategy rs) ++ new
        /\ event_blocks (processed_from 0 max_events events) new)
  /\ exists r' new,
       @run _ spied max_events events r = Ok r'
       /\ snd (strategy r') = snd (strategy r) ++ new
       /\ event_blocks (processed_from 0 max_events events) new
       /\ length (MarketMaker.equity_curve (fst (strategy r')))
          = (length (MarketMaker.equity_curve (fst (strategy r)))
             + quoted new)%nat
       /\ length (MarketMaker.inv_curve (fst (strategy r')))
          = (length (MarketMaker.inv_curve (fst (strategy r)))
             + quoted new)%nat
       /\ (quoted new <= processed_from 0 max_events events)%nat.
Proof.
  intros W. split; [|split].
  - rewrite processed_from_min. f_equal. simpl. lia.
  - intros S strat rs. unfold run.
    exact (@run_from_log S strat events 0%nat max_events rs W).
  - unfold run.
    destruct (run_from_spied events 0 max_events r W)
      as [r' [new [R [B [G1 [G2 G3]]]]]].
    exists r', new. repeat split; auto. now apply quoted_bound.
Qed.

End SpiedRuns.

Lemma on_event_once_curves_when_quoted_witness :
  forallb well_formed demo_events = true
  /\ exists r' new,
       spied_run 10000 demo_events = Ok r'
       /\ snd (strategy r') = snd (strategy fresh) ++ new
       /\ event_blocks (processed_from 0 10000 demo_events) new
       /\ length (MarketMaker.equity_curve (fst (strategy r')))
          = (length (MarketMaker.equity_curve (fst (strategy fresh)))
             + quoted new)%nat
       /\ length (MarketMaker.inv_curve (fst (strategy r')))
          = (length (MarketMaker.inv_curve (fst (strategy fresh)))
             + quoted new)%nat
       /\ (quoted new <= processed_from 0 10000 demo_events)%nat.
Proof.
  assert (W : forallb well_formed demo_events = true) by reflexivity.
  split; [exact W|].
  exact (proj2 (proj2 (on_event_once_curves_when_quoted flat_std
                         MarketMaker.default_config 10000 demo_events
                         fresh W))).
Defined.

(** One trade event on an empty book: the event is processed and
    [on_event] is called once, but with no bid and no ask it returns at
    once, and neither series gets a point. *)
Lemma curves_miss_one_sided_events :
  exists r',
    spied_run 10000 [trade_event 100 1 0] = Ok r'
    /\ processed_from 0 10000 [trade_event 100 1 0] = 1%nat
    /\ snd (strategy r') = [CallEvent (ob r') 0]
    /\ MarketMaker.equity_curve (fst (strategy r')) = []
    /\ MarketMaker.inv_curve (fst (strategy r')) = []
    /\ length (MarketMaker.equity_curve (fst (strategy r'))) <> 1%nat.
Proof.
  eexists. split; [reflexivity|]. simpl.
  split; [reflexivity|]. split; [reflexivity|].
  split; [reflexivity|]. split; [reflexivity|]. discriminate.
Qed.

End ReplayerFacts.

(** ** More on the order book *)

Module LOBExtra.
Import LOB LOBFacts.

(** *** The level lists *)

(** X1.  After every operation of any sequence run from the empty book both
    level lists are strictly ascending, hence free of repeats (the bid
    list too: [top_of_book] reads its maximum). *)
Theorem level_lists_ascending (ops : list Op) (n : nat) :
  let b := run_ops (firstn n ops) empty_book in
  StronglySorted Z.lt (bid_prices b) /\ StronglySorted Z.lt (ask_prices b)
  /\ NoDup (bid_prices b) /\ NoDup (ask_prices b).
Proof.
  intros b.
  destruct (run_ops_inv (firstn n ops) empty_book empty_book_inv)
    as [[_ [SB _]] [_ [SA _]]].
  fold b in SB, SA. repeat split; auto using sorted_NoDup.
Qed.

(** *** Top of book *)

Lemma side_empty_iff d prices :
  side_inv d prices -> (prices = [] <-> all_orders d = []).
Proof.
  intros INV. pose proof (side_inv_keys d prices INV) as P.
  destruct INV as [ND [SS [PL KL]]]. split.
  - intros ->. apply Permutation_nil in P.
    destruct d; [reflexivity | discriminate P].
  - intros E. destruct prices as [|p ps]; auto. exfalso.
    assert (L : level d p <> []) by (apply PL; now left).
    destruct (level d p) as [|o q] eqn:Lp; [congruence|].
    assert (I : In o (all_orders d)).
    { apply all_orders_in; auto. exists p. rewrite Lp. now left. }
    rewrite E in I. destruct I.
Qed.

(** X2.  On a book that satisfies the invariant the best bid is the highest
    price whose bid queue is not empty and the best ask the lowest price
    whose ask queue is not empty; a side reads [None] exactly when no order
    rests on it. *)
Theorem top_of_book_is_best b :
  lob_inv b ->
  (forall m, fst (top_of_book b) = Some m <->
             level (bids b) m <> []
             /\ forall p, level (bids b) p <> [] -> p <= m)
  /\ (forall m, snd (top_of_book b) = Some m <->
                level (asks b) m <> []
                /\ forall p, level (asks b) p <> [] -> m <= p)
  /\ (fst (top_of_book b) = None <-> all_orders (bids b) = [])
  /\ (snd (top_of_book b) = None <-> all_orders (asks b) = []).
Proof.
  intros [IB IA]. unfold top_of_book. simpl.
  pose proof IB as [_ [_ [PB _]]]. pose proof IA as [_ [_ [PA _]]].
  repeat split.
  - apply py_max_spec in H. now apply PB.
  - apply py_max_spec in H. intros p L. apply H. now apply PB.
  - intros [L M]. apply py_max_spec. split; [now apply PB|].
    intros y I. apply M. now apply PB.
  - apply py_min_spec in H. now apply PA.
  - apply py_min_spec in H. intros p L. apply H. now apply PA.
  - intros [L M]. apply py_min_spec. split; [now apply PA|].
    intros y I. apply M. now apply PA.
  - intros E. apply (side_empty_iff _ _ IB).
    destruct (bid_prices b); [reflexivity | discriminate E].
  - intros E. apply (side_empty_iff _ _ IB) in E. now rewrite E.
  - intros E. apply (side_empty_iff _ _ IA).
    destruct (ask_prices b); [reflexivity | discriminate E].
  - intros E. apply (side_empty_iff _ _ IA) in E. now rewrite E.
Qed.

Lemma top_of_book_is_best_witness :
  lob_inv demo_book
  /\ fst (top_of_book demo_book) = Some 99
  /\ level (bids demo_book) 99 <> []
  /\ snd (top_of_book demo_book) = Some 101
  /\ level (asks demo_book) 101 <> [].
Proof.
  pose proof demo_book_inv as I.
  destruct (top_of_book_is_best demo_book I) as [B [A _]].
  split; [exact I|]. split; [reflexivity|].
  split; [exact (proj1 (proj1 (B 99) eq_refl))|].
  split; [reflexivity|].
  exact (proj1 (proj1 (A 101) eq_refl)).
Defined.

(** *** Order identifiers *)

Lemma residual_member q r o :
  fifo_residual q r -> In o r ->
  exists o', In o' q /\ oid o' = oid o /\ side o' = side o
             /\ price o' = price o /\ size o <= size o'.
Proof.
  induction 1 as [q|o0 s q B|o0 q r R IH]; intros I.
  - exists o. repeat split; auto. lia.
  - destruct I as [<-|I].
    + exists o0. simpl. split; [now left|]. repeat split; auto. lia.
    + exists o. split; [now right|]. repeat split; auto. lia.
  - destruct (IH I) as [o' [J E]]. exists o'. split; auto. now right.
Qed.

Lemma apply_snapshot_fresh b bs as_ t :
  0 < next_oid b -> ids_fresh (apply_snapshot b bs as_ t).
Proof.
  intros P. split; [exact P|]. intros dir p o I.
  destruct dir; simpl in I; rewrite install_level in I;
    destruct (last_size _ p); try destruct I as [<-|[]]; try destruct I;
    simpl; lia.
Qed.

Lemma store_tail_members d p o x y :
  In y (level (Dict.set d p (level d p ++ [o])) x) ->
  y = o \/ In y (level d x).
Proof.
  destruct (Z.eq_dec p x) as [->|N].
  - rewrite level_set_same. intros I. apply in_app_or in I.
    destruct I as [I|[<-|[]]]; auto.
  - rewrite level_set_other by auto. auto.
Qed.

Lemma place_limit_order_fresh b sd p s t :
  ids_fresh b -> ids_fresh (fst (place_limit_order b sd p s t)).
Proof.
  intros [P F]. unfold place_limit_order.
  destruct (sd =? "bid")%string; (split; [simpl; lia|]);
    intros dir x o I; destruct dir; simpl in I |- *.
  - specialize (F Asks x o I). simpl in F. lia.
  - apply store_tail_members in I. destruct I as [->|I]; [simpl; lia|].
    specialize (F Bids x o I). lia.
  - apply store_tail_members in I. destruct I as [->|I]; [simpl; lia|].
    specialize (F Asks x o I). lia.
  - specialize (F Bids x o I). simpl in F. lia.
Qed.

Lemma cancel_side_members id prices d prices' d' x o :
  side_inv d prices -> cancel_side id prices d = Some (prices', d') ->
  In o (level d' x) -> In o (level d x).
Proof.
  intros INV C I.
  assert (H : has_oid id d = true).
  { destruct (has_oid id d) eqn:E; auto.
    rewrite (cancel_side_none id prices d E) in C. discriminate. }
  destruct (cancel_side_spec id prices d INV H)
    as [ps [d0 [p [l1 [o' [l2 [C' [_ [L [_ [_ [L' [Lx _]]]]]]]]]]]]].
  rewrite C in C'. inversion C'; subst ps d0.
  destruct (Z.eq_dec x p) as [->|N].
  - rewrite L' in I. rewrite L.
    apply in_app_or in I. apply in_or_app. simpl. tauto.
  - now rewrite Lx in I by auto.
Qed.

Lemma cancel_order_members b id dir x o :
  lob_inv b ->
  In o (level (half dir (fst (cancel_order b id))) x) ->
  In o (level (half dir b) x).
Proof.
  intros [IB IA]. unfold cancel_order.
  destruct (cancel_side id (bid_prices b) (bids b)) as [[ps d]|] eqn:C1.
  - destruct dir; simpl; auto. apply (cancel_side_members _ _ _ _ _ _ _ IB C1).
  - destruct (cancel_side id (ask_prices b) (asks b)) as [[ps d]|] eqn:C2.
    + destruct dir; simpl; auto.
      apply (cancel_side_members _ _ _ _ _ _ _ IA C2).
    + auto.
Qed.

Lemma cancel_order_counter b id :
  next_oid (fst (cancel_order b id)) = next_oid b.
Proof.
  unfold cancel_order.
  destruct (cancel_side id (bid_prices b) (bids b)) as [[ps d]|]; auto.
  destruct (cancel_side id (ask_prices b) (asks b)) as [[ps d]|]; auto.
Qed.

Lemma process_trade_counter b price sz t :
  next_oid (fst (process_trade b price sz t)) = next_oid b.
Proof.
  rewrite process_trade_unfold.
  destruct (crosses Asks (ask_prices b) price); auto.
  destruct (crosses Bids (bid_prices b) price); auto.
Qed.

Lemma apply_op_fresh b op : lob_inv b -> ids_fresh b -> ids_fresh (apply_op b op).
Proof.
  intros INV [P F]. destruct op as [bs as_ t|sd p s t|id|pr sz t]; simpl.
  - now apply apply_snapshot_fresh.
  - now apply place_limit_order_fresh.
  - split; rewrite cancel_order_counter; auto.
    intros dir p o I. apply (F dir p).
    eapply cancel_order_members; eauto.
  - split; rewrite process_trade_counter; auto.
    intros dir p o I.
    destruct (residual_member _ _ o
                (process_trade_residual b pr sz t dir p INV) I)
      as [o' [J [E _]]].
    rewrite <- E. now apply (F dir p).
Qed.

Lemma has_oid_false_iff id d :
  NoDup (Dict.keys d) ->
  (has_oid id d = false <-> forall p o, In o (level d p) -> oid o <> id).
Proof.
  intros ND. unfold has_oid. split.
  - intros H p o I E.
    assert (T : existsb (fun o => oid o =? id) (flat_map snd d) = true).
    { apply existsb_exists. exists o. split; [|now apply Z.eqb_eq].
      apply (all_orders_in d o ND). eauto. }
    unfold queue in *. congruence.
  - intros H.
    destruct (existsb (fun o => oid o =? id) (flat_map snd d)) eqn:E; auto.
    apply existsb_exists in E. destruct E as [o [I E]].
    apply Z.eqb_eq in E. apply (all_orders_in d o ND) in I.
    destruct I as [p I]. exfalso. eapply H; eauto.
Qed.

Lemma fresh_unused b :
  lob_inv b -> ids_fresh b ->
  has_oid (next_oid b) (bids b) = false
  /\ has_oid (next_oid b) (asks b) = false.
Proof.
  intros [IB IA] [P F]. split.
  - apply has_oid_false_iff; [apply IB|]. intros p o I.
    specialize (F Bids p o I). lia.
  - apply has_oid_false_iff; [apply IA|]. intros p o I.
    specialize (F Asks p o I). lia.
Qed.

Lemma run_ops_fresh ops b :
  lob_inv b -> ids_fresh b -> ids_fresh (run_ops ops b).
Proof.
  revert b. induction ops as [|op ops IH]; intros b INV FR; simpl; auto.
  apply IH; [now apply apply_op_inv | now apply apply_op_fresh].
Qed.

Lemma empty_book_fresh : ids_fresh empty_book.
Proof.
  split; [simpl; lia|]. intros dir p o I. destruct dir; destruct I.
Qed.

(** X3.  After any sequence of operations run from the empty book every
    resting order bears an identifier from 0 up to, and not including, the
    counter, so the identifier the next placement will return is borne by
    no resting order; a placement returns the counter and advances it by
    one. *)
Theorem identifiers_fresh (ops : list Op) :
  let b := run_ops ops empty_book in
  ids_fresh b
  /\ has_oid (next_oid b) (bids b) = false
  /\ has_oid (next_oid b) (asks b) = false
  /\ forall sd p s t,
       snd (place_limit_order b sd p s t) = next_oid b
       /\ next_oid (fst (place_limit_order b sd p s t)) = next_oid b + 1.
Proof.
  intros b.
  assert (INV : lob_inv b) by apply run_ops_inv, empty_book_inv.
  assert (FR : ids_fresh b)
    by (apply run_ops_fresh; [apply empty_book_inv | apply empty_book_fresh]).
  destruct (fresh_unused b INV FR) as [U1 U2].
  split; [exact FR|]. split; [exact U1|]. split; [exact U2|].
  intros sd p s t. unfold place_limit_order.
  destruct (sd =? "bid")%string; split; reflexivity.
Qed.

(** *** Placing and then cancelling *)

Lemma set_set (d : half_book) k v v' :
  Dict.set (Dict.set d k v) k v' = Dict.set d k v'.
Proof.
  induction d as [|[k0 v0] d IH]; simpl.
  - now rewrite Z.eqb_refl.
  - destruct (k0 =? k) eqn:E; simpl.
    + now rewrite Z.eqb_refl.
    + now rewrite E, IH.
Qed.

Lemma set_same (d : half_book) k v :
  Dict.get d k = Some v -> Dict.set d k v = d.
Proof.
  induction d as [|[k0 v0] d IH]; simpl; [discriminate|].
  destruct (k0 =? k) eqn:E.
  - apply Z.eqb_eq in E. intros H; inversion H; now subst.
  - intros H. now rewrite IH.
Qed.

Lemma del_set_fresh (d : half_book) k v :
  ~ In k (Dict.keys d) -> Dict.del (Dict.set d k v) k = d.
Proof.
  induction d as [|[k0 v0] d IH]; simpl; intros NI.
  - now rewrite Z.eqb_refl.
  - destruct (k0 =? k) eqn:E.
    + apply Z.eqb_eq in E. tauto.
    + simpl. rewrite E. f_equal. apply IH. tauto.
Qed.

Lemma list_remove_insort p l : ~ In p l -> list_remove p (insort l p) = l.
Proof.
  induction l as [|y l IH]; simpl; intros NI.
  - now rewrite Z.eqb_refl.
  - destruct (p <? y); simpl.
    + now rewrite Z.eqb_refl.
    + destruct (y =? p) eqn:E.
      * apply Z.eqb_eq in E. tauto.
      * f_equal. apply IH. tauto.
Qed.

Lemma list_remove_insert p l :
  ~ In p l -> list_remove p (_insert_price l p) = l.
Proof.
  intros NI. unfold _insert_price.
  destruct (existsb (Z.eqb p) l) eqn:E.
  - apply existsb_eqb in E. contradiction.
  - destruct l as [|y l]; [simpl; now rewrite Z.eqb_refl|].
    now apply list_remove_insort.
Qed.

Lemma insert_price_listed p l : In p l -> _insert_price l p = l.
Proof.
  intros I. unfold _insert_price.
  now rewrite (proj2 (existsb_eqb p l) I).
Qed.

Lemma remove_oid_tail id q o :
  (forall x, In x q -> oid x <> id) -> oid o = id ->
  remove_oid id (q ++ [o]) = q.
Proof.
  intros N E. induction q as [|y q IH]; simpl.
  - apply Z.eqb_eq in E. now rewrite E.
  - destruct (oid y =? id) eqn:Ey.
    + apply Z.eqb_eq in Ey. exfalso. apply (N y); auto. now left.
    + f_equal. apply IH. intros x I. apply N. now right.
Qed.

Lemma find_oid_tail id (d : half_book) p q o :
  has_oid id d = false -> oid o = id ->
  find_oid id (Dict.set d p (q ++ [o])) = Some (p, q ++ [o]).
Proof.
  intros H E.
  assert (T : existsb (fun x => oid x =? id) (q ++ [o]) = true).
  { rewrite existsb_app. simpl. apply Z.eqb_eq in E. rewrite E.
    now rewrite orb_true_r. }
  unfold has_oid in H. induction d as [|[k v] d IH]; simpl.
  - now rewrite T.
  - simpl in H. rewrite existsb_app in H. apply orb_false_iff in H.
    destruct H as [Hv Hd]. destruct (k =? p); simpl.
    + now rewrite T.
    + rewrite Hv. now apply IH.
Qed.

(** Storing a fresh order at the tail of a level and cancelling it again
    gives back the half-book and its level list. *)
Lemma place_cancel_side d prices p o :
  side_inv d prices -> has_oid (oid o) d = false ->
  cancel_side (oid o) (_insert_price prices p)
    (Dict.set d p (level d p ++ [o]))
  = Some (prices, d).
Proof.
  intros INV H. pose proof INV as [ND [SS [PL KL]]].
  unfold cancel_side. rewrite (find_oid_tail _ d p _ o H eq_refl).
  rewrite remove_oid_tail; auto.
  2:{ intros x I. eapply (proj1 (has_oid_false_iff (oid o) d ND)); eauto. }
  rewrite set_set. unfold _remove_price_if_empty. rewrite level_set_same.
  destruct (level d p) as [|o1 q1] eqn:L.
  - assert (NK : ~ In p (Dict.keys d)).
    { intros I. apply KL in I. congruence. }
    assert (NP : ~ In p prices).
    { intros I. apply PL in I. congruence. }
    now rewrite list_remove_insert, del_set_fresh.
  - assert (IP : In p prices) by (apply PL; rewrite L; discriminate).
    rewrite insert_price_listed by assumption.
    rewrite set_same; auto.
    unfold level in L. destruct (Dict.get d p); [now subst | discriminate].
Qed.

(** X4.  Place, then cancel.  On a book that satisfies the invariant and
    whose counter is borne by no resting order, cancelling the identifier a
    placement has just returned answers [True] and gives back the book as
    it was before the placement, but for the advanced counter and the
    time. *)
Theorem place_then_cancel b sd p s t :
  lob_inv b ->
  has_oid (next_oid b) (bids b) = false ->
  has_oid (next_oid b) (asks b) = false ->
  cancel_order (fst (place_limit_order b sd p s t))
    (snd (place_limit_order b sd p s t))
  = (mkBook (bids b) (asks b) (bid_prices b) (ask_prices b)
       (next_oid b + 1) t, true).
Proof.
  intros [IB IA] HB HA. unfold place_limit_order.
  destruct (sd =? "bid")%string; unfold cancel_order; simpl.
  - pose proof (place_cancel_side (bids b) (bid_prices b) p
                  (mkOrder (next_oid b) sd p s t) IB HB) as E.
    cbn [oid] in E. now rewrite E.
  - rewrite (cancel_side_none _ (bid_prices b) _ HB).
    pose proof (place_cancel_side (asks b) (ask_prices b) p
                  (mkOrder (next_oid b) sd p s t) IA HA) as E.
    cbn [oid] in E. now rewrite E.
Qed.

Lemma place_then_cancel_witness :
  lob_inv quoted_book
  /\ has_oid (next_oid quoted_book) (bids quoted_book) = false
  /\ has_oid (next_oid quoted_book) (asks quoted_book) = false
  /\ cancel_order (fst (place_limit_order quoted_book "bid" 97 4 5))
       (snd (place_limit_order quoted_book "bid" 97 4 5))
     = (mkBook (bids quoted_book) (asks quoted_book)
          (bid_prices quoted_book) (ask_prices quoted_book)
          (next_oid quoted_book + 1) 5, true).
Proof.
  pose proof quoted_book_inv as I.
  assert (HB : has_oid (next_oid quoted_book) (bids quoted_book) = false)
    by reflexivity.
  assert (HA : has_oid (next_oid quoted_book) (asks quoted_book) = false)
    by reflexivity.
  split; [exact I|]. split; [exact HB|]. split; [exact HA|].
  exact (place_then_cancel quoted_book "bid" 97 4 5 I HB HA).
Defined.

(** *** Placement never matches *)

Lemma py_max_insert l p :
  py_max (_insert_price l p)
  = Some (match py_max l with Some m => Z.max m p | None => p end).
Proof.
  apply py_max_spec. destruct (py_max l) as [m|] eqn:E.
  - apply py_max_spec in E. destruct E as [I M]. split.
    + apply insert_price_in.
      destruct (Z.max_spec m p) as [[_ ->]|[_ ->]]; auto.
    + intros y J. apply insert_price_in in J. destruct J as [->|J]; [lia|].
      specialize (M y J). lia.
  - destruct l; [|discriminate]. split; [now left|].
    intros y [<-|[]]. lia.
Qed.

Lemma py_min_insert l p :
  py_min (_insert_price l p)
  = Some (match py_min l with Some m => Z.min m p | None => p end).
Proof.
  apply py_min_spec. destruct (py_min l) as [m|] eqn:E.
  - apply py_min_spec in E. destruct E as [I M]. split.
    + apply insert_price_in.
      destruct (Z.min_spec m p) as [[_ ->]|[_ ->]]; auto.
    + intros y J. apply insert_price_in in J. destruct J as [->|J]; [lia|].
      specialize (M y J). lia.
  - destruct l; [|discriminate]. split; [now left|].
    intros y [<-|[]]. lia.
Qed.

(** X5.  A placement only rests.  The order, bearing the counter as its
    identifier, joins the tail of the queue at its price on the bid side
    when its side string is ['bid'] and on the ask side for any other
    string, and that price is listed; every other level of that side and
    the whole opposite side stay as they are, whatever the price, so an
    order that crosses the opposite best price is not matched; the best
    price of its side becomes the better of the old best and the new
    price. *)
Theorem placement_only_rests b sd p s t :
  let b' := fst (place_limit_order b sd p s t) in
  let dir := placed_on sd in
  level (half dir b') p
  = level (half dir b) p ++ [mkOrder (next_oid b) sd p s t]
  /\ In p (levels dir b')
  /\ snd (place_limit_order b sd p s t) = next_oid b
  /\ half (other dir) b' = half (other dir) b
  /\ levels (other dir) b' = levels (other dir) b
  /\ (forall x, x <> p -> level (half dir b') x = level (half dir b) x)
  /\ best dir (levels dir b')
     = Some (match best dir (levels dir b) with
             | Some m => match dir with Asks => Z.min m p | Bids => Z.max m p end
             | None => p
             end)
  /\ top_of_book b'
     = match dir with
       | Bids => (best Bids (levels Bids b'), snd (top_of_book b))
       | Asks => (fst (top_of_book b), best Asks (levels Asks b'))
       end.
Proof.
  cbv zeta. split; [apply place_limit_order_tail|].
  unfold place_limit_order, placed_on, top_of_book.
  destruct (sd =? "bid")%string; simpl; repeat split; auto.
  - apply insert_price_in. now left.
  - intros x N. now apply level_set_other.
  - rewrite py_max_insert. now destruct (py_max (bid_prices b)).
  - apply insert_price_in. now left.
  - intros x N. now apply level_set_other.
  - rewrite py_min_insert. now destruct (py_min (ask_prices b)).
Qed.

(** *** When a trade stops *)

Lemma fifo_left_fills tg os sz :
  fifo_left os sz = sz - fills_qty (fifo_fills tg os sz).
Proof.
  revert sz. induction os as [|[p o] os IH]; intros sz; simpl.
  - unfold fills_qty. simpl. lia.
  - destruct (0 <? sz) eqn:E.
    + destruct (size o <=? sz) eqn:L.
      * apply Z.leb_le in L.
        replace (Z.min (size o) sz) with (size o) by lia.
        change (fills_qty ((tg, p, size o) :: fifo_fills tg os (sz - size o)))
          with (size o + fills_qty (fifo_fills tg os (sz - size o))).
        rewrite IH. lia.
      * apply Z.leb_gt in L.
        replace (Z.min (size o) sz) with sz by lia.
        rewrite Z.sub_diag, fifo_fills_nonpos by lia.
        unfold fills_qty. simpl. lia.
    + unfold fills_qty. simpl. lia.
Qed.

Lemma process_trade_time b price sz t :
  time (fst (process_trade b price sz t)) = t.
Proof.
  rewrite process_trade_unfold.
  destruct (crosses Asks (ask_prices b) price); auto.
  destruct (crosses Bids (bid_prices b) price); auto.
Qed.

(** X6.  A trade of size zero or less returns no fill and changes nothing
    but the book time.  On a book that satisfies the invariant a trade
    stops sweeping only when the fills have used up its size or when no
    level of the swept side satisfies the direction condition any more. *)
Theorem trade_stops_when_done b price sz t :
  lob_inv b ->
  let b' := fst (process_trade b price sz t) in
  let fills := snd (process_trade b price sz t) in
  (sz <= 0 -> b' = at_time b t /\ fills = [])
  /\ (forall dir, swept_side b price = Some dir ->
        sz <= fills_qty fills
        \/ eligible dir price (levels dir b') = []).
Proof.
  intros [IB IA] b' fills. unfold b', fills. split.
  - intros L. rewrite process_trade_unfold. unfold at_time.
    destruct (crosses Asks (ask_prices b) price);
      [|destruct (crosses Bids (bid_prices b) price)]; cbv zeta;
      rewrite ?sweep_stop by assumption; auto.
  - intros dir SW. rewrite process_trade_unfold. unfold swept_side in SW.
    rewrite <- !crosses_existsb in SW by (apply IA || apply IB).
    destruct (crosses Asks (ask_prices b) price).
    + inversion SW; subst dir. simpl.
      destruct (sweep_post_run Asks _ _ price sz IA)
        as [F1 [F2 [_ [_ [_ [F6 [_ F8]]]]]]].
      simpl in F1. rewrite F1. rewrite (fifo_left_fills (tag Asks)) in F2.
      apply andb_false_iff in F8. destruct F8 as [F8|F8].
      * left. apply Z.ltb_ge in F8. rewrite F2 in F8. unfold tag in *. lia.
      * right. apply eligible_nil; auto. apply F6.
    + destruct (crosses Bids (bid_prices b) price); [|discriminate].
      inversion SW; subst dir. simpl.
      destruct (sweep_post_run Bids _ _ price sz IB)
        as [F1 [F2 [_ [_ [_ [F6 [_ F8]]]]]]].
      simpl in F1. rewrite F1. rewrite (fifo_left_fills (tag Bids)) in F2.
      apply andb_false_iff in F8. destruct F8 as [F8|F8].
      * left. apply Z.ltb_ge in F8. rewrite F2 in F8. unfold tag in *. lia.
      * right. apply eligible_nil; auto. apply F6.
Qed.

Lemma trade_stops_when_done_witness :
  lob_inv demo_book
  /\ swept_side demo_book 101 = Some Asks
  /\ (12 <= fills_qty (snd (process_trade demo_book 101 12 1))
      \/ eligible Asks 101
           (levels Asks (fst (process_trade demo_book 101 12 1))) = []).
Proof.
  pose proof demo_book_inv as I.
  split; [exact I|]. split; [reflexivity|].
  exact (proj2 (trade_stops_when_done demo_book 101 12 1 I) Asks eq_refl).
Defined.

(** *** Fills and resting sizes are positive *)

Lemma fifo_fills_pos tg os sz :
  (forall po, In po os -> 0 < size (snd po)) ->
  Forall (fun f => 0 < fill_qty f <= sz) (fifo_fills tg os sz).
Proof.
  revert sz. induction os as [|[p o] os IH]; intros sz P; simpl;
    [constructor|].
  destruct (0 <? sz) eqn:E; [|constructor]. apply Z.ltb_lt in E.
  assert (Po : 0 < size o) by (apply (P (p, o)); now left).
  constructor; [unfold fill_qty; simpl; lia|].
  eapply Forall_impl; [|apply IH; intros; apply P; now right].
  intros f B. simpl in B. lia.
Qed.

Lemma residual_pos q r :
  fifo_residual q r ->
  (forall o, In o q -> 0 < size o) -> forall o, In o r -> 0 < size o.
Proof.
  induction 1 as [q|o s q B|o q r R IH]; intros NN x I; auto.
  - destruct I as [<-|I]; [simpl; lia|]. apply NN. now right.
  - apply IH; auto. intros y J. apply NN. now right.
Qed.

Lemma process_trade_pos b price sz t dir :
  lob_inv b -> sizes_pos (half dir b) ->
  sizes_pos (half dir (fst (process_trade b price sz t))).
Proof.
  intros INV NN p o I.
  eapply residual_pos;
    [apply (process_trade_residual b price sz t dir p INV) | | exact I].
  intros x J. eapply NN; eauto.
Qed.

(** X7.  Fills are never empty-handed.  On a book that satisfies the
    invariant and whose resting sizes on the swept side are positive, a
    trade of positive size returns at least one fill, every fill has a
    positive quantity that is at most the trade size, and the orders left
    resting on that side still have positive sizes. *)
Theorem fills_are_positive b price sz t dir :
  lob_inv b -> sizes_pos (half dir b) ->
  swept_side b price = Some dir -> 0 < sz ->
  let b' := fst (process_trade b price sz t) in
  let fills := snd (process_trade b price sz t) in
  fills <> []
  /\ Forall (fun f => 0 < fill_qty f <= sz) fills
  /\ sizes_pos (half dir b').
Proof.
  intros INV SP SW L b' fills. unfold b', fills.
  rewrite (process_trade_fills b price sz t dir INV SW).
  assert (P : forall po,
             In po (resting dir (half dir b)
                      (eligible dir price (levels dir b))) ->
             0 < size (snd po)).
  { intros po I. apply resting_in in I. destruct I as [_ I].
    eapply SP; eauto. }
  split; [|split].
  - assert (SI : side_inv (half dir b) (levels dir b))
      by (destruct INV, dir; assumption).
    assert (E : exists p, In p (eligible dir price (levels dir b))).
    { unfold swept_side in SW.
      destruct (existsb (hit Asks price) (ask_prices b)) eqn:EA.
      - inversion SW; subst dir. apply existsb_exists in EA.
        destruct EA as [p [I H]]. exists p. now apply filter_In.
      - destruct (existsb (hit Bids price) (bid_prices b)) eqn:EB;
          [|discriminate].
        inversion SW; subst dir. apply existsb_exists in EB.
        destruct EB as [p [I H]]. exists p. now apply filter_In. }
    destruct E as [p I].
    assert (Lp : level (half dir b) p <> []).
    { destruct SI as [_ [_ [PL _]]]. apply PL.
      apply filter_In in I. apply I. }
    destruct (level (half dir b) p) as [|o q] eqn:Eq; [congruence|].
    assert (M : In (p, o) (resting dir (half dir b)
                             (eligible dir price (levels dir b)))).
    { apply resting_member; auto. rewrite Eq. now left. }
    destruct (resting dir (half dir b) (eligible dir price (levels dir b)))
      as [|[p0 o0] os]; [destruct M|].
    simpl. apply Z.ltb_lt in L. rewrite L. discriminate.
  - now apply fifo_fills_pos.
  - now apply process_trade_pos.
Qed.

Lemma snapshot_sizes_pos b bs as_ t dir :
  sizes_pos (half dir (apply_snapshot b bs as_ t)).
Proof.
  intros p o I. destruct dir; simpl in I; rewrite install_level in I;
    destruct (last_size _ p) as [s|] eqn:E; try destruct I as [<-|[]];
    try destruct I; simpl; apply last_size_kept in E;
    apply filter_In in E; destruct E as [_ E]; apply Z.ltb_lt in E;
    simpl in E; lia.
Qed.

Lemma place_sizes_pos b sd p s t dir :
  0 < s -> sizes_pos (half dir b) ->
  sizes_pos (half dir (fst (place_limit_order b sd p s t))).
Proof.
  intros L NN x o I. unfold place_limit_order in I.
  destruct (sd =? "bid")%string, dir; simpl in I;
    try (eapply NN; eauto; fail);
    (apply store_tail_members in I; destruct I as [->|I];
     [simpl; lia | eapply NN; eauto]).
Qed.

Lemma empty_book_sizes_pos dir : sizes_pos (half dir empty_book).
Proof. intros p o I. destruct dir; destruct I. Qed.

Lemma apply_op_sizes_pos b op :
  pos_op op = true -> lob_inv b -> (forall dir, sizes_pos (half dir b)) ->
  forall dir, sizes_pos (half dir (apply_op b op)).
Proof.
  intros F INV NN dir. destruct op as [bs as_ t|sd p s t|id|pr sz t]; simpl.
  - apply snapshot_sizes_pos.
  - simpl in F. apply Z.ltb_lt in F. now apply place_sizes_pos.
  - intros p o I. apply (NN dir p). eapply cancel_order_members; eauto.
  - now apply process_trade_pos.
Qed.

Lemma abc_book_sizes_pos dir : sizes_pos (half dir abc_book).
Proof.
  change abc_book
    with (apply_op
            (apply_op (apply_op empty_book (OpPlace "ask" 100 3 0))
               (OpPlace "ask" 100 4 0)) (OpPlace "ask" 100 5 0)).
  repeat (apply apply_op_sizes_pos;
          [reflexivity | repeat apply apply_op_inv; apply empty_book_inv |]).
  apply empty_book_sizes_pos.
Qed.

(** X8.  No order of size zero ever rests.  After any sequence of
    operations run from the empty book in which every placement has a
    positive size, every resting order on either side has a positive
    remaining size: an order that a trade consumes in full is taken out of
    its queue. *)
Theorem resting_sizes_positive (ops : list Op) :
  forallb pos_op ops = true ->
  forall dir, sizes_pos (half dir (run_ops ops empty_book)).
Proof.
  intros F.
  assert (G : forall b, lob_inv b -> (forall dir, sizes_pos (half dir b)) ->
                        forall dir, sizes_pos (half dir (run_ops ops b))).
  { induction ops as [|op ops IH]; intros b INV NN; simpl; auto.
    simpl in F. apply andb_true_iff in F. destruct F as [F1 F2].
    apply IH; auto; [now apply apply_op_inv|].
    now apply apply_op_sizes_pos. }
  apply G; [apply empty_book_inv | apply empty_book_sizes_pos].
Qed.

Lemma fills_are_positive_witness :
  lob_inv abc_book /\ sizes_pos (half Asks abc_book)
  /\ swept_side abc_book 100 = Some Asks /\ 0 < 5
  /\ snd (process_trade abc_book 100 5 1) <> []
  /\ Forall (fun f => 0 < fill_qty f <= 5)
       (snd (process_trade abc_book 100 5 1)).
Proof.
  pose proof abc_book_inv as I.
  pose proof (abc_book_sizes_pos Asks) as P.
  assert (L : 0 < 5) by lia.
  destruct (fills_are_positive abc_book 100 5 1 Asks I P eq_refl L)
    as [N [F _]].
  split; [exact I|]. split; [exact P|]. split; [reflexivity|].
  split; [exact L|]. split; [exact N | exact F].
Defined.

Lemma resting_sizes_positive_witness :
  forallb pos_op [OpSnapshot [(99, 10)] [(101, 10)] 0; OpPlace "ask" 101 3 2;
                  OpTrade 101 11 3] = true
  /\ forall dir,
       sizes_pos
         (half dir
            (run_ops [OpSnapshot [(99, 10)] [(101, 10)] 0;
                      OpPlace "ask" 101 3 2; OpTrade 101 11 3] empty_book)).
Proof.
  split; [reflexivity|].
  exact (resting_sizes_positive
           [OpSnapshot [(99, 10)] [(101, 10)] 0; OpPlace "ask" 101 3 2;
            OpTrade 101 11 3] eq_refl).
Defined.

(** *** The depth view *)

Lemma sorted_insert_in x y l : In y (sorted_insert x l) <-> y = x \/ In y l.
Proof.
  induction l as [|z l IH]; simpl.
  - intuition auto.
  - destruct (x <=? z); simpl; [|rewrite IH]; intuition auto.
Qed.

Lemma sorted_insert_perm x l : Permutation (x :: l) (sorted_insert x l).
Proof.
  induction l as [|z l IH]; simpl; auto.
  destruct (x <=? z); auto.
  eapply perm_trans; [apply perm_swap|]. now constructor.
Qed.

Lemma sorted_insert_sorted x l :
  StronglySorted Z.le l -> StronglySorted Z.le (sorted_insert x l).
Proof.
  induction 1 as [|z l SS IH F]; simpl; [repeat constructor|].
  destruct (x <=? z) eqn:E.
  - apply Z.leb_le in E. constructor; [now constructor|].
    constructor; auto. rewrite Forall_forall in *. intros y I.
    specialize (F y I). lia.
  - apply Z.leb_gt in E. constructor; auto.
    rewrite Forall_forall in *. intros y I. apply sorted_insert_in in I.
    destruct I as [->|I]; [lia | auto].
Qed.

(** [sorted] gives an ascending arrangement of its argument. *)
Lemma py_sorted_spec l :
  StronglySorted Z.le (py_sorted l) /\ Permutation l (py_sorted l).
Proof.
  induction l as [|x l [S P]]; simpl; [split; constructor|]. split.
  - now apply sorted_insert_sorted.
  - eapply perm_trans; [|apply sorted_insert_perm]. now constructor.
Qed.

Lemma py_sorted_ascending l : StronglySorted Z.lt l -> py_sorted l = l.
Proof.
  induction 1 as [|x l SS IH F]; simpl; auto.
  rewrite IH. destruct l as [|y l]; simpl; auto.
  inversion F as [|? ? L _]; subst.
  now replace (x <=? y) with true by (symmetry; apply Z.leb_le; lia).
Qed.

Lemma firstn_member {A : Type} (n : nat) (l : list A) x :
  In x (firstn n l) -> In x l.
Proof.
  revert n. induction l as [|y l IH]; intros n I.
  - now rewrite firstn_nil in I.
  - destruct n; simpl in I; [destruct I|].
    destruct I as [->|I]; [now left | right; eauto].
Qed.

Lemma py_take_in {A : Type} depth (l : list A) x :
  In x (py_take depth l) -> In x l.
Proof.
  unfold py_take. destruct (0 <=? depth); apply firstn_member.
Qed.

Lemma py_take_length {A : Type} depth (l : list A) :
  length (py_take depth l)
  = if 0 <=? depth then Nat.min (Z.to_nat depth) (length l)
    else (length l - Z.to_nat (- depth))%nat.
Proof.
  unfold py_take. destruct (0 <=? depth); rewrite length_firstn; lia.
Qed.

Lemma py_take_sorted (R : Z -> Z -> Prop) depth l :
  StronglySorted R l -> StronglySorted R (py_take depth l).
Proof.
  intros SS. unfold py_take.
  assert (G : forall n, StronglySorted R (firstn n l)).
  { intros n. revert n. induction SS as [|x l SS IH F]; intros n.
    - rewrite firstn_nil. constructor.
    - destruct n; simpl; constructor; auto.
      rewrite Forall_forall in *. intros y I. apply F.
      eapply firstn_member; eauto. }
  destruct (0 <=? depth); apply G.
Qed.

Lemma display_side_listed d ps :
  (forall p, In p ps -> level d p <> []) ->
  display_side d ps = (map (fun p => (p, queue_size (level d p))) ps, d).
Proof.
  intros H. induction ps as [|p ps IH]; simpl; auto.
  assert (L : level d p <> []) by (apply H; now left).
  unfold level in L. destruct (Dict.get d p) eqn:G; [|congruence].
  rewrite IH by (intros; apply H; now right). reflexivity.
Qed.

Lemma sorted_rev_desc l :
  StronglySorted Z.lt l -> StronglySorted Z.gt (rev l).
Proof.
  induction 1 as [|a l SS IH F]; simpl; [constructor|].
  apply sorted_app; auto.
  - repeat constructor.
  - intros x y I [<-|[]]. apply in_rev in I.
    rewrite Forall_forall in F. specialize (F _ I). lia.
Qed.

(** The depth view of a book that satisfies the invariant, as pure data. *)
Lemma snapshot_for_display_listed b depth :
  lob_inv b ->
  snapshot_for_display b depth
  = ((map (fun p => (p, queue_size (level (bids b) p)))
        (py_take depth (rev (bid_prices b))),
      map (fun p => (p, queue_size (level (asks b) p)))
        (py_take depth (ask_prices b))),
     b).
Proof.
  intros [[NB [SB [PB KB]]] [NA [SA [PA KA]]]].
  unfold snapshot_for_display.
  rewrite !py_sorted_ascending by assumption.
  rewrite !display_side_listed.
  - now destruct b.
  - intros p I. apply PA. eapply py_take_in; eauto.
  - intros p I. apply PB. apply in_rev. eapply py_take_in; eauto.
Qed.

(** X9.  The depth view of a book that satisfies the invariant changes
    nothing in the book; its bid rows come in strictly descending and its
    ask rows in strictly ascending price order; every row is a listed level
    with a non-empty queue, shown with the total remaining size of its
    queue; and for a positive depth the first row of each side is the top
    of book. *)
Theorem depth_view_shape b depth :
  lob_inv b ->
  let rows := fst (snapshot_for_display b depth) in
  snd (snapshot_for_display b depth) = b
  /\ StronglySorted Z.gt (map fst (fst rows))
  /\ StronglySorted Z.lt (map fst (snd rows))
  /\ (forall p s, In (p, s) (fst rows) ->
        In p (bid_prices b) /\ level (bids b) p <> []
        /\ s = queue_size (level (bids b) p))
  /\ (forall p s, In (p, s) (snd rows) ->
        In p (ask_prices b) /\ level (asks b) p <> []
        /\ s = queue_size (level (asks b) p))
  /\ (0 < depth ->
      option_map fst (hd_error (fst rows)) = fst (top_of_book b)
      /\ option_map fst (hd_error (snd rows)) = snd (top_of_book b)).
Proof.
  intros INV rows. unfold rows. clear rows.
  rewrite (snapshot_for_display_listed b depth INV). simpl.
  destruct INV as [[NB [SB [PB KB]]] [NA [SA [PA KA]]]].
  rewrite !map_map. simpl. rewrite !map_id.
  split; [reflexivity|].
  split; [apply py_take_sorted; now apply sorted_rev_desc|].
  split; [now apply py_take_sorted|].
  split; [|split].
  - intros p s I. apply in_map_iff in I. destruct I as [x [E I]].
    inversion E; subst. apply py_take_in in I. apply in_rev in I.
    repeat split; auto. now apply PB.
  - intros p s I. apply in_map_iff in I. destruct I as [x [E I]].
    inversion E; subst. apply py_take_in in I.
    repeat split; auto. now apply PA.
  - intros D. unfold top_of_book, py_take. simpl.
    replace (0 <=? depth) with true by (symmetry; apply Z.leb_le; lia).
    destruct (Z.to_nat depth) as [|k] eqn:K; [lia|]. split.
    + destruct (py_max (bid_prices b)) as [m|] eqn:M.
      * pose proof (best_split Bids _ m SB M) as E. simpl in E.
        rewrite E, rev_app_distr. reflexivity.
      * destruct (bid_prices b); [reflexivity | discriminate M].
    + destruct (py_min (ask_prices b)) as [m|] eqn:M.
      * pose proof (best_split Asks _ m SA M) as E. simpl in E.
        rewrite E. reflexivity.
      * destruct (ask_prices b); [reflexivity | discriminate M].
Qed.

Lemma depth_view_shape_witness :
  lob_inv quoted_book
  /\ snapshot_for_display quoted_book 5
     = (([(99, 11); (98, 5)], [(101, 13); (102, 4)]), quoted_book)
  /\ snd (snapshot_for_display quoted_book 5) = quoted_book
  /\ (0 < 5 ->
      option_map fst (hd_error (fst (fst (snapshot_for_display quoted_book 5))))
      = fst (top_of_book quoted_book)
      /\ option_map fst
           (hd_error (snd (fst (snapshot_for_display quoted_book 5))))
         = snd (top_of_book quoted_book)).
Proof.
  pose proof quoted_book_inv as I.
  destruct (depth_view_shape quoted_book 5 I) as [U [_ [_ [_ [_ T]]]]].
  split; [exact I|]. split; [reflexivity|]. split; [exact U | exact T].
Defined.

(** X10.  How much the depth view shows.  On a book that satisfies the
    invariant a side with [n] levels gets [min depth n] rows for a depth of
    zero or more and [n - |depth|] rows, the worst levels being left out,
    for a negative depth; when the depth is at least [n] the row sizes add
    up to the total remaining size of all orders resting on that side. *)
Theorem depth_view_coverage b depth :
  lob_inv b ->
  let rows := fst (snapshot_for_display b depth) in
  length (fst rows)
  = (if 0 <=? depth then Nat.min (Z.to_nat depth) (length (bid_prices b))
     else (length (bid_prices b) - Z.to_nat (- depth))%nat)
  /\ length (snd rows)
     = (if 0 <=? depth then Nat.min (Z.to_nat depth) (length (ask_prices b))
        else (length (ask_prices b) - Z.to_nat (- depth))%nat)
  /\ (Z.of_nat (length (bid_prices b)) <= depth ->
      zsum (map snd (fst rows)) = queue_size (all_orders (bids b)))
  /\ (Z.of_nat (length (ask_prices b)) <= depth ->
      zsum (map snd (snd rows)) = queue_size (all_orders (asks b))).
Proof.
  intros INV rows. unfold rows. clear rows.
  rewrite (snapshot_for_display_listed b depth INV). simpl.
  rewrite !length_map, !py_take_length, length_rev.
  destruct INV as [IB IA].
  split; [reflexivity|]. split; [reflexivity|]. split.
  - intros D. rewrite map_map. simpl. unfold py_take.
    replace (0 <=? depth) with true by (symmetry; apply Z.leb_le; lia).
    rewrite firstn_all2 by (rewrite length_rev; lia).
    rewrite map_rev, zsum_rev. now apply liquidity_all_orders.
  - intros D. rewrite map_map. simpl. unfold py_take.
    replace (0 <=? depth) with true by (symmetry; apply Z.leb_le; lia).
    rewrite firstn_all2 by lia. now apply liquidity_all_orders.
Qed.

Lemma depth_view_coverage_witness :
  lob_inv quoted_book
  /\ length (fst (fst (snapshot_for_display quoted_book 1))) = 1%nat
  /\ length (snd (fst (snapshot_for_display quoted_book (-1)))) = 1%nat
  /\ (Z.of_nat (length (bid_prices quoted_book)) <= 5 ->
      zsum (map snd (fst (fst (snapshot_for_display quoted_book 5))))
      = queue_size (all_orders (bids quoted_book))).
Proof.
  pose proof quoted_book_inv as I.
  split; [exact I|].
  split; [exact (proj1 (depth_view_coverage quoted_book 1 I))|].
  split; [exact (proj1 (proj2 (depth_view_coverage quoted_book (-1) I)))|].
  exact (proj1 (proj2 (proj2 (depth_view_coverage quoted_book 5 I)))).
Defined.

(** *** Every fill of a trade *)

Lemma fifo_fills_tag tg os sz :
  Forall (fun f => fill_tag f = tg) (fifo_fills tg os sz).
Proof.
  revert sz. induction os as [|[p o] os IH]; intros sz; simpl;
    [constructor|].
  destruct (0 <? sz); constructor; auto.
Qed.

Lemma process_trade_quiet b price sz t :
  lob_inv b -> swept_side b price = None ->
  snd (process_trade b price sz t) = [].
Proof.
  intros [IB IA] SW. rewrite process_trade_unfold. unfold swept_side in SW.
  rewrite <- !crosses_existsb in SW by (apply IA || apply IB).
  destruct (crosses Asks (ask_prices b) price); [discriminate|].
  destruct (crosses Bids (bid_prices b) price); [discriminate|].
  reflexivity.
Qed.

Lemma process_trade_fills_pos b price sz t :
  lob_inv b -> (forall dir, sizes_pos (half dir b)) ->
  Forall (fun f => 0 < fill_qty f
                   /\ (fill_tag f = "buy"%string \/ fill_tag f = "sell"%string))
    (snd (process_trade b price sz t)).
Proof.
  intros INV SP. destruct (swept_side b price) as [dir|] eqn:SW.
  - rewrite (process_trade_fills b price sz t dir INV SW).
    apply Forall_forall. intros f I. split.
    + assert (F : Forall (fun f => 0 < fill_qty f <= sz)
                    (fifo_fills (tag dir)
                       (resting dir (half dir b)
                          (eligible dir price (levels dir b))) sz)).
      { apply fifo_fills_pos. intros po J. apply resting_in in J.
        destruct J as [_ J]. eapply SP; eauto. }
      rewrite Forall_forall in F. apply F in I. lia.
    + pose proof (fifo_fills_tag (tag dir)
                    (resting dir (half dir b)
                       (eligible dir price (levels dir b))) sz) as T.
      rewrite Forall_forall in T. rewrite (T f I).
      destruct dir; simpl; auto.
  - rewrite process_trade_quiet by assumption. constructor.
Qed.

End LOBExtra.

(** ** More on the strategy *)

Module MarketMakerExtra.
Import MarketMaker MarketMakerFacts.
Local Open Scope Q_scope.

(** *** What a fill does to cash and inventory *)

Lemma on_fill_other s sd p qty t :
  sd <> "buy"%string -> sd <> "sell"%string ->
  on_fill s sd p qty t = set_fills s (fills s ++ [(sd, p, qty, t)]).
Proof.
  intros N1 N2. unfold on_fill.
  apply String.eqb_neq in N1, N2. now rewrite N1, N2.
Qed.

Lemma on_fill_untouched s sd p qty t :
  fills (on_fill s sd p qty t) = fills s ++ [(sd, p, qty, t)]
  /\ our_orders (on_fill s sd p qty t) = our_orders s
  /\ mids (on_fill s sd p qty t) = mids s
  /\ last_mid (on_fill s sd p qty t) = last_mid s
  /\ equity_curve (on_fill s sd p qty t) = equity_curve s
  /\ inv_curve (on_fill s sd p qty t) = inv_curve s.
Proof.
  unfold on_fill.
  repeat match goal with
         | |- context [if ?c then _ else _] => destruct c
         end; repeat split; reflexivity.
Qed.

Lemma on_fill_effect s sd p qty t :
  let s' := on_fill s sd p qty t in
  (sd = "buy"%string ->
   cash s' == cash s - p * qty /\ inventory s' == inventory s + qty)
  /\ (sd = "sell"%string ->
      cash s' == cash s + p * qty /\ inventory s' == inventory s - qty)
  /\ (sd <> "buy"%string -> sd <> "sell"%string ->
      cash s' = cash s /\ inventory s' = inventory s
      /\ avg_price s' = avg_price s /\ realized s' = realized s)
  /\ fills s' = fills s ++ [(sd, p, qty, t)]
  /\ our_orders s' = our_orders s /\ mids s' = mids s
  /\ last_mid s' = last_mid s
  /\ equity_curve s' = equity_curve s /\ inv_curve s' = inv_curve s.
Proof.
  intros s'. unfold s'. clear s'. split; [|split; [|split]].
  - intros ->. destruct (Qlt_le_dec (inventory s) 0) as [Neg|NNeg].
    + destruct (Qlt_le_dec (- inventory s) qty) as [Fl|Cv].
      * rewrite on_fill_buy_flip by assumption. cbn [cash inventory].
        split; [reflexivity | ring].
      * rewrite on_fill_buy_cover by assumption. cbn [cash inventory].
        split; reflexivity.
    + rewrite on_fill_buy_add by assumption. cbn [cash inventory].
      split; reflexivity.
  - intros ->. destruct (Qlt_le_dec 0 (inventory s)) as [Lg|NLg].
    + destruct (Qlt_le_dec (inventory s) qty) as [Fl|Rd].
      * rewrite on_fill_sell_flip by assumption. cbn [cash inventory].
        split; [reflexivity | ring].
      * rewrite on_fill_sell_reduce by assumption. cbn [cash inventory].
        split; reflexivity.
    + rewrite on_fill_sell_add by assumption. cbn [cash inventory].
      split; reflexivity.
  - intros N1 N2. rewrite on_fill_other by assumption.
    repeat split; reflexivity.
  - apply on_fill_untouched.
Qed.

(** X11.  Whatever the position and whatever the quantity, a ['buy'] fill
    takes [price * qty] from cash and adds [qty] to the inventory, a
    ['sell'] fill adds [price * qty] to cash and takes [qty] from the
    inventory, and a fill with any other side string changes neither, nor
    the average cost, nor the realized PnL; in all cases the fill is
    appended to the fills list and the quotes, the mid window and the two
    curves are left alone. *)
Theorem fill_moves_cash_and_inventory s sd p qty t :
  let s' := on_fill s sd p qty t in
  (sd = "buy"%string ->
   cash s' == cash s - p * qty /\ inventory s' == inventory s + qty)
  /\ (sd = "sell"%string ->
      cash s' == cash s + p * qty /\ inventory s' == inventory s - qty)
  /\ (sd <> "buy"%string -> sd <> "sell"%string ->
      cash s' = cash s /\ inventory s' = inventory s
      /\ avg_price s' = avg_price s /\ realized s' = realized s)
  /\ fills s' = fills s ++ [(sd, p, qty, t)]
  /\ our_orders s' = our_orders s /\ mids s' = mids s
  /\ last_mid s' = last_mid s
  /\ equity_curve s' = equity_curve s /\ inv_curve s' = inv_curve s.
Proof. exact (on_fill_effect s sd p qty t). Qed.

Lemma fill_moves_cash_and_inventory_witness :
  cash (on_fill long5 "buy" 90 (-7) 1) == cash long5 - 90 * (-7)
  /\ inventory (on_fill long5 "buy" 90 (-7) 1) == inventory long5 + (-7)
  /\ cash (on_fill long5 "hold" 90 7 1) = cash long5.
Proof.
  destruct (fill_moves_cash_and_inventory long5 "buy" 90 (-7) 1)
    as [B _].
  destruct (fill_moves_cash_and_inventory long5 "hold" 90 7 1)
    as [_ [_ [O _]]].
  destruct (B eq_refl) as [B1 B2].
  split; [exact B1|]. split; [exact B2|].
  apply O; discriminate.
Defined.

(** *** Round trips *)

(** X13.  A round trip is measured against the stored average.  From a
    flat position (inventory exactly zero, whatever average cost is still
    stored), a buy of a positive quantity stores the average
    [buy price * qty / max qty 1e-12]; selling the same quantity then
    brings the inventory back to exactly zero, adds
    [(sell price - stored average) * qty] to the realized PnL, moves the
    cash by the cost of the buy and then by the proceeds of the sell, and
    leaves the stored average in place.  Selling first and buying back
    does the same with the sides exchanged. *)
Theorem round_trip_against_stored_average s pb ps q t1 t2 :
  inventory s == 0 -> 0 < q ->
  (let s1 := on_fill s "buy" pb q t1 in
   let s2 := on_fill s1 "sell" ps q t2 in
   avg_price s1 == pb * q / Qmax q eps
   /\ inventory s2 == 0
   /\ realized s2 == realized s + (ps - avg_price s1) * q
   /\ cash s2 == cash s - pb * q + ps * q
   /\ avg_price s2 = avg_price s1)
  /\ (let s1 := on_fill s "sell" ps q t1 in
      let s2 := on_fill s1 "buy" pb q t2 in
      avg_price s1 == ps * q / Qmax q eps
      /\ inventory s2 == 0
      /\ realized s2 == realized s + (avg_price s1 - pb) * q
      /\ cash s2 == cash s + ps * q - pb * q
      /\ avg_price s2 = avg_price s1).
Proof.
  intros Z L.
  assert (Mx : forall x, x == q -> Qmax x eps == Qmax q eps).
  { intros x E. now rewrite E. }
  split; cbv zeta.
  - rewrite (on_fill_buy_add s) by lra.
    rewrite on_fill_sell_reduce; cbn [inventory cash realized avg_price];
      [|lra|lra].
    split.
    { rewrite (Mx (inventory s + q)) by lra. rewrite Z.
      apply Qmult_comp; [ring | reflexivity]. }
    split; [rewrite Z; ring|]. split; [reflexivity|].
    split; reflexivity.
  - rewrite (on_fill_sell_add s) by lra.
    rewrite on_fill_buy_cover; cbn [inventory cash realized avg_price];
      [|lra|lra].
    split.
    { rewrite (Mx (- (inventory s - q))) by lra. rewrite Z.
      apply Qmult_comp; [ring | reflexivity]. }
    split; [rewrite Z; ring|]. split; [reflexivity|].
    split; reflexivity.
Qed.

Lemma round_trip_against_stored_average_witness :
  inventory init_state == 0 /\ 0 < 10
  /\ inventory (on_fill (on_fill init_state "buy" 100 10 0) "sell" 105 10 1)
     == 0
  /\ realized (on_fill (on_fill init_state "buy" 100 10 0) "sell" 105 10 1)
     == realized init_state
        + (105 - avg_price (on_fill init_state "buy" 100 10 0)) * 10.
Proof.
  assert (Z : inventory init_state == 0) by reflexivity.
  assert (L : 0 < 10) by reflexivity.
  destruct (proj1 (round_trip_against_stored_average init_state 100 105 10
                     0 1 Z L)) as [_ [I [R _]]].
  split; [exact Z|]. split; [exact L|]. split; [exact I | exact R].
Defined.

(** *** Metrics *)

(** X14.  What [metrics] reports.  Cash, inventory, average cost and
    realized PnL are reported as stored, the fill count is the length of
    the fills list, and the total PnL is the sum of the realized and the
    unrealized PnL it reports.  When no mid price was ever seen, or when
    the inventory is exactly zero, the unrealized PnL is minus the realized
    PnL and the total PnL is 0, whatever was realized.  With fewer than two
    points on the equity curve the drawdown is 0 and there is no Sharpe
    ratio. *)
Theorem metrics_report np sq s :
  let m := metrics np sq s in
  realized_pnl m = realized s /\ m_cash m = cash s
  /\ m_inventory m = inventory s /\ m_avg_price m = avg_price s
  /\ m_fills m = length (fills s)
  /\ total_pnl m = realized_pnl m + unrealized_pnl m
  /\ (last_mid s = None \/ inventory s == 0 ->
      unrealized_pnl m == - realized s /\ total_pnl m == 0)
  /\ ((length (equity_curve s) < 2)%nat ->
      max_drawdown m = 0 /\ sharpe m = None).
Proof.
  intros m. unfold m, metrics. clear m.
  destruct (_drawdown_and_sharpe np sq s) as [dd sh] eqn:D.
  cbn [total_pnl unrealized_pnl realized_pnl m_cash m_inventory m_avg_price
       m_fills max_drawdown sharpe].
  repeat (split; [reflexivity|]). split.
  - intros [N|Z].
    + rewrite N. split; ring.
    + split; [rewrite Z; ring|].
      setoid_replace (inventory s) with 0 by exact Z. ring.
  - intros H. unfold _drawdown_and_sharpe in D. apply Nat.ltb_lt in H.
    rewrite H in D. now inversion D.
Qed.

(** *** Drawdown *)

Lemma Qmin_cases x y : Qmin x y = x \/ Qmin x y = y.
Proof. unfold Qmin, GenericMinMax.gmin. destruct (x ?= y); auto. Qed.

Lemma Qmax_cases x y : Qmax x y = x \/ Qmax x y = y.
Proof. unfold Qmax, GenericMinMax.gmax. destruct (x ?= y); auto. Qed.

Lemma fold_Qmin_spec l x :
  In (fold_left Qmin l x) (x :: l)
  /\ forall y, In y (x :: l) -> fold_left Qmin l x <= y.
Proof.
  revert x. induction l as [|z l IH]; intros x; simpl.
  - split; auto. intros y [<-|[]]. apply Qle_refl.
  - destruct (IH (Qmin x z)) as [I M]. split.
    + destruct I as [E|I]; auto. rewrite <- E.
      destruct (Qmin_cases x z) as [->| ->]; auto.
    + pose proof (M _ (or_introl eq_refl)) as M0.
      intros y [<-|[<-|J]].
      * eapply Qle_trans; [exact M0 | apply Q.le_min_l].
      * eapply Qle_trans; [exact M0 | apply Q.le_min_r].
      * apply M. now right.
Qed.

Lemma array_min_spec l :
  l <> [] -> In (array_min l) l /\ forall y, In y l -> array_min l <= y.
Proof.
  destruct l as [|x l]; [congruence|]. intros _. apply fold_Qmin_spec.
Qed.

Lemma drawdown_bound m l pre c post :
  l = pre ++ c :: post ->
  exists d,
    In d (array_sub l (accumulate_from m l))
    /\ d <= c - m
    /\ forall a, In a (pre ++ [c]) -> d <= c - a.
Proof.
  revert m l. induction pre as [|y pre IH]; intros m l E; subst l; simpl.
  - exists (c - Qmax m c). split; [now left|].
    pose proof (Q.le_max_l m c). pose proof (Q.le_max_r m c).
    split; [lra|]. intros a [<-|[]]. lra.
  - destruct (IH (Qmax m y) _ eq_refl) as [d [I [B1 B2]]].
    exists d. split; [now right|].
    pose proof (Q.le_max_l m y). pose proof (Q.le_max_r m y).
    split; [lra|]. intros a [<-|J]; [lra | now apply B2].
Qed.

Lemma drawdown_attained m l d :
  In d (array_sub l (accumulate_from m l)) ->
  exists pre c post a,
    l = pre ++ c :: post /\ In a (m :: pre ++ [c]) /\ d = c - a.
Proof.
  revert m. induction l as [|x l IH]; intros m I; simpl in I; [destruct I|].
  destruct I as [<-|I].
  - exists [], x, l, (Qmax m x). split; [reflexivity|]. split; auto.
    simpl. destruct (Qmax_cases m x) as [->| ->]; auto.
  - destruct (IH _ I) as [pre [c [post [a [E [J D]]]]]].
    exists (x :: pre), c, post, a. split; [now rewrite E|]. split; auto.
    destruct J as [<-|J].
    + simpl. destruct (Qmax_cases m x) as [->| ->]; auto.
    + simpl. auto.
Qed.

Lemma max_drawdown_of_bound eq pre c post a :
  eq = pre ++ c :: post -> In a (pre ++ [c]) ->
  max_drawdown_of eq <= c - a.
Proof.
  intros E I. unfold max_drawdown_of.
  destruct eq as [|x0 l]; [destruct pre; discriminate|].
  cbn [maximum_accumulate array_sub].
  destruct (array_min_spec ((x0 - x0) :: array_sub l (accumulate_from x0 l)))
    as [_ M]; [discriminate|].
  destruct pre as [|y pre]; simpl in E; inversion E; subst.
  - destruct I as [<-|[]]. apply M. now left.
  - destruct (drawdown_bound y _ pre c post eq_refl) as [d [J [B1 B2]]].
    apply Qle_trans with d; [apply M; now right|].
    destruct I as [<-|I]; auto.
Qed.

Lemma max_drawdown_of_attained eq :
  eq <> [] ->
  exists pre c post a,
    eq = pre ++ c :: post /\ In a (pre ++ [c])
    /\ max_drawdown_of eq = c - a.
Proof.
  intros NE. unfold max_drawdown_of.
  destruct eq as [|x0 l]; [congruence|].
  cbn [maximum_accumulate array_sub].
  destruct (array_min_spec ((x0 - x0) :: array_sub l (accumulate_from x0 l)))
    as [I _]; [discriminate|].
  destruct I as [E|I].
  - exists [], x0, l, x0. split; [reflexivity|].
    split; [now left | now rewrite <- E].
  - destruct (drawdown_attained _ _ _ I) as [pre [c [post [a [E [J D]]]]]].
    exists (x0 :: pre), c, post, a. split; [now rewrite E|].
    split; [exact J | exact D].
Qed.

(** X15.  The reported maximum drawdown.  With [eq] the equity values of
    the curve, the drawdown [metrics] reports is never positive, it is at
    most [c - a] for every equity value [c] and every value [a] that comes
    at or before it, and, when the curve is not empty, it is exactly
    [c - a] for one such pair: it is the steepest fall from an earlier
    value to a later one, and 0 when equity never falls. *)
Theorem max_drawdown_is_steepest_fall np sq s :
  let eq := map snd (equity_curve s) in
  let dd := max_drawdown (metrics np sq s) in
  dd <= 0
  /\ (forall pre c post a,
        eq = pre ++ c :: post -> In a (pre ++ [c]) -> dd <= c - a)
  /\ (eq <> [] ->
      exists pre c post a,
        eq = pre ++ c :: post /\ In a (pre ++ [c]) /\ dd == c - a)
  /\ (StronglySorted Qle eq -> dd == 0).
Proof.
  intros eq dd.
  assert (D : dd = if (length (equity_curve s) <? 2)%nat then 0
                   else max_drawdown_of eq).
  { unfold dd, metrics, _drawdown_and_sharpe. fold eq.
    destruct (length (equity_curve s) <? 2)%nat; [reflexivity|].
    destruct ((1 <? length (np_diff eq))%nat
              && Qltb eps (np (np_diff eq))); reflexivity. }
  assert (B : forall pre c post a,
             eq = pre ++ c :: post -> In a (pre ++ [c]) -> dd <= c - a).
  { intros pre c post a E I. rewrite D.
    destruct (length (equity_curve s) <? 2)%nat eqn:L.
    - apply Nat.ltb_lt in L. unfold eq in E.
      assert (Lp : (length (pre ++ c :: post) < 2)%nat)
        by (rewrite <- E, length_map; exact L).
      rewrite length_app in Lp. simpl in Lp.
      destruct pre; [|simpl in Lp; lia].
      destruct I as [<-|[]]. lra.
    - eapply max_drawdown_of_bound; eauto. }
  assert (A : eq <> [] ->
              exists pre c post a,
                eq = pre ++ c :: post /\ In a (pre ++ [c]) /\ dd == c - a).
  { intros NE. rewrite D.
    destruct (length (equity_curve s) <? 2)%nat eqn:L.
    - destruct eq as [|c l] eqn:E; [congruence|].
      exists [], c, l, c. repeat split; [now left | ring].
    - destruct (max_drawdown_of_attained eq NE)
        as [pre [c [post [a [E [I M]]]]]].
      exists pre, c, post, a. rewrite M.
      split; [exact E|]. split; [exact I | reflexivity]. }
  split; [|split; [exact B | split; [exact A|]]].
  - destruct eq as [|c l] eqn:E.
    + rewrite D. unfold eq in E. apply map_eq_nil in E. rewrite E. simpl.
      apply Qle_refl.
    + specialize (B [] c l c eq_refl (or_introl eq_refl)). lra.
  - intros SS. destruct eq as [|x l] eqn:E.
    + rewrite D. unfold eq in E. apply map_eq_nil in E. rewrite E. simpl.
      reflexivity.
    + destruct A as [pre [c [post [a [E' [I M]]]]]]; [discriminate|].
      assert (Le : a <= c).
      { rewrite E' in SS. clear - SS I.
        induction pre as [|y pre IH]; simpl in *.
        - destruct I as [<-|[]]. apply Qle_refl.
        - inversion SS as [|? ? SS' F]; subst. destruct I as [<-|I]; auto.
          rewrite Forall_forall in F. apply F. apply in_or_app.
          right. now left. }
      specialize (B pre c post c E').
      assert (Ic : In c (pre ++ [c])) by (apply in_or_app; right; now left).
      specialize (B Ic). lra.
Qed.

(** *** Quoting *)

(** X16.  The spread is clamped.  When the configured minimum is not above
    the configured maximum, the spread in ticks lies between the two
    whatever the volatility estimate is, and it is the minimum as long as
    fewer than five mid prices have been seen. *)
Theorem spread_within_bounds np cfg s :
  spread_ticks_min cfg <= spread_ticks_max cfg ->
  spread_ticks_min cfg <= _compute_spread_ticks np cfg s
  /\ _compute_spread_ticks np cfg s <= spread_ticks_max cfg
  /\ ((length (mids s) < 5)%nat ->
      _compute_spread_ticks np cfg s = spread_ticks_min cfg).
Proof.
  intros L. unfold _compute_spread_ticks.
  destruct (length (mids s) <? 5)%nat eqn:E.
  - split; [apply Qle_refl|]. split; auto.
  - split; [|split].
    + apply Q.min_glb; auto. apply Q.le_max_l.
    + apply Q.le_min_l.
    + intros H. apply Nat.ltb_lt in H. congruence.
Qed.

Lemma spread_within_bounds_witness :
  spread_ticks_min default_config <= spread_ticks_max default_config
  /\ spread_ticks_min default_config
     <= _compute_spread_ticks (fun _ => 1000) default_config
          (set_mids init_state [100; 101; 99; 104; 100; 97] None)
  /\ _compute_spread_ticks (fun _ => 1000) default_config
       (set_mids init_state [100; 101; 99; 104; 100; 97] None)
     <= spread_ticks_max default_config.
Proof.
  assert (L : spread_ticks_min default_config
              <= spread_ticks_max default_config)
    by (unfold Qle; simpl; lia).
  destruct (spread_within_bounds (fun _ => 1000) default_config
              (set_mids init_state [100; 101; 99; 104; 100; 97] None) L)
    as [A [B _]].
  split; [exact L|]. split; [exact A | exact B].
Defined.

Lemma cancel_all_spec s b :
  our_orders (fst (cancel_all s b)) = []
  /\ same_but_orders s (fst (cancel_all s b)).
Proof.
  unfold cancel_all.
  assert (G : forall d s b,
             our_orders s = d ->
             our_orders
               (fst (fold_left
                       (fun (sb : State * LOB.OrderBook) (id : Z) =>
                          (set_our_orders (fst sb)
                             (Dict.del (our_orders (fst sb)) id),
                           fst (LOB.cancel_order (snd sb) id)))
                       (Dict.keys d) (s, b))) = []
             /\ same_but_orders s
                  (fst (fold_left
                          (fun (sb : State * LOB.OrderBook) (id : Z) =>
                             (set_our_orders (fst sb)
                                (Dict.del (our_orders (fst sb)) id),
                              fst (LOB.cancel_order (snd sb) id)))
                          (Dict.keys d) (s, b)))).
  { induction d as [|[k v] d IH]; intros s0 b0 E; simpl.
    - split; auto. repeat split.
    - rewrite E. simpl. rewrite Z.eqb_refl.
      destruct (IH (set_our_orders s0 d) (fst (LOB.cancel_order b0 k))
                  eq_refl) as [O S].
      split; [exact O|].
      unfold same_but_orders in *. simpl in S. exact S. }
  apply G. reflexivity.
Qed.

Lemma Qltb_lt x y : Qltb x y = true -> x < y.
Proof.
  unfold Qltb. intros H. apply negb_true_iff in H.
  apply Qnot_le_lt. intros L. apply Qle_bool_iff in L. congruence.
Qed.

Lemma set_entries {V : Type} (d : Dict.dict V) k v k' v' :
  In (k', v') (Dict.set d k v) -> (k', v') = (k, v) \/ In (k', v') d.
Proof.
  induction d as [|[k0 v0] d IH]; simpl.
  - intros [E|[]]; auto.
  - destruct (k0 =? k); simpl.
    + intros [E|I]; auto.
    + intros [E|I]; auto. destruct (IH I); auto.
Qed.

Lemma set_length {V : Type} (d : Dict.dict V) k v :
  (length (Dict.set d k v) <= S (length d))%nat.
Proof.
  induction d as [|[k0 v0] d IH]; simpl; auto.
  destruct (k0 =? k); simpl; lia.
Qed.

Lemma placed_rests b sd p s t :
  In (LOB.mkOrder (snd (LOB.place_limit_order b sd p s t)) sd p s t)
    (LOB.level
       (LOB.half (LOB.placed_on sd) (fst (LOB.place_limit_order b sd p s t)))
       p).
Proof.
  unfold LOB.place_limit_order, LOB.placed_on.
  destruct (sd =? "bid")%string; simpl;
    rewrite LOBFacts.level_set_same; apply in_or_app; right; now left.
Qed.

(** X17.  Quotes stay behind the top of book.  After [on_event] on a book
    with best bid [bb] and best ask [ba] the strategy owns at most two
    orders, all placed by this call: a bid only if the inventory is below
    the position limit, priced at or below [bb], and an ask only if the
    inventory is above minus the limit, priced at or above [ba]; each has
    the configured size and rests in the book at its price.  The position,
    cash, average cost, realized PnL and fills list are not touched. *)
Theorem quotes_stay_behind_top np cfg s b t bb ba :
  LOB.top_of_book b = (Some bb, Some ba) ->
  let s' := fst (on_event np cfg s b t) in
  let b' := snd (on_event np cfg s b t) in
  (length (our_orders s') <= 2)%nat
  /\ (forall id sd px sz,
        In (id, (sd, px, sz)) (our_orders s') ->
        sz = order_size cfg
        /\ ((sd = "bid"%string /\ (px <= bb)%Z
             /\ inventory s < inject_Z (position_limit cfg))
            \/ (sd = "ask"%string /\ (ba <= px)%Z
                /\ - inject_Z (position_limit cfg) < inventory s))
        /\ In (LOB.mkOrder id sd px sz t)
             (LOB.level (LOB.half (LOB.placed_on sd) b') px))
  /\ inventory s' = inventory s /\ cash s' = cash s
  /\ avg_price s' = avg_price s /\ realized s' = realized s
  /\ fills s' = fills s.
Proof.
  intros T s' b'. unfold s', b', on_event. clear s' b'. rewrite T. cbv zeta.
  match goal with
  | |- context [_desired_quotes np cfg ?s0 ?m] =>
      destruct (_desired_quotes np cfg s0 m) as [db da]
  end.
  unfold _place_quotes.
  match goal with
  | |- context [cancel_all ?s0 b] =>
      destruct (cancel_all_spec s0 b) as [O S];
      destruct (cancel_all s0 b) as [s1 b1]
  end.
  cbn [fst snd] in O, S.
  destruct S as [S1 [S2 [S3 [S4 [S5 _]]]]]. cbn in S1, S2, S3, S4, S5.
  pose proof (Z.le_min_r db bb) as Lb.
  pose proof (Z.le_max_r da ba) as La.
  destruct (Qltb (inventory s1) (inject_Z (position_limit cfg))) eqn:QB.
  - pose proof (placed_rests b1 "bid" (Z.min db bb) (order_size cfg) t) as RB.
    destruct (LOB.place_limit_order b1 "bid" (Z.min db bb) (order_size cfg) t)
      as [b2 bid_oid] eqn:PB.
    cbn [inventory set_our_orders our_orders fst snd] in *.
    destruct (Qltb (- inject_Z (position_limit cfg)) (inventory s1)) eqn:QA.
    + pose proof (placed_rests b2 "ask" (Z.max da ba) (order_size cfg) t)
        as RA.
      assert (KB : LOB.bids
                     (fst (LOB.place_limit_order b2 "ask" (Z.max da ba)
                             (order_size cfg) t)) = LOB.bids b2)
        by reflexivity.
      destruct (LOB.place_limit_order b2 "ask" (Z.max da ba)
                  (order_size cfg) t) as [b3 ask_oid] eqn:PA.
      cbn [push_curves set_our_orders our_orders inventory cash avg_price
           realized fills fst snd] in *.
      rewrite O. split; [apply set_length|]. split; [|auto].
      intros id sd px sz I.
      apply set_entries in I. destruct I as [E|I].
      * inversion E; subst. split; auto. split; auto.
        right. split; auto. split; auto. rewrite <- S1.
        now apply Qltb_lt.
      * simpl in I. destruct I as [E|[]]. inversion E; subst.
        split; auto. split.
        -- left. split; auto. split; auto. rewrite <- S1.
           now apply Qltb_lt.
        -- cbn in RB |- *. now rewrite KB.
    + cbn [push_curves set_our_orders our_orders inventory cash avg_price
           realized fills fst snd] in *.
      rewrite O. split; [simpl; lia|]. split; [|auto].
      intros id sd px sz I. simpl in I. destruct I as [E|[]].
      inversion E; subst. split; auto. split; auto.
      left. split; auto. split; auto. rewrite <- S1. now apply Qltb_lt.
  - destruct (Qltb (- inject_Z (position_limit cfg)) (inventory s1)) eqn:QA.
    + pose proof (placed_rests b1 "ask" (Z.max da ba) (order_size cfg) t)
        as RA.
      destruct (LOB.place_limit_order b1 "ask" (Z.max da ba)
                  (order_size cfg) t) as [b3 ask_oid] eqn:PA.
      cbn [push_curves set_our_orders our_orders inventory cash avg_price
           realized fills fst snd] in *.
      rewrite O. split; [simpl; lia|]. split; [|auto].
      intros id sd px sz I. simpl in I. destruct I as [E|[]].
      inversion E; subst. split; auto. split; auto.
      right. split; auto. split; auto. rewrite <- S1. now apply Qltb_lt.
    + cbn [push_curves set_our_orders our_orders inventory cash avg_price
           realized fills fst snd] in *.
      rewrite O. split; [simpl; lia|]. split; [|auto].
      intros id sd px sz [].
Qed.

Lemma quotes_stay_behind_top_witness :
  LOB.top_of_book LOB.demo_book = (Some 99%Z, Some 101%Z)
  /\ (length
        (our_orders
           (fst (on_event (fun _ => 0%Q) default_config init_state
                   LOB.demo_book 3%Q))) <= 2)%nat.
Proof.
  split; [reflexivity|].
  exact (proj1 (quotes_stay_behind_top (fun _ => 0%Q) default_config init_state
                  LOB.demo_book 3%Q 99%Z 101%Z eq_refl)).
Defined.

(** *** The window of mid prices *)

Lemma place_quotes_same cfg s b bid_px ask_px t :
  same_but_orders s (fst (_place_quotes cfg s b bid_px ask_px t)).
Proof.
  unfold _place_quotes.
  destruct (cancel_all_spec s b) as [_ S].
  destruct (cancel_all s b) as [s1 b1]. cbn [fst] in S.
  repeat match goal with
         | |- context [if ?c then _ else _] => destruct c
         | |- context [LOB.place_limit_order ?b ?sd ?p ?s ?t] =>
             destruct (LOB.place_limit_order b sd p s t)
         end; exact S.
Qed.

Lemma deque_append_spec n l x :
  length (deque_append n l x) = Nat.min n (S (length l))
  /\ exists dropped, l ++ [x] = dropped ++ deque_append n l x.
Proof.
  unfold deque_append. split.
  - rewrite length_skipn, length_app. simpl. lia.
  - exists (firstn (length (l ++ [x]) - n) (l ++ [x])).
    now rewrite firstn_skipn.
Qed.

(** X18.  The window of mid prices.  On a two-sided book [on_event] records
    the mid of best bid and best ask as the last mid and appends it to the
    window, dropping the oldest entries so that the window never holds more
    than [vol_window] values and always keeps the most recent ones.  On a
    book that lacks a best bid or a best ask [on_event] does nothing at
    all: the strategy and the book are returned as they were. *)
Theorem mid_window_slides np cfg s b t :
  (forall bb ba,
     LOB.top_of_book b = (Some bb, Some ba) ->
     let mid := (inject_Z bb + inject_Z ba) / 2 in
     let s' := fst (on_event np cfg s b t) in
     last_mid s' = Some mid
     /\ length (mids s') = Nat.min (vol_window cfg) (S (length (mids s)))
     /\ (length (mids s') <= vol_window cfg)%nat
     /\ exists dropped, mids s ++ [mid] = dropped ++ mids s')
  /\ (fst (LOB.top_of_book b) = None \/ snd (LOB.top_of_book b) = None ->
      on_event np cfg s b t = (s, b)).
Proof.
  split.
  - intros bb ba T mid s'. unfold s', on_event. clear s'. rewrite T.
    cbv zeta. fold mid.
    match goal with
    | |- context [_desired_quotes np cfg ?s0 ?m] =>
        destruct (_desired_quotes np cfg s0 m) as [db da]
    end.
    match goal with
    | |- context [_place_quotes cfg ?s0 b ?x ?y t] =>
        destruct (place_quotes_same cfg s0 b x y t)
          as [_ [_ [_ [_ [_ [M [_ [_ LM]]]]]]]];
        destruct (_place_quotes cfg s0 b x y t) as [s1 b1]
    end.
    cbn [fst push_curves mids last_mid set_mids] in *.
    rewrite M, LM.
    destruct (deque_append_spec (vol_window cfg) (mids s) mid) as [L D].
    repeat split; auto. rewrite L. lia.
  - intros H. unfold on_event.
    destruct (LOB.top_of_book b) as [[bb|] [ba|]]; simpl in H;
      try reflexivity; destruct H; discriminate.
Qed.

Lemma mid_window_slides_witness :
  LOB.top_of_book LOB.demo_book = (Some 99%Z, Some 101%Z)
  /\ last_mid (fst (on_event (fun _ => 0%Q) default_config init_state
                      LOB.demo_book 3%Q))
     = Some ((inject_Z 99 + inject_Z 101) / 2)
  /\ on_event (fun _ => 0%Q) default_config init_state LOB.empty_book 3
     = (init_state, LOB.empty_book).
Proof.
  destruct (mid_window_slides (fun _ => 0%Q) default_config init_state
              LOB.demo_book 3%Q) as [A _].
  destruct (mid_window_slides (fun _ => 0%Q) default_config init_state
              LOB.empty_book 3%Q) as [_ B].
  split; [reflexivity|].
  split; [exact (proj1 (A 99%Z 101%Z eq_refl))|].
  apply B. left. reflexivity.
Defined.

Lemma metrics_report_witness :
  inventory (on_fill long10 "sell" 105 10 1) == 0
  /\ realized (on_fill long10 "sell" 105 10 1) == 50
  /\ total_pnl (metrics (fun _ => 0%Q) 16 (on_fill long10 "sell" 105 10 1))
     == 0
  /\ max_drawdown (metrics (fun _ => 0%Q) 16 long5) = 0.
Proof.
  assert (Z : inventory (on_fill long10 "sell" 105 10 1) == 0)
    by reflexivity.
  destruct (metrics_report (fun _ => 0%Q) 16
              (on_fill long10 "sell" 105 10 1))
    as [_ [_ [_ [_ [_ [_ [T _]]]]]]].
  destruct (metrics_report (fun _ => 0%Q) 16 long5)
    as [_ [_ [_ [_ [_ [_ [_ D]]]]]]].
  split; [exact Z|]. split; [reflexivity|].
  split; [exact (proj2 (T (or_intror Z)))|].
  apply D. simpl. lia.
Defined.

Lemma max_drawdown_is_steepest_fall_witness :
  map snd [(0, 100); (1, 104); (2, 97); (3, 99)] <> []
  /\ max_drawdown
       (metrics (fun _ => 0%Q) 16
          (push_curves
             (push_curves
                (push_curves (push_curves init_state (0, 100) (0, 0))
                   (1, 104) (1, 0)) (2, 97) (2, 0)) (3, 99) (3, 0)))
     <= 97 - 104.
Proof.
  split; [discriminate|].
  apply (proj1 (proj2 (max_drawdown_is_steepest_fall (fun _ => 0%Q) 16
                         (push_curves
                            (push_curves
                               (push_curves
                                  (push_curves init_state (0, 100) (0, 0))
                                  (1, 104) (1, 0)) (2, 97) (2, 0))
                            (3, 99) (3, 0))))
         [100; 104] 97 [99] 104).
  - reflexivity.
  - simpl. auto.
Defined.

(** *** What quoting does to the book and to the accounts *)

Section BookProperty.
Variable P : LOB.OrderBook -> Prop.
Variable cfg : Config.
Hypothesis P_cancel : forall b id, P b -> P (fst (LOB.cancel_order b id)).
Hypothesis P_place :
  forall b sd p t,
    P b -> P (fst (LOB.place_limit_order b sd p (order_size cfg) t)).

Lemma cancel_all_keeps s b : P b -> P (snd (cancel_all s b)).
Proof.
  unfold cancel_all. generalize (Dict.keys (our_orders s)) as ks.
  intros ks. revert s b.
  induction ks as [|k ks IH]; intros s b Pb; simpl; auto.
Qed.

Lemma place_quotes_keeps s b bid_px ask_px t :
  P b -> P (snd (_place_quotes cfg s b bid_px ask_px t)).
Proof.
  intros Pb. unfold _place_quotes.
  pose proof (cancel_all_keeps s b Pb) as P1.
  destruct (cancel_all s b) as [s1 b1]. cbn [snd] in P1.
  destruct (Qltb (inventory s1) (inject_Z (position_limit cfg))).
  - pose proof (P_place b1 "bid"%string bid_px t P1) as P2.
    destruct (LOB.place_limit_order b1 "bid" bid_px (order_size cfg) t)
      as [b2 id2].
    cbn [fst set_our_orders inventory] in *.
    destruct (Qltb (- inject_Z (position_limit cfg)) (inventory s1)).
    + pose proof (P_place b2 "ask"%string ask_px t P2) as P3.
      destruct (LOB.place_limit_order b2 "ask" ask_px (order_size cfg) t)
        as [b3 id3].
      exact P3.
    + exact P2.
  - destruct (Qltb (- inject_Z (position_limit cfg)) (inventory s1)).
    + pose proof (P_place b1 "ask"%string ask_px t P1) as P3.
      destruct (LOB.place_limit_order b1 "ask" ask_px (order_size cfg) t)
        as [b3 id3].
      exact P3.
    + exact P1.
Qed.

Lemma on_event_keeps np s b t : P b -> P (snd (on_event np cfg s b t)).
Proof.
  intros Pb. unfold on_event.
  destruct (LOB.top_of_book b) as [[bb|] [ba|]]; auto.
  cbv zeta.
  match goal with
  | |- context [_desired_quotes np cfg ?s0 ?m] =>
      destruct (_desired_quotes np cfg s0 m) as [db da]
  end.
  match goal with
  | |- context [_place_quotes cfg ?s0 b ?x ?y t] =>
      pose proof (place_quotes_keeps s0 b x y t Pb) as P1;
      destruct (_place_quotes cfg s0 b x y t) as [s1 b1]
  end.
  exact P1.
Qed.
End BookProperty.

Lemma on_event_accounts np cfg s b t :
  inventory (fst (on_event np cfg s b t)) = inventory s
  /\ cash (fst (on_event np cfg s b t)) = cash s
  /\ avg_price (fst (on_event np cfg s b t)) = avg_price s
  /\ realized (fst (on_event np cfg s b t)) = realized s
  /\ fills (fst (on_event np cfg s b t)) = fills s.
Proof.
  unfold on_event.
  destruct (LOB.top_of_book b) as [[bb|] [ba|]]; auto.
  cbv zeta.
  match goal with
  | |- context [_desired_quotes np cfg ?s0 ?m] =>
      destruct (_desired_quotes np cfg s0 m) as [db da]
  end.
  match goal with
  | |- context [_place_quotes cfg ?s0 b ?x ?y t] =>
      destruct (place_quotes_same cfg s0 b x y t)
        as [I [C [A [R [F _]]]]];
      destruct (_place_quotes cfg s0 b x y t) as [s1 b1]
  end.
  cbn [fst push_curves inventory cash avg_price realized fills set_mids]
    in *.
  auto.
Qed.

(** *** Desired quotes *)

Lemma qtick_pos cfg : 0 < qtick cfg.
Proof.
  unfold qtick. change 0 with (inject_Z 0). rewrite <- Zlt_Qlt. lia.
Qed.

Lemma floor_grid x tk :
  0 < tk ->
  inject_Z (Qfloor (x / tk)) * tk <= x
  /\ x < inject_Z (Qfloor (x / tk)) * tk + tk.
Proof.
  intros P.
  assert (E : x / tk * tk == x) by (field; lra).
  split.
  - rewrite <- E at 2. apply Qmult_le_compat_r; [apply Qfloor_le | lra].
  - pose proof (Qlt_floor (x / tk)) as L.
    rewrite inject_Z_plus in L.
    apply (Qmult_lt_compat_r _ _ tk P) in L. rewrite E in L.
    setoid_replace ((inject_Z (Qfloor (x / tk)) + inject_Z 1) * tk)
      with (inject_Z (Qfloor (x / tk)) * tk + tk) in L by ring.
    exact L.
Qed.

Lemma ceiling_grid x tk :
  0 < tk ->
  inject_Z (Qceiling (x / tk)) * tk - tk < x
  /\ x <= inject_Z (Qceiling (x / tk)) * tk.
Proof.
  intros P.
  assert (E : x / tk * tk == x) by (field; lra).
  split.
  - pose proof (Qceiling_lt (x / tk)) as L.
    unfold Z.sub in L. rewrite inject_Z_plus in L.
    apply (Qmult_lt_compat_r _ _ tk P) in L. rewrite E in L.
    setoid_replace ((inject_Z (Qceiling (x / tk)) + inject_Z (-1)) * tk)
      with (inject_Z (Qceiling (x / tk)) * tk - tk) in L by ring.
    exact L.
  - rewrite <- E at 1. apply Qmult_le_compat_r; [apply Qle_ceiling | lra].
Qed.

(** X19.  Desired quotes sit on the tick grid around the skewed mid.  With
    the mid shifted by [inventory_k * inventory] ticks against the position
    and half the spread taken on each side, the desired bid is the highest
    multiple of the tick that is not above the lower target and the desired
    ask the lowest multiple of the tick that is not below the upper target;
    when the spread is not negative the desired bid is not above the
    desired ask. *)
Theorem desired_quotes_on_grid np cfg s mid :
  let tk := qtick cfg in
  let eff_mid := mid - inventory_k cfg * inventory s * tk in
  let half_spread := (1 # 2) * _compute_spread_ticks np cfg s * tk in
  let bid := fst (_desired_quotes np cfg s mid) in
  let ask := snd (_desired_quotes np cfg s mid) in
  (Z.pos (tick cfg) | bid)%Z
  /\ (Z.pos (tick cfg) | ask)%Z
  /\ inject_Z bid <= eff_mid - half_spread
  /\ eff_mid - half_spread < inject_Z bid + tk
  /\ inject_Z ask - tk < eff_mid + half_spread
  /\ eff_mid + half_spread <= inject_Z ask
  /\ (0 <= _compute_spread_ticks np cfg s -> (bid <= ask)%Z).
Proof.
  intros tk eff_mid half_spread bid ask.
  pose proof (qtick_pos cfg) as P. fold tk in P.
  destruct (floor_grid (eff_mid - half_spread) tk P) as [B1 B2].
  destruct (ceiling_grid (eff_mid + half_spread) tk P) as [A1 A2].
  assert (Eb : inject_Z bid
               == inject_Z (Qfloor ((eff_mid - half_spread) / tk)) * tk).
  { unfold bid, _desired_quotes. cbn [fst]. rewrite inject_Z_mult.
    reflexivity. }
  assert (Ea : inject_Z ask
               == inject_Z (Qceiling ((eff_mid + half_spread) / tk)) * tk).
  { unfold ask, _desired_quotes. cbn [snd]. rewrite inject_Z_mult.
    reflexivity. }
  split; [eexists; reflexivity|]. split; [eexists; reflexivity|].
  rewrite Eb, Ea. repeat (split; [assumption|]).
  intros H. rewrite Zle_Qle, Eb, Ea.
  assert (0 <= half_spread).
  { unfold half_spread.
    apply Qmult_le_0_compat; [apply Qmult_le_0_compat|]; lra. }
  lra.
Qed.

Lemma desired_quotes_on_grid_witness :
  0 <= _compute_spread_ticks (fun _ => 0%Q) default_config long5
  /\ (fst (_desired_quotes (fun _ => 0%Q) default_config long5 100)
      <= snd (_desired_quotes (fun _ => 0%Q) default_config long5 100))%Z.
Proof.
  assert (L : 0 <= _compute_spread_ticks (fun _ => 0%Q) default_config long5)
    by (vm_compute; discriminate).
  split; [exact L|].
  exact (proj2 (proj2 (proj2 (proj2 (proj2 (proj2
           (desired_quotes_on_grid (fun _ => 0%Q) default_config long5
              100)))))) L).
Defined.

End MarketMakerExtra.

(** * The replayer beyond the claims *)

Module ReplayerExtra.
Import LOB Replayer LOBFacts ReplayerFacts.

Section AnyStrategy.
Context {S : Type} `{Strategy S}.

(** The state the strategy's [on_event] leaves after acting at [t]. *)
Let act (r : Replayer S) (t : Q) : Replayer S :=
  mkReplayer (snd (on_event (strategy r) (ob r) t))
    (fst (on_event (strategy r) (ob r) t)) (stats_fills r).

Let traded (r : Replayer S) (p sz : Z) (t : Q) : Replayer S :=
  fold_left (notify t) (snd (process_trade (ob r) p sz t))
    (mkReplayer (fst (process_trade (ob r) p sz t)) (strategy r)
       (stats_fills r)).

Lemma step_cases i (r : Replayer S) ev :
  well_formed ev = true ->
  exists r1,
    step i r ev = Ok (act r1 (event_time i ev))
    /\ ((exists bs as_,
           r1 = mkReplayer (apply_snapshot (ob r) bs as_ (event_time i ev))
                  (strategy r) (stats_fills r))
        \/ (exists p sz, r1 = traded r p sz (event_time i ev))
        \/ r1 = r).
Proof.
  intros W. unfold well_formed in W. unfold step, lookup, act.
  destruct (ev_type ev) as [typ|]; [|discriminate].
  unfold dispatch, lookup.
  destruct (typ =? "snapshot")%string.
  - destruct (ev_bids ev) as [bs|]; [|discriminate].
    destruct (ev_asks ev) as [as_|]; [|discriminate].
    exists (mkReplayer (apply_snapshot (ob r) bs as_ (event_time i ev))
              (strategy r) (stats_fills r)).
    split; [|left; eauto].
    destruct (on_event _ _ _); reflexivity.
  - destruct (typ =? "trade")%string.
    + destruct (ev_price ev) as [p|]; [|discriminate].
      destruct (ev_size ev) as [sz|]; [|discriminate].
      exists (traded r p sz (event_time i ev)).
      split; [|right; left; eauto].
      unfold traded.
      destruct (process_trade (ob r) p sz (event_time i ev)) as [b' fills].
      cbn [fst snd].
      destruct (on_event _ _ _); reflexivity.
    + exists r. split; [|right; right; reflexivity].
      destruct (on_event _ _ _); reflexivity.
Qed.

Lemma step_ok_iff i (r : Replayer S) ev :
  (exists r', step i r ev = Ok r') <-> well_formed ev = true.
Proof.
  split.
  - intros [r' E]. unfold step, lookup, dispatch, lookup in E.
    unfold well_formed.
    destruct (ev_type ev) as [typ|]; [|discriminate].
    destruct (typ =? "snapshot")%string.
    + destruct (ev_bids ev); [|discriminate].
      destruct (ev_asks ev); [reflexivity|discriminate].
    + destruct (typ =? "trade")%string; [|reflexivity].
      destruct (ev_price ev); [|discriminate].
      destruct (ev_size ev); [reflexivity|discriminate].
  - intros W. destruct (step_cases i r ev W) as [r1 [E _]]. eauto.
Qed.

Lemma run_from_prefix events :
  forall i max_events (r : Replayer S),
    run_from i max_events events r
    = run_from i max_events
        (firstn (Z.to_nat (max_events - Z.of_nat i)) events) r.
Proof.
  induction events as [|ev events IH]; intros i max_events r.
  - now rewrite firstn_nil.
  - cbn [run_from].
    destruct (max_events <=? Z.of_nat i)%Z eqn:E.
    + apply Z.leb_le in E.
      replace (Z.to_nat (max_events - Z.of_nat i)) with O by lia.
      reflexivity.
    + apply Z.leb_gt in E.
      replace (Z.to_nat (max_events - Z.of_nat i))
        with (Datatypes.S
                (Z.to_nat (max_events - Z.of_nat (Datatypes.S i)))) by lia.
      cbn [firstn run_from].
      apply Z.leb_gt in E. rewrite E.
      destruct (step i r ev) as [r'|k]; [apply IH | reflexivity].
Qed.

Lemma run_from_ok_iff events :
  forall i max_events (r : Replayer S),
    (exists r', run_from i max_events events r = Ok r')
    <-> forallb well_formed
          (firstn (Z.to_nat (max_events - Z.of_nat i)) events) = true.
Proof.
  induction events as [|ev events IH]; intros i max_events r.
  - rewrite firstn_nil. simpl. split; eauto.
  - cbn [run_from].
    destruct (max_events <=? Z.of_nat i)%Z eqn:E.
    + apply Z.leb_le in E.
      replace (Z.to_nat (max_events - Z.of_nat i)) with O by lia.
      simpl. split; eauto.
    + apply Z.leb_gt in E.
      replace (Z.to_nat (max_events - Z.of_nat i))
        with (Datatypes.S
                (Z.to_nat (max_events - Z.of_nat (Datatypes.S i)))) by lia.
      cbn [firstn forallb]. rewrite andb_true_iff.
      pose proof (step_ok_iff i r ev) as SO.
      destruct (step i r ev) as [r'|k].
      * rewrite IH. split; [intros F; split; auto; apply SO; eauto|tauto].
      * split.
        -- intros [r' D]. discriminate.
        -- intros [W _]. apply SO in W. destruct W as [r' D]. discriminate.
Qed.

(** Relations between the state before and after that every part of a
    loop iteration respects are respected by a whole run. *)
Section Along.
Variable R : Replayer S -> Replayer S -> Prop.
Hypothesis R_refl : forall r, R r r.
Hypothesis R_trans : forall a b c, R a b -> R b c -> R a c.
Hypothesis R_snapshot :
  forall r bs as_ t,
    R r (mkReplayer (apply_snapshot (ob r) bs as_ t) (strategy r)
           (stats_fills r)).
Hypothesis R_trade : forall r p sz t, R r (traded r p sz t).
Hypothesis R_act : forall r t, R r (act r t).

Lemma step_along i r ev :
  well_formed ev = true -> exists r', step i r ev = Ok r' /\ R r r'.
Proof.
  intros W. destruct (step_cases i r ev W) as [r1 [E C]].
  exists (act r1 (event_time i ev)). split; [exact E|].
  apply R_trans with r1; [|apply R_act].
  destruct C as [[bs [as_ ->]]|[[p [sz ->]]| ->]]; auto.
Qed.

Lemma run_from_along events :
  forall i max_events r,
    forallb well_formed events = true ->
    exists r', run_from i max_events events r = Ok r' /\ R r r'.
Proof.
  induction events as [|ev events IH]; intros i max_events r W.
  - exists r. split; [reflexivity | apply R_refl].
  - cbn [run_from]. cbn [forallb] in W. apply andb_true_iff in W.
    destruct W as [W1 W2].
    destruct (max_events <=? Z.of_nat i)%Z.
    + exists r. split; [reflexivity | apply R_refl].
    + destruct (step_along i r ev W1) as [r1 [E R1]]. rewrite E.
      destruct (IH (Datatypes.S i) max_events r1 W2) as [r2 [E2 R2]].
      exists r2. split; [exact E2 | eapply R_trans; eauto].
Qed.

Lemma run_along max_events events r :
  forallb well_formed (firstn (Z.to_nat max_events) events) = true ->
  exists r', run max_events events r = Ok r' /\ R r r'.
Proof.
  intros W. unfold run. rewrite run_from_prefix.
  replace (max_events - Z.of_nat 0)%Z with max_events by lia.
  now apply run_from_along.
Qed.
End Along.

(** X20.  The loop reads the first [max_events] events and no more.  A run
    over a list of events is the run over its first [max_events] events,
    so that nothing past them is looked at, not even a missing field; it
    ends without a [KeyError] exactly when each of those first events has
    the fields its type makes the loop read; and with [max_events] at zero
    or below the replayer is returned as it was. *)
Theorem run_reads_first_max_events (max_events : Z) (events : list Event)
  (r : Replayer S) :
  run max_events events r
  = run max_events (firstn (Z.to_nat max_events) events) r
  /\ ((exists r', run max_events events r = Ok r')
      <-> forallb well_formed (firstn (Z.to_nat max_events) events) = true)
  /\ ((max_events <= 0)%Z -> run max_events events r = Ok r).
Proof.
  assert (E : run max_events events r
              = run max_events (firstn (Z.to_nat max_events) events) r).
  { unfold run. rewrite run_from_prefix.
    replace (max_events - Z.of_nat 0)%Z with max_events by lia.
    reflexivity. }
  split; [exact E|]. split.
  - unfold run. rewrite run_from_ok_iff.
    replace (max_events - Z.of_nat 0)%Z with max_events by lia. tauto.
  - intros L. rewrite E.
    replace (Z.to_nat max_events) with O by lia. reflexivity.
Qed.
End AnyStrategy.

Lemma run_reads_first_max_events_witness :
  (0 <= 0)%Z
  /\ @run _ (MM flat_std MarketMaker.default_config) 0
       [mkEvent None None None None None None] fresh_mm
     = Ok fresh_mm.
Proof.
  split; [lia|].
  apply (proj2 (proj2 (@run_reads_first_max_events _
                         (MM flat_std MarketMaker.default_config) 0
                         [mkEvent None None None None None None]
                         fresh_mm))).
  lia.
Defined.

(** *** The fills log and the calls to [on_fill] *)

Lemma rows_of_calls_app l1 l2 :
  rows_of_calls (l1 ++ l2) = rows_of_calls l1 ++ rows_of_calls l2.
Proof.
  induction l1 as [|[sd p qty t|b t] l1 IH]; simpl; auto.
  now rewrite IH.
Qed.

Section Logged.
Context {S : Type} `{Strategy S}.

Let logged (r r' : Replayer (S * list Call)) : Prop :=
  exists new,
    snd (strategy r') = snd (strategy r) ++ new
    /\ stats_fills r' = stats_fills r ++ rows_of_calls new.

Lemma logged_refl r : logged r r.
Proof. exists []. simpl. now rewrite !app_nil_r. Qed.

Lemma logged_trans a b c : logged a b -> logged b c -> logged a c.
Proof.
  intros [n1 [L1 F1]] [n2 [L2 F2]]. exists (n1 ++ n2).
  rewrite L2, L1, F2, F1, rows_of_calls_app, !app_assoc. auto.
Qed.

Lemma notify_logged t fills (r : Replayer (S * list Call)) :
  logged r (fold_left (@notify _ Spy t) fills r).
Proof.
  revert r. induction fills as [|[[sd p] qty] fills IH]; intros r;
    cbn [fold_left].
  - apply logged_refl.
  - eapply logged_trans; [|apply IH].
    exists [CallFill sd p qty t]. simpl. auto.
Qed.

(** X21.  The fills log is the record of the calls to [on_fill].  Over a
    run whose events read have the fields they need, whatever the strategy,
    the rows appended to [stats['fills']] are, one for one and in the same
    order, the [on_fill] calls the strategy received, each row carrying the
    side, price, quantity and time of its call; calls to [on_event] add no
    row. *)
Theorem fills_log_matches_calls (max_events : Z) (events : list Event)
  (r : Replayer (S * list Call)) :
  forallb well_formed (firstn (Z.to_nat max_events) events) = true ->
  exists r' new,
    @run _ Spy max_events events r = Ok r'
    /\ snd (strategy r') = snd (strategy r) ++ new
    /\ stats_fills r' = stats_fills r ++ rows_of_calls new.
Proof.
  intros W.
  destruct (@run_along _ Spy logged logged_refl logged_trans) with
    (max_events := max_events) (events := events) (r := r)
    as [r' [E [new [L F]]]]; auto.
  - intros r0 bs as_ t. exists []. simpl. now rewrite !app_nil_r.
  - intros r0 p sz t.
    eapply logged_trans; [|apply notify_logged].
    exists []. simpl. now rewrite !app_nil_r.
  - intros r0 t. exists [CallEvent (ob r0) t]. simpl.
    destruct (on_event (fst (strategy r0)) (ob r0) t). simpl.
    now rewrite app_nil_r.
  - exists r', new. auto.
Qed.
End Logged.

Lemma fills_log_matches_calls_witness :
  forallb well_formed (firstn (Z.to_nat 10000) demo_events) = true
  /\ exists r' new,
       spied_run 10000 demo_events = Ok r'
       /\ snd (strategy r') = snd (strategy fresh) ++ new
       /\ stats_fills r' = stats_fills fresh ++ rows_of_calls new.
Proof.
  split; [reflexivity|].
  exact (@fills_log_matches_calls _ (MM flat_std MarketMaker.default_config)
           10000 demo_events fresh eq_refl).
Defined.

(** *** Runs of the market maker *)

Lemma qsum_app l1 l2 : (qsum (l1 ++ l2) == qsum l1 + qsum l2)%Q.
Proof.
  induction l1 as [|x l1 IH]; simpl.
  - ring.
  - rewrite IH. ring.
Qed.

Section MarketMakerRuns.
Variable np : list Q -> Q.
Variable cfg : MarketMaker.Config.
Hypothesis order_size_pos : 0 < MarketMaker.order_size cfg.

Let mm : Strategy MarketMaker.State := MM np cfg.

(** The rows added to the log are booked by the strategy. *)
Let booked (r r' : Replayer MarketMaker.State) : Prop :=
  exists rows,
    stats_fills r' = stats_fills r ++ rows
    /\ MarketMaker.fills (strategy r')
       = MarketMaker.fills (strategy r) ++ map fill_entry rows
    /\ (MarketMaker.inventory (strategy r')
        == MarketMaker.inventory (strategy r)
           + qsum (map row_inventory rows))%Q
    /\ (MarketMaker.cash (strategy r')
        == MarketMaker.cash (strategy r) + qsum (map row_cash rows))%Q.

Lemma booked_nothing r r' :
  stats_fills r' = stats_fills r ->
  MarketMaker.fills (strategy r') = MarketMaker.fills (strategy r) ->
  MarketMaker.inventory (strategy r') = MarketMaker.inventory (strategy r) ->
  MarketMaker.cash (strategy r') = MarketMaker.cash (strategy r) ->
  booked r r'.
Proof.
  intros E1 E2 E3 E4. exists []. simpl.
  rewrite E1, E2, E3, E4, !app_nil_r.
  repeat split; auto; ring.
Qed.

Lemma booked_trans a b c : booked a b -> booked b c -> booked a c.
Proof.
  intros [r1 [S1 [F1 [I1 C1]]]] [r2 [S2 [F2 [I2 C2]]]].
  exists (r1 ++ r2).
  rewrite S2, S1, F2, F1, !map_app, !app_assoc.
  split; [reflexivity|]. split; [reflexivity|].
  rewrite I2, I1, C2, C1, !qsum_app. split; ring.
Qed.

Lemma notify_booked t (r : Replayer MarketMaker.State) f :
  booked r (@notify _ mm t r f).
Proof.
  destruct f as [[sd p] qty]. exists [mkRow t sd p qty].
  cbn [notify stats_fills strategy on_fill mm MM map].
  destruct (MarketMakerExtra.on_fill_effect (strategy r) sd (inject_Z p)
              (inject_Z qty) t) as [B [Sl [O [F _]]]].
  split; [reflexivity|]. split; [exact F|].
  unfold row_inventory, row_cash, qsum.
  cbn [row_side row_price row_qty fold_right].
  destruct (string_dec sd "buy") as [->|N1].
  - destruct (B eq_refl) as [C I]. simpl String.eqb. cbv iota.
    rewrite C, I. split; ring.
  - destruct (string_dec sd "sell") as [->|N2].
    + destruct (Sl eq_refl) as [C I]. simpl String.eqb. cbv iota.
      rewrite C, I. split; ring.
    + destruct (O N1 N2) as [C [I _]].
      apply String.eqb_neq in N1, N2. rewrite N1, N2, C, I.
      split; ring.
Qed.

Lemma fold_notify_booked t fills (r : Replayer MarketMaker.State) :
  booked r (fold_left (@notify _ mm t) fills r).
Proof.
  revert r. induction fills as [|f fills IH]; intros r; cbn [fold_left].
  - now apply booked_nothing.
  - eapply booked_trans; [apply notify_booked | apply IH].
Qed.

(** X22.  The fills log accounts for the market maker's position.  Over a
    run whose events read have the fields they need, the market maker's
    own [fills] list grows by exactly the rows appended to the replayer's
    fills log, its inventory changes by the quantities of the ['buy'] rows
    less those of the ['sell'] rows, and its cash by the proceeds of the
    ['sell'] rows less the cost of the ['buy'] rows: quoting, cancelling
    and snapshots move neither. *)
Theorem fills_log_accounts_for_position (max_events : Z)
  (events : list Event) (r : Replayer MarketMaker.State) :
  forallb well_formed (firstn (Z.to_nat max_events) events) = true ->
  exists r' rows,
    @run _ mm max_events events r = Ok r'
    /\ stats_fills r' = stats_fills r ++ rows
    /\ MarketMaker.fills (strategy r')
       = MarketMaker.fills (strategy r) ++ map fill_entry rows
    /\ (MarketMaker.inventory (strategy r')
        == MarketMaker.inventory (strategy r)
           + qsum (map row_inventory rows))%Q
    /\ (MarketMaker.cash (strategy r')
        == MarketMaker.cash (strategy r) + qsum (map row_cash rows))%Q.
Proof.
  intros W.
  destruct (@run_along _ mm booked) with
    (max_events := max_events) (events := events) (r := r)
    as [r' [E [rows B]]]; auto.
  - intros r0. now apply booked_nothing.
  - apply booked_trans.
  - intros r0 bs as_ t. now apply booked_nothing.
  - intros r0 p sz t.
    eapply booked_trans; [|apply fold_notify_booked].
    now apply booked_nothing.
  - intros r0 t.
    destruct (MarketMakerExtra.on_event_accounts np cfg (strategy r0)
                (ob r0) t) as [I [C [_ [_ F]]]].
    apply booked_nothing; auto.
  - exists r', rows. auto.
Qed.

(** The book is admissible and no resting size is zero or less. *)
Let sound (r : Replayer MarketMaker.State) : Prop :=
  lob_inv (ob r) /\ forall dir, sizes_pos (half dir (ob r)).

Let real_rows (rows : list FillRow) : Prop :=
  Forall (fun row =>
            0 < row_qty row
            /\ (row_side row = "buy"%string
                \/ row_side row = "sell"%string)) rows.

Let stays_sound (r r' : Replayer MarketMaker.State) : Prop :=
  sound r ->
  sound r'
  /\ exists rows, stats_fills r' = stats_fills r ++ rows /\ real_rows rows.

Lemma stays_sound_nothing r r' :
  stats_fills r' = stats_fills r -> (sound r -> sound r') ->
  stays_sound r r'.
Proof.
  intros E K J. split; [auto|]. exists []. rewrite E, app_nil_r.
  split; [reflexivity | constructor].
Qed.

Lemma stays_sound_trans a b c :
  stays_sound a b -> stays_sound b c -> stays_sound a c.
Proof.
  intros AB BC J. destruct (AB J) as [Jb [r1 [E1 F1]]].
  destruct (BC Jb) as [Jc [r2 [E2 F2]]]. split; [exact Jc|].
  exists (r1 ++ r2). rewrite E2, E1, app_assoc. split; [reflexivity|].
  apply Forall_app. auto.
Qed.

Lemma fold_notify_rows t fills :
  forall r : Replayer MarketMaker.State,
    Forall (fun f => 0 < fill_qty f
                     /\ (fill_tag f = "buy"%string
                         \/ fill_tag f = "sell"%string)) fills ->
    ob (fold_left (@notify _ mm t) fills r) = ob r
    /\ exists rows,
         stats_fills (fold_left (@notify _ mm t) fills r)
         = stats_fills r ++ rows
         /\ real_rows rows.
Proof.
  induction fills as [|[[sd p] qty] fills IH]; intros r F;
    cbn [fold_left].
  - split; [reflexivity|]. exists [].
    rewrite app_nil_r. split; [reflexivity | constructor].
  - inversion F as [|f fs [Q T] F']; subst.
    unfold fill_qty, fill_tag in Q, T. simpl in Q, T.
    destruct (IH (@notify _ mm t r (sd, p, qty)) F') as [O [rows [E R]]].
    split; [rewrite O; reflexivity|].
    exists (mkRow t sd p qty :: rows). rewrite E.
    cbn [notify stats_fills]. rewrite <- app_assoc.
    split; [reflexivity|]. constructor; auto.
Qed.

(** X23.  A run of the market maker keeps the book sound.  With a positive
    order size, starting from an admissible book whose resting sizes are
    positive, a run whose events read have the fields they need ends
    without an error in an admissible book whose resting sizes are
    positive, whatever the strategy quoted and cancelled on the way.
    Every row the run adds to the fills log has a positive quantity and the
    side ['buy'] or ['sell']. *)
Theorem market_maker_run_stays_sound (max_events : Z) (events : list Event)
  (r : Replayer MarketMaker.State) :
  lob_inv (ob r) ->
  (forall dir, sizes_pos (half dir (ob r))) ->
  forallb well_formed (firstn (Z.to_nat max_events) events) = true ->
  exists r' rows,
    @run _ mm max_events events r = Ok r'
    /\ lob_inv (ob r')
    /\ (forall dir, sizes_pos (half dir (ob r')))
    /\ stats_fills r' = stats_fills r ++ rows
    /\ Forall (fun row =>
                 0 < row_qty row
                 /\ (row_side row = "buy"%string
                     \/ row_side row = "sell"%string)) rows.
Proof.
  intros INV SP W.
  destruct (@run_along _ mm stays_sound) with
    (max_events := max_events) (events := events) (r := r)
    as [r' [E K]]; auto.
  - intros r0. now apply stays_sound_nothing.
  - apply stays_sound_trans.
  - intros r0 bs as_ t. apply stays_sound_nothing; [reflexivity|].
    intros _. split; [apply apply_snapshot_inv|].
    intros dir; apply LOBExtra.snapshot_sizes_pos.
  - intros r0 p sz t [I P].
    destruct (fold_notify_rows t (snd (process_trade (ob r0) p sz t))
                (mkReplayer (fst (process_trade (ob r0) p sz t))
                   (strategy r0) (stats_fills r0)))
      as [O [rows [Er R]]].
    { now apply LOBExtra.process_trade_fills_pos. }
    split.
    + split; rewrite O; cbn [ob].
      * now apply process_trade_inv.
      * intros dir. now apply LOBExtra.process_trade_pos.
    + exists rows. split; [exact Er | exact R].
  - intros r0 t. apply stays_sound_nothing; [reflexivity|].
    intros [I P]. cbn [ob strategy on_event mm MM].
    pose proof (MarketMakerExtra.on_event_keeps
                  (fun b => lob_inv b /\ forall dir, sizes_pos (half dir b))
                  cfg) as K.
    apply K.
    + intros b id [Ib Pb]. split; [now apply cancel_order_inv|].
      intros dir x o J. apply (Pb dir x).
      eapply LOBExtra.cancel_order_members; eauto.
    + intros b sd px t0 [Ib Pb]. split; [now apply place_limit_order_inv|].
      intros dir. now apply LOBExtra.place_sizes_pos.
    + split; assumption.
  - assert (J : sound r) by (split; assumption).
    destruct (K J) as [[I' P'] [rows [Er R]]].
    exists r', rows. repeat (split; [assumption|]). exact R.
Qed.
End MarketMakerRuns.

Lemma fills_log_accounts_for_position_witness :
  forallb well_formed (firstn (Z.to_nat 10000) demo_events) = true
  /\ exists r' rows,
       @run _ (MM flat_std MarketMaker.default_config) 10000 demo_events
         fresh_mm = Ok r'
       /\ stats_fills r' = stats_fills fresh_mm ++ rows
       /\ MarketMaker.fills (strategy r')
          = MarketMaker.fills (strategy fresh_mm) ++ map fill_entry rows
       /\ (MarketMaker.inventory (strategy r')
           == MarketMaker.inventory (strategy fresh_mm)
              + qsum (map row_inventory rows))%Q
       /\ (MarketMaker.cash (strategy r')
           == MarketMaker.cash (strategy fresh_mm)
              + qsum (map row_cash rows))%Q.
Proof.
  split; [reflexivity|].
  exact (fills_log_accounts_for_position flat_std MarketMaker.default_config
           10000 demo_events fresh_mm eq_refl).
Defined.

Lemma market_maker_run_stays_sound_witness :
  0 < MarketMaker.order_size MarketMaker.default_config
  /\ lob_inv (ob fresh_mm)
  /\ forallb well_formed (firstn (Z.to_nat 10000) demo_events) = true
  /\ exists r' rows,
       @run _ (MM flat_std MarketMaker.default_config) 10000 demo_events
         fresh_mm = Ok r'
       /\ lob_inv (ob r')
       /\ (forall dir, sizes_pos (half dir (ob r')))
       /\ stats_fills r' = stats_fills fresh_mm ++ rows
       /\ Forall (fun row =>
                    0 < row_qty row
                    /\ (row_side row = "buy"%string
                        \/ row_side row = "sell"%string)) rows.
Proof.
  assert (L : 0 < MarketMaker.order_size MarketMaker.default_config)
    by (simpl; lia).
  split; [exact L|]. split; [exact empty_book_inv|].
  split; [reflexivity|].
  exact (market_maker_run_stays_sound flat_std MarketMaker.default_config L
           10000 demo_events fresh_mm empty_book_inv
           LOBExtra.empty_book_sizes_pos eq_refl).
Defined.


End ReplayerExtra.
